(** * Two-workshop simulation: a shallow embedding of [simulation.py]

    The development embeds the simulation core of [simulation.py] (class
    [Product], class [Simulation] and the event dispatch of [main]) and
    proves the properties of the line: single occupancy of both workshops,
    the paused/stopped frame property, FIFO order of the WS2 queue, the
    shape of the finished list, the contract of [_schedule_next_ws1] and
    the absence of lookup failures.

    Modelling choices.
    - Python [float] is IEEE binary64: it is modelled by Rocq's primitive
      floats, operation for operation.  Integer operands of mixed
      arithmetic are converted first ([float_of_int]), as Python does.
    - Python [int] is [Z].
    - Attributes that may hold [None] are [option]s; the attributes
      [target_x], [target_y], which do not exist before the first
      assignment, are [option]s too ([None] = attribute absent).
    - A raised exception aborts the call: fallible operations return
      [Result].
    - [random.randint] is a parameter of the model: an arbitrary function
      on an arbitrary generator state, with the library's range contract
      as a hypothesis where it is needed. *)

From Stdlib Require Import ZArith List Bool Lia Sorted.
From Stdlib Require Import Floats.PrimFloat Floats.SpecFloat Floats.FloatOps.
From Stdlib Require String DecimalString.
Import ListNotations.
Import String.StringSyntax.
Delimit Scope string_scope with string.

Set Warnings "-inexact-float".
Local Open Scope Z_scope.

(** ** Python values *)

(** Conversion of a Python [int] to [float] (round to nearest even).  Python
    raises [OverflowError] beyond the binary64 range; the integers converted
    here are drawn durations, which are below 100. *)
Definition float_of_int (z : Z) : float :=
  SF2Prim (binary_normalize prec emax z 0 false).

(** [a >= b] on floats; false when either side is a NaN, as in Python. *)
Definition fge (a b : float) : bool := PrimFloat.leb b a.

Arguments float_of_int : simpl never.

Inductive Exn : Type :=
| StopIteration
| TypeError
| AttributeError.

Inductive Result (A : Type) : Type :=
| Ok (a : A)
| Raise (e : Exn).
Arguments Ok {A} a.
Arguments Raise {A} e.

Definition bind {A B : Type} (r : Result A) (k : A -> Result B) : Result B :=
  match r with
  | Ok a => k a
  | Raise e => Raise e
  end.

Notation "x <- r ;; k" := (bind r (fun x => k))
  (at level 61, r at next level, right associativity).

(** Reading a number out of an attribute that holds [None] is a
    [TypeError] at the arithmetic operator. *)
Definition number (o : option float) : Result float :=
  match o with
  | Some v => Ok v
  | None => Raise TypeError
  end.

(** Reading an attribute that was never assigned is an [AttributeError]. *)
Definition attribute (o : option float) : Result float :=
  match o with
  | Some v => Ok v
  | None => Raise AttributeError
  end.

Definition is_None {A : Type} (o : option A) : bool :=
  match o with
  | None => true
  | Some _ => false
  end.

(** ** Config *)

Definition PROD_MIN : Z := 65.
Definition PROD_MAX : Z := 85.
Definition SETUP_MIN : Z := 5.
Definition SETUP_MAX : Z := 15.
Definition TRANSFER_MIN : Z := 5.
Definition TRANSFER_MAX : Z := 11.
Definition PROC_MIN : Z := 30.
Definition PROC_MAX : Z := 45.

Definition WIDTH : Z := 1200.
Definition HEIGHT : Z := 800.

(** [pygame.Rect(left, top, width, height)] and its [center]. *)
Record Rect : Type := mkRect { left : Z; top : Z; width : Z; height : Z }.

Definition right (r : Rect) : Z := left r + width r.
Definition center (r : Rect) : Z * Z :=
  (left r + width r / 2, top r + height r / 2).

Definition SECTION4_RECT : Rect := mkRect (WIDTH / 2) 120 (WIDTH / 2) (HEIGHT - 120).
Definition WS1_RECT : Rect :=
  mkRect (left SECTION4_RECT + 60) (top SECTION4_RECT + 80) 140 100.
Definition WS2_RECT : Rect :=
  mkRect (right SECTION4_RECT - 220) (top SECTION4_RECT + 80) 160 110.

(** ** Product model *)

Inductive PState : Type :=
| waiting_ws1
| producing_ws1
| produced
| transferring
| in_queue_ws2
| processing_ws2
| finished.

Definition state_eqb (a b : PState) : bool :=
  match a, b with
  | waiting_ws1, waiting_ws1
  | producing_ws1, producing_ws1
  | produced, produced
  | transferring, transferring
  | in_queue_ws2, in_queue_ws2
  | processing_ws2, processing_ws2
  | finished, finished => true
  | _, _ => false
  end.

Record Product : Type := mkProduct {
  pid : Z;
  prod_time : Z;
  setup_time : Z;
  transfer_time : Z;
  proc_time : Z;
  t_prod_start : option float;
  t_prod_done : option float;
  t_transfer_done : option float;
  t_proc_start : option float;
  t_proc_done : option float;
  state : PState;
  x : option float;
  y : option float;
  target_x : option float;
  target_y : option float
}.

(** [Product.__init__] *)
Definition Product_init (pid0 prod setup transfer proc : Z) : Product :=
  {| pid := pid0; prod_time := prod; setup_time := setup;
     transfer_time := transfer; proc_time := proc;
     t_prod_start := None; t_prod_done := None; t_transfer_done := None;
     t_proc_start := None; t_proc_done := None;
     state := waiting_ws1;
     x := None; y := None; target_x := None; target_y := None |}.

(** Attribute assignments on a product. *)
Definition set_state (st : PState) (p : Product) : Product :=
  mkProduct (pid p) (prod_time p) (setup_time p) (transfer_time p) (proc_time p)
    (t_prod_start p) (t_prod_done p) (t_transfer_done p) (t_proc_start p)
    (t_proc_done p) st (x p) (y p) (target_x p) (target_y p).

Definition set_t_prod_start (t : float) (p : Product) : Product :=
  mkProduct (pid p) (prod_time p) (setup_time p) (transfer_time p) (proc_time p)
    (Some t) (t_prod_done p) (t_transfer_done p) (t_proc_start p)
    (t_proc_done p) (state p) (x p) (y p) (target_x p) (target_y p).

Definition set_t_prod_done (t : float) (p : Product) : Product :=
  mkProduct (pid p) (prod_time p) (setup_time p) (transfer_time p) (proc_time p)
    (t_prod_start p) (Some t) (t_transfer_done p) (t_proc_start p)
    (t_proc_done p) (state p) (x p) (y p) (target_x p) (target_y p).

Definition set_t_proc_start (t : float) (p : Product) : Product :=
  mkProduct (pid p) (prod_time p) (setup_time p) (transfer_time p) (proc_time p)
    (t_prod_start p) (t_prod_done p) (t_transfer_done p) (Some t)
    (t_proc_done p) (state p) (x p) (y p) (target_x p) (target_y p).

Definition set_t_proc_done (t : float) (p : Product) : Product :=
  mkProduct (pid p) (prod_time p) (setup_time p) (transfer_time p) (proc_time p)
    (t_prod_start p) (t_prod_done p) (t_transfer_done p) (t_proc_start p)
    (Some t) (state p) (x p) (y p) (target_x p) (target_y p).

Definition set_xy (c : float * float) (p : Product) : Product :=
  mkProduct (pid p) (prod_time p) (setup_time p) (transfer_time p) (proc_time p)
    (t_prod_start p) (t_prod_done p) (t_transfer_done p) (t_proc_start p)
    (t_proc_done p) (state p) (Some (fst c)) (Some (snd c))
    (target_x p) (target_y p).

Definition set_target (c : float * float) (p : Product) : Product :=
  mkProduct (pid p) (prod_time p) (setup_time p) (transfer_time p) (proc_time p)
    (t_prod_start p) (t_prod_done p) (t_transfer_done p) (t_proc_start p)
    (t_proc_done p) (state p) (x p) (y p)
    (Some (fst c)) (Some (snd c)).

(** A [Rect.center] used as a pair of coordinates.  The source stores the
    two integers; every later use is in float arithmetic, where they are
    converted exactly. *)
Definition center_f (r : Rect) : float * float :=
  (float_of_int (fst (center r)), float_of_int (snd (center r))).

(** ** Simulation state *)

Record Simulation : Type := mkSimulation {
  now : float;
  speed : float;
  running : bool;
  paused : bool;
  products : list Product;
  queue_ws2 : list Z;
  finished_ids : list Z;
  ws1_busy_until : float;
  ws2_busy_until : float;
  ws2_current_id : option Z;
  next_pid : Z;
  assigned_list : list (Z * Z * Z * Z)
}.

Definition set_now (t : float) (s : Simulation) : Simulation :=
  mkSimulation t (speed s) (running s) (paused s) (products s) (queue_ws2 s)
    (finished_ids s) (ws1_busy_until s) (ws2_busy_until s) (ws2_current_id s)
    (next_pid s) (assigned_list s).

(** [sim.speed = v], the speed assignment of [main]. *)
Definition set_speed (v : float) (s : Simulation) : Simulation :=
  mkSimulation (now s) v (running s) (paused s) (products s) (queue_ws2 s)
    (finished_ids s) (ws1_busy_until s) (ws2_busy_until s) (ws2_current_id s)
    (next_pid s) (assigned_list s).

Definition set_running (b : bool) (s : Simulation) : Simulation :=
  mkSimulation (now s) (speed s) b (paused s) (products s) (queue_ws2 s)
    (finished_ids s) (ws1_busy_until s) (ws2_busy_until s) (ws2_current_id s)
    (next_pid s) (assigned_list s).

Definition set_paused (b : bool) (s : Simulation) : Simulation :=
  mkSimulation (now s) (speed s) (running s) b (products s) (queue_ws2 s)
    (finished_ids s) (ws1_busy_until s) (ws2_busy_until s) (ws2_current_id s)
    (next_pid s) (assigned_list s).

Definition set_products (ps : list Product) (s : Simulation) : Simulation :=
  mkSimulation (now s) (speed s) (running s) (paused s) ps (queue_ws2 s)
    (finished_ids s) (ws1_busy_until s) (ws2_busy_until s) (ws2_current_id s)
    (next_pid s) (assigned_list s).

Definition set_queue_ws2 (q : list Z) (s : Simulation) : Simulation :=
  mkSimulation (now s) (speed s) (running s) (paused s) (products s) q
    (finished_ids s) (ws1_busy_until s) (ws2_busy_until s) (ws2_current_id s)
    (next_pid s) (assigned_list s).

Definition set_finished_ids (f : list Z) (s : Simulation) : Simulation :=
  mkSimulation (now s) (speed s) (running s) (paused s) (products s)
    (queue_ws2 s) f (ws1_busy_until s) (ws2_busy_until s) (ws2_current_id s)
    (next_pid s) (assigned_list s).

Definition set_ws1_busy_until (t : float) (s : Simulation) : Simulation :=
  mkSimulation (now s) (speed s) (running s) (paused s) (products s)
    (queue_ws2 s) (finished_ids s) t (ws2_busy_until s) (ws2_current_id s)
    (next_pid s) (assigned_list s).

Definition set_ws2_busy_until (t : float) (s : Simulation) : Simulation :=
  mkSimulation (now s) (speed s) (running s) (paused s) (products s)
    (queue_ws2 s) (finished_ids s) (ws1_busy_until s) t (ws2_current_id s)
    (next_pid s) (assigned_list s).

Definition set_ws2_current_id (c : option Z) (s : Simulation) : Simulation :=
  mkSimulation (now s) (speed s) (running s) (paused s) (products s)
    (queue_ws2 s) (finished_ids s) (ws1_busy_until s) (ws2_busy_until s) c
    (next_pid s) (assigned_list s).

Definition set_next_pid (n : Z) (s : Simulation) : Simulation :=
  mkSimulation (now s) (speed s) (running s) (paused s) (products s)
    (queue_ws2 s) (finished_ids s) (ws1_busy_until s) (ws2_busy_until s)
    (ws2_current_id s) n (assigned_list s).

Definition set_assigned_list (l : list (Z * Z * Z * Z)) (s : Simulation)
  : Simulation :=
  mkSimulation (now s) (speed s) (running s) (paused s) (products s)
    (queue_ws2 s) (finished_ids s) (ws1_busy_until s) (ws2_busy_until s)
    (ws2_current_id s) (next_pid s) l.

(** The attribute assignments of [reset], before the first product is
    scheduled. *)
Definition blank : Simulation :=
  {| now := 0%float; speed := 1%float; running := false; paused := true;
     products := []; queue_ws2 := []; finished_ids := [];
     ws1_busy_until := 0%float; ws2_busy_until := 0%float;
     ws2_current_id := None;
     next_pid := 1; assigned_list := [] |}.

(** [self.products[-1] if self.products else None] *)
Fixpoint last_product (ps : list Product) : option Product :=
  match ps with
  | [] => None
  | [p] => Some p
  | _ :: rest => last_product rest
  end.

(** [p = next(pp for pp in self.products if pp.pid == pid0)] followed by
    assignments to attributes of [p]: the first product with that id is
    mutated in place (the list holds the object itself).  Returns the
    product as found together with the list after the mutation; raises
    [StopIteration] when the generator is exhausted. *)
Fixpoint mutate_next (pid0 : Z) (f : Product -> Product) (ps : list Product)
  : Result (Product * list Product) :=
  match ps with
  | [] => Raise StopIteration
  | pp :: rest =>
      if pid pp =? pid0 then Ok (pp, f pp :: rest)
      else r <- mutate_next pid0 f rest ;; Ok (fst r, pp :: snd r)
  end.

(** Body of the loop [for p in self.products] of [update], for one product:
    production in WS1 and the transfer to the WS2 queue.  [q] is
    [self.queue_ws2]. *)
Definition advance_product (t : float) (p : Product) (q : list Z)
  : Result (Product * list Z) :=
  p1 <- (if state_eqb (state p) producing_ws1 then
           start <- number (t_prod_start p) ;;
           let done := (start + float_of_int (prod_time p))%float in
           if fge t done && is_None (t_prod_done p)
           then Ok (set_state produced (set_t_prod_done done p))
           else Ok p
         else Ok p) ;;
  if state_eqb (state p1) produced && is_None (t_transfer_done p1) then
    Ok (set_target (center_f WS2_RECT) (set_state transferring p1), q)
  else if state_eqb (state p1) transferring then
    tx <- attribute (target_x p1) ;;
    x0 <- number (x p1) ;;
    let dx := ((tx - x0) * 0.05)%float in
    ty <- attribute (target_y p1) ;;
    y0 <- number (y p1) ;;
    let dy := ((ty - y0) * 0.05)%float in
    let x1 := (x0 + dx)%float in
    let y1 := (y0 + dy)%float in
    let p2 := set_xy (x1, y1) p1 in
    if PrimFloat.ltb (abs (x1 - tx)) 2 && PrimFloat.ltb (abs (y1 - ty)) 2
    then Ok (set_state in_queue_ws2 p2, q ++ [pid p2])
    else Ok (p2, q)
  else Ok (p1, q).

(** The loop [for p in self.products]: products are visited in list order,
    each mutated in place, arrivals appended to the queue. *)
Fixpoint advance_products (t : float) (ps : list Product) (q : list Z)
  : Result (list Product * list Z) :=
  match ps with
  | [] => Ok ([], q)
  | p :: rest =>
      r <- advance_product t p q ;;
      r' <- advance_products t rest (snd r) ;;
      Ok (fst r :: fst r', snd r')
  end.

(** [last.state in ("produced", "in_queue_ws2", "processing_ws2", "finished")] *)
Definition frees_ws1 (st : PState) : bool :=
  match st with
  | produced | in_queue_ws2 | processing_ws2 | finished => true
  | _ => false
  end.

Section Core.

(** [random.randint] over an abstract generator state. *)
Variable RNG : Type.
Variable randint : Z -> Z -> RNG -> Z * RNG.

Definition World : Type := (RNG * Simulation)%type.

(** [Simulation._rand] *)
Definition _rand (lo hi : Z) (g : RNG) : Z * RNG := randint lo hi g.

(** [Simulation._schedule_next_ws1] *)
Definition _schedule_next_ws1 (w : World) : World :=
  let '(g, s) := w in
  let '(prod, g) := _rand PROD_MIN PROD_MAX g in
  let '(setup, g) := _rand SETUP_MIN SETUP_MAX g in
  let '(transfer, g) := _rand TRANSFER_MIN TRANSFER_MAX g in
  let '(proc, g) := _rand PROC_MIN PROC_MAX g in
  let p := Product_init (next_pid s) prod setup transfer proc in
  let p := set_t_prod_start (now s) p in
  let p := set_state producing_ws1 p in
  let p := set_xy (center_f WS1_RECT) p in
  let s := set_products (products s ++ [p]) s in
  let s := set_ws1_busy_until
             (now s + float_of_int prod + float_of_int setup)%float s in
  let s := set_assigned_list
             (assigned_list s ++ [(pid p, prod, transfer, proc)]) s in
  let s := set_next_pid (next_pid s + 1) s in
  (g, s).

(** [Simulation.reset] (also [Simulation.__init__]): every attribute is
    overwritten, so the result depends on the generator only. *)
Definition reset (g : RNG) : World := _schedule_next_ws1 (g, blank).

(** [Simulation._try_start_ws2] *)
Definition _try_start_ws2 (s : Simulation) : Result Simulation :=
  match ws2_current_id s, queue_ws2 s with
  | None, pid0 :: rest =>
      let s := set_queue_ws2 rest s in
      r <- mutate_next pid0
             (fun p => set_state processing_ws2 (set_t_proc_start (now s) p))
             (products s) ;;
      let s := set_products (snd r) s in
      let s := set_ws2_current_id (Some pid0) s in
      Ok (set_ws2_busy_until (now s + float_of_int (proc_time (fst r)))%float s)
  | _, _ => Ok s
  end.

(** The four blocks of [update] after the time advance, in source order. *)

(** [for p in self.products: ...] *)
Definition production_and_transfer (s : Simulation) : Result Simulation :=
  r <- advance_products (now s) (products s) (queue_ws2 s) ;;
  Ok (set_queue_ws2 (snd r) (set_products (fst r) s)).

(** [if self.now >= self.ws1_busy_until: ...] *)
Definition ws1_schedule_check (w : World) : World :=
  let '(g, s) := w in
  if fge (now s) (ws1_busy_until s) then
    let last := last_product (products s) in
    if match last with
       | None => true
       | Some l => frees_ws1 (state l)
       end
    then
      let '(g, s) := _schedule_next_ws1 (g, s) in
      (g, set_ws1_busy_until (ws1_busy_until s + 1e-6)%float s)
    else (g, s)
  else (g, s).

(** [if self.ws2_current_id is not None: ...] *)
Definition ws2_completion (s : Simulation) : Result Simulation :=
  match ws2_current_id s with
  | Some cur =>
      let done := fge (now s) (ws2_busy_until s) in
      r <- mutate_next cur
             (fun p => if done
                       then set_state finished
                              (set_t_proc_done (ws2_busy_until s) p)
                       else p)
             (products s) ;;
      if done then
        Ok (set_ws2_current_id None
              (set_finished_ids (finished_ids s ++ [pid (fst r)])
                 (set_products (snd r) s)))
      else Ok s
  | None => Ok s
  end.

(** [Simulation.update] *)
Definition update (dt_real_seconds : float) (w : World) : Result World :=
  let '(g, s) := w in
  if negb (running s) || paused s then Ok (g, s)
  else
    let s := set_now (now s + dt_real_seconds * speed s)%float s in
    s <- production_and_transfer s ;;
    let '(g, s) := ws1_schedule_check (g, s) in
    s <- ws2_completion s ;;
    s <- _try_start_ws2 s ;;
    Ok (g, s).

(** The same four blocks in the order the specification lists them:
    completion check, production/transfer advance, WS1 scheduling check,
    start of the next WS2 job.  Compared with [update] below. *)
Definition update_spec_order (dt_real_seconds : float) (w : World)
  : Result World :=
  let '(g, s) := w in
  if negb (running s) || paused s then Ok (g, s)
  else
    let s := set_now (now s + dt_real_seconds * speed s)%float s in
    s <- ws2_completion s ;;
    s <- production_and_transfer s ;;
    let '(g, s) := ws1_schedule_check (g, s) in
    s <- _try_start_ws2 s ;;
    Ok (g, s).

(** *** Queue traffic of a tick

    The ids that one call of [update] appends to [queue_ws2]
    ([self.queue_ws2.append(p.pid)], in loop order) and the ids it removes
    ([self.queue_ws2.pop(0)]). *)

(** Ids appended by the loop over the products: the loop run on an empty
    queue. *)
Definition arrivals (s : Simulation) : Result (list Z) :=
  r <- advance_products (now s) (products s) [] ;; Ok (snd r).

(** Id popped by [_try_start_ws2], if it pops. *)
Definition popped (s : Simulation) : list Z :=
  match ws2_current_id s, queue_ws2 s with
  | None, pid0 :: _ => [pid0]
  | _, _ => []
  end.

(** [update], returning next to the new state the ids it enqueued and the
    ids it dequeued. *)
Definition update_traced (dt_real_seconds : float) (w : World)
  : Result (World * (list Z * list Z)) :=
  let '(g, s) := w in
  if negb (running s) || paused s then Ok ((g, s), ([], []))
  else
    let s := set_now (now s + dt_real_seconds * speed s)%float s in
    enq <- arrivals s ;;
    s <- production_and_transfer s ;;
    let '(g, s) := ws1_schedule_check (g, s) in
    s <- ws2_completion s ;;
    let deq := popped s in
    s <- _try_start_ws2 s ;;
    Ok ((g, s), (enq, deq)).

(** ** Control surface

    [main] drives the simulation through attribute assignments and
    [reset]; these are the operations behind its buttons and keys. *)

(** [sim.running = True; sim.paused = False] *)
Definition start (s : Simulation) : Simulation :=
  set_paused false (set_running true s).

(** [sim.paused = True] *)
Definition pause (s : Simulation) : Simulation := set_paused true s.

(** [sim.running = True; sim.paused = not sim.paused] *)
Definition toggle_pause (s : Simulation) : Simulation :=
  let s := set_running true s in
  set_paused (negb (paused s)) s.

(** The events [main] reacts to: left clicks on its eight buttons and the
    seven keys. *)
Inductive Event : Type :=
| click_start | click_pause | click_stop
| click_1x | click_2x | click_5x | click_10x | click_20x
| K_SPACE | K_s | K_1 | K_2 | K_3 | K_4 | K_5.

(** The [if]/[elif] chains of the event loop of [main]. *)
Definition handle_event (e : Event) (w : World) : World :=
  let '(g, s) := w in
  match e with
  | click_start => (g, start s)
  | click_pause => (g, pause s)
  | click_stop => reset g
  | click_1x => (g, set_speed 1 s)
  | click_2x => (g, set_speed 2 s)
  | click_5x => (g, set_speed 5 s)
  | click_10x => (g, set_speed 10 s)
  | click_20x => (g, set_speed 20 s)
  | K_SPACE => (g, toggle_pause s)
  | K_s => reset g
  | K_1 => (g, set_speed 1 s)
  | K_2 => (g, set_speed 2 s)
  | K_3 => (g, set_speed 5 s)
  | K_4 => (g, set_speed 10 s)
  | K_5 => (g, set_speed 20 s)
  end.

(** ** Executions *)

(** One operation on the simulation object: a tick of the driver loop or a
    control operation.  [OpSetSpeed] assigns any float, not only the five
    values [main] uses. *)
Inductive Op : Type :=
| OpTick (dt_real_seconds : float)
| OpStart
| OpPause
| OpToggle
| OpReset
| OpSetSpeed (v : float).

Definition apply_op (o : Op) (w : World) : Result World :=
  match o with
  | OpTick dt => update dt w
  | OpStart => Ok (fst w, start (snd w))
  | OpPause => Ok (fst w, pause (snd w))
  | OpToggle => Ok (fst w, toggle_pause (snd w))
  | OpReset => Ok (reset (fst w))
  | OpSetSpeed v => Ok (fst w, set_speed v (snd w))
  end.

Fixpoint run (ops : list Op) (w : World) : Result World :=
  match ops with
  | [] => Ok w
  | o :: rest => w' <- apply_op o w ;; run rest w'
  end.

Definition op_of_event (e : Event) : Op :=
  match e with
  | click_start => OpStart
  | click_pause => OpPause
  | click_stop | K_s => OpReset
  | click_1x | K_1 => OpSetSpeed 1
  | click_2x | K_2 => OpSetSpeed 2
  | click_5x | K_3 => OpSetSpeed 5
  | click_10x | K_4 => OpSetSpeed 10
  | click_20x | K_5 => OpSetSpeed 20
  | K_SPACE => OpToggle
  end.

(** States reachable from a freshly constructed simulation ([reset] on any
    generator state) by operations that return normally. *)
Inductive reachable : World -> Prop :=
| reachable_reset : forall g, reachable (reset g)
| reachable_step : forall w o w',
    reachable w -> apply_op o w = Ok w' -> reachable w'.

(** States reachable when the control operations are those [main] issues. *)
Inductive ui_reachable : World -> Prop :=
| ui_reachable_reset : forall g, ui_reachable (reset g)
| ui_reachable_event : forall w e,
    ui_reachable w -> ui_reachable (handle_event e w)
| ui_reachable_tick : forall w dt w',
    ui_reachable w -> update dt w = Ok w' -> ui_reachable w'.

(** The queue history of an execution: all ids enqueued and all ids
    dequeued since the last [reset] ([reset] discards the queue together
    with the rest of the state, and the history with it). *)
Record History : Type := mkHistory { enqueued : list Z; dequeued : list Z }.

Definition no_history : History := mkHistory [] [].

Definition apply_op_traced (o : Op) (wh : World * History)
  : Result (World * History) :=
  let '(w, h) := wh in
  match o with
  | OpTick dt =>
      r <- update_traced dt w ;;
      Ok (fst r, mkHistory (enqueued h ++ fst (snd r))
                           (dequeued h ++ snd (snd r)))
  | OpReset => Ok (reset (fst w), no_history)
  | _ => w' <- apply_op o w ;; Ok (w', h)
  end.

Fixpoint run_traced (ops : list Op) (wh : World * History)
  : Result (World * History) :=
  match ops with
  | [] => Ok wh
  | o :: rest => wh' <- apply_op_traced o wh ;; run_traced rest wh'
  end.

End Core.

Arguments World RNG : clear implicits.
Arguments _rand {RNG} randint lo hi g.
Arguments _schedule_next_ws1 {RNG} randint w.
Arguments reset {RNG} randint g.
Arguments ws1_schedule_check {RNG} randint w.
Arguments update {RNG} randint dt_real_seconds w.
Arguments update_spec_order {RNG} randint dt_real_seconds w.
Arguments update_traced {RNG} randint dt_real_seconds w.
Arguments handle_event {RNG} randint e w.
Arguments apply_op {RNG} randint o w.
Arguments run {RNG} randint ops w.
Arguments apply_op_traced {RNG} randint o wh.
Arguments run_traced {RNG} randint ops wh.
Arguments reachable {RNG} randint w.
Arguments ui_reachable {RNG} randint w.
Arguments reachable_reset {RNG} randint g.
Arguments reachable_step {RNG} randint w o w' _ _.
Arguments ui_reachable_reset {RNG} randint g.
Arguments ui_reachable_event {RNG} randint w e _.
Arguments ui_reachable_tick {RNG} randint w dt w' _ _.

(** ** Observations on a state *)

(** Number of products in a given lifecycle state. *)
Definition count_state (st : PState) (ps : list Product) : nat :=
  length (filter (fun p => state_eqb (state p) st) ps).

(** The contract of [random.randint(lo, hi)]: an integer in the inclusive
    range. *)
Definition randint_contract {RNG : Type} (randint : Z -> Z -> RNG -> Z * RNG)
  : Prop :=
  forall lo hi g, lo <= hi -> lo <= fst (randint lo hi g) <= hi.

(** The speeds the buttons and keys of [main] assign. *)
Definition ui_speeds : list float := [1; 2; 5; 10; 20]%float.

(** ** The line invariant *)

(** States an item does not leave towards WS1 again: queued, in WS2, or
    finished. *)
Definition settled (p : Product) : bool :=
  match state p with
  | in_queue_ws2 | processing_ws2 | finished => true
  | _ => false
  end.

(** Attributes the transitions read are set whenever they are read:
    [t_prod_start], [x], [y] from scheduling on, the target from the start
    of the transfer on; [t_transfer_done] is never assigned; between the
    blocks of [update] no product is [waiting_ws1] or [produced]. *)
Definition wf_product (p : Product) : Prop :=
  t_transfer_done p = None /\
  t_prod_start p <> None /\
  x p <> None /\ y p <> None /\
  (state p = producing_ws1 \/ settled p = true \/
   (state p = transferring /\ target_x p <> None /\ target_y p <> None)).

(** What ties one product to the shared attributes of the simulation. *)
Definition linked (q f : list Z) (c : option Z) (n : Z) (p : Product) : Prop :=
  (state p = processing_ws2 <-> c = Some (pid p)) /\
  (In (pid p) q -> state p = in_queue_ws2) /\
  (In (pid p) f -> state p = finished) /\
  pid p < n /\
  wf_product p.

Record InvC (ps : list Product) (q f : list Z) (c : option Z) (n : Z)
  : Prop := mkInvC {
  inv_pids : NoDup (map pid ps);
  inv_linked : Forall (linked q f c n) ps;
  inv_settled : Forall (fun p => settled p = true) (removelast ps);
  inv_current : forall k, c = Some k -> In k (map pid ps);
  inv_queue_ids : incl q (map pid ps);
  inv_queue_nodup : NoDup q;
  inv_finished_ids : incl f (map pid ps);
  inv_finished_nodup : NoDup f
}.

Definition Inv (s : Simulation) : Prop :=
  InvC (products s) (queue_ws2 s) (finished_ids s) (ws2_current_id s)
       (next_pid s).

(** [replace p' ps]: the list [ps] after the in-place mutation that turns
    the product with the id of [p'] into [p']. *)
Definition replace (p' : Product) (ps : list Product) : list Product :=
  map (fun q => if pid q =? pid p' then p' else q) ps.

(** The state after the completion check has finished product [p], on a
    list without duplicate ids. *)
Definition finish (s : Simulation) (p : Product) : Simulation :=
  set_ws2_current_id None
    (set_finished_ids (finished_ids s ++ [pid p])
       (set_products
          (replace (set_state finished (set_t_proc_done (ws2_busy_until s) p))
                   (products s)) s)).

(** ** A deterministic duration source

    A linear congruential generator on [Z], mapped into the requested
    range; it stands in for [random.randint] in the concrete runs. *)
Definition lcg_randint (lo hi : Z) (g : Z) : Z * Z :=
  (lo + g mod (hi - lo + 1), (1103515245 * g + 12345) mod 2147483648).

(** A source that always returns the lower bound. *)
Definition low_randint (lo hi : Z) (g : unit) : Z * unit := (lo, g).

(** What [reset] establishes and no operation other than a running tick,
    [start] or the toggle changes. *)
Definition idle (s : Simulation) : Prop :=
  running s = false /\ paused s = true /\ now s = 0%float /\
  exists p, products s = [p] /\ state p = producing_ws1 /\ pid p = 1 /\
            t_prod_start p = Some 0%float /\ t_prod_done p = None.

(** A concrete execution: construction, start, a long first tick, then
    frames of one simulated minute; two products are in the line at its
    end. *)
Definition demo_ops : list Op :=
  [OpStart; OpTick 10000] ++ repeat (OpTick 1) 130.

Definition demo_world : World Z :=
  Eval vm_compute in
    match run lcg_randint demo_ops (reset lcg_randint 7) with
    | Ok w => w
    | Raise _ => reset lcg_randint 7
    end.

(** The line 40 minutes later: product 1 has left WS2, which is free
    again, and product 2 is still in production. *)
Definition ws2_free_world : World Z :=
  Eval vm_compute in
    match run lcg_randint [OpTick 40] demo_world with
    | Ok w => w
    | Raise _ => demo_world
    end.

(** ** Further observations on the line *)

(** What is fixed when a product is scheduled: its id, its four durations
    and its production start. *)
Definition identity_of (p : Product) : Z * Z * Z * Z * Z * option float :=
  (pid p, prod_time p, setup_time p, transfer_time p, proc_time p,
   t_prod_start p).

(** The tuple [_schedule_next_ws1] appends to [assigned_list] for a
    product. *)
Definition log_entry (p : Product) : Z * Z * Z * Z :=
  (pid p, prod_time p, transfer_time p, proc_time p).

(** Position of a state in the lifecycle
    [waiting_ws1 -> producing_ws1 -> produced -> transferring ->
     in_queue_ws2 -> processing_ws2 -> finished]. *)
Definition rank (st : PState) : nat :=
  match st with
  | waiting_ws1 => 0
  | producing_ws1 => 1
  | produced => 2
  | transferring => 3
  | in_queue_ws2 => 4
  | processing_ws2 => 5
  | finished => 6
  end.

Definition durations_in_range (p : Product) : Prop :=
  PROD_MIN <= prod_time p <= PROD_MAX /\
  SETUP_MIN <= setup_time p <= SETUP_MAX /\
  TRANSFER_MIN <= transfer_time p <= TRANSFER_MAX /\
  PROC_MIN <= proc_time p <= PROC_MAX.

(** The timestamps a product carries in each state. *)
Definition stamped (p : Product) : Prop :=
  t_transfer_done p = None /\
  exists t0,
    t_prod_start p = Some t0 /\
    match state p with
    | producing_ws1 =>
        t_prod_done p = None /\ t_proc_start p = None /\ t_proc_done p = None
    | transferring | in_queue_ws2 =>
        t_prod_done p = Some (t0 + float_of_int (prod_time p))%float /\
        t_proc_start p = None /\ t_proc_done p = None
    | processing_ws2 =>
        t_prod_done p = Some (t0 + float_of_int (prod_time p))%float /\
        (exists t1, t_proc_start p = Some t1) /\ t_proc_done p = None
    | finished =>
        t_prod_done p = Some (t0 + float_of_int (prod_time p))%float /\
        exists t1, t_proc_start p = Some t1 /\
                   t_proc_done p =
                   Some (t1 + float_of_int (proc_time p))%float
    | waiting_ws1 | produced => False
    end.

(** [stamped], and the product in WS2 is the one [ws2_busy_until] was
    computed for. *)
Definition stamped_in (c : option Z) (b : float) (p : Product) : Prop :=
  stamped p /\
  (c = Some (pid p) ->
   exists t1, t_proc_start p = Some t1 /\
              b = (t1 + float_of_int (proc_time p))%float).

(** How far a product is through WS2: 3 finished, 2 in WS2, 1 queued,
    0 before the queue. *)
Definition stage (p : Product) : nat :=
  match state p with
  | finished => 3
  | processing_ws2 => 2
  | in_queue_ws2 => 1
  | _ => 0
  end.

(** Along the list no product is further through WS2 than one before
    it. *)
Fixpoint staged (ps : list Product) : Prop :=
  match ps with
  | [] => True
  | p :: rest => Forall (fun r => (stage r <= stage p)%nat) rest /\ staged rest
  end.

Definition is_state (st : PState) (p : Product) : bool :=
  state_eqb (state p) st.

(** The value of [ws1_busy_until] set when a product was scheduled:
    [now + prod + setup], nudged by [1e-6] when [update] scheduled it (every
    product but the first, which [reset] schedules). *)
Definition ws1_release (i : Z * Z * Z * Z * Z * option float) : option float :=
  let '(pid0, prod, setup, _, _, start) := i in
  match start with
  | Some t0 =>
      let b := (t0 + float_of_int prod + float_of_int setup)%float in
      Some (if pid0 =? 1 then b else (b + 1e-6)%float)
  | None => None
  end.

(** Each product starts production when time has reached the release of
    the product before it. *)
Fixpoint ws1_chain (ids : list (Z * Z * Z * Z * Z * option float)) : Prop :=
  match ids with
  | i :: (j :: _) as rest =>
      (exists b t, ws1_release i = Some b /\ snd j = Some t /\
                   fge t b = true) /\
      ws1_chain rest
  | _ => True
  end.

(** Last element of a list, if any. *)
Fixpoint last_opt {A : Type} (l : list A) : option A :=
  match l with
  | [] => None
  | [a] => Some a
  | _ :: rest => last_opt rest
  end.

(** The bookkeeping of WS1, on the identities of the products in list
    order: ids count up from 1, [next_pid] is the next one, the assignment
    log has one entry per product, production starts respect the releases,
    and [ws1_busy_until] is the release of the last product. *)
Definition ws1_book (ids : list (Z * Z * Z * Z * Z * option float))
           (busy : float) (next : Z) (log : list (Z * Z * Z * Z)) : Prop :=
  map (fun i => fst (fst (fst (fst (fst i))))) ids =
    map Z.of_nat (seq 1 (length ids)) /\
  next = Z.of_nat (S (length ids)) /\
  log = map (fun '(pid0, prod, _, transfer, proc, _) =>
               (pid0, prod, transfer, proc)) ids /\
  ws1_chain ids /\
  exists i, last_opt ids = Some i /\ ws1_release i = Some busy.

Definition booked (s : Simulation) : Prop :=
  ws1_book (map identity_of (products s)) (ws1_busy_until s) (next_pid s)
           (assigned_list s).

Definition all_stamped (s : Simulation) : Prop :=
  Forall (stamped_in (ws2_current_id s) (ws2_busy_until s)) (products s).

(** The products are in the order in which they go through WS2, the
    queue holds the queued products and the finished list the finished
    ones, both in list order. *)
Definition lined_up (s : Simulation) : Prop :=
  staged (products s) /\
  queue_ws2 s = map pid (filter (is_state in_queue_ws2) (products s)) /\
  finished_ids s = map pid (filter (is_state finished) (products s)).

(** One product before and after some ticks: the same identity, and a
    state that is not earlier in the lifecycle. *)
Definition evolves (p p' : Product) : Prop :=
  identity_of p' = identity_of p /\ (rank (state p) <= rank (state p'))%nat.

(** *** The transfer track *)

(** [c += (target - c) * 0.05], the move of one coordinate in one tick. *)
Definition ease (c target : float) : float := (c + (target - c) * 0.05)%float.

(** The position after [k] moves from the centre of WS1 towards the centre
    of WS2. *)
Fixpoint track (k : nat) : float * float :=
  match k with
  | O => center_f WS1_RECT
  | S k' =>
      let xy := track k' in
      (ease (fst xy) (fst (center_f WS2_RECT)),
       ease (snd xy) (snd (center_f WS2_RECT)))
  end.

(** [abs(x - target_x) < 2 and abs(y - target_y) < 2] *)
Definition arrived (xy : float * float) : bool :=
  PrimFloat.ltb (abs (fst xy - fst (center_f WS2_RECT))) 2 &&
  PrimFloat.ltb (abs (snd xy - snd (center_f WS2_RECT))) 2.

Definition at_track (k : nat) (p : Product) : Prop :=
  x p = Some (fst (track k)) /\ y p = Some (snd (track k)).

(** Where a product is while it is drawn in motion: at the centre of WS1
    until its transfer starts, on the track towards the centre of WS2, less
    than 100 moves along, while transferring. *)
Definition on_track (p : Product) : Prop :=
  (state p = producing_ws1 \/ state p = produced -> at_track 0 p) /\
  (state p = transferring ->
   target_x p = Some (fst (center_f WS2_RECT)) /\
   target_y p = Some (snd (center_f WS2_RECT)) /\
   exists k, (k < 100)%nat /\ at_track k p).

(** ** The window: layout, events and drawing

    The event loop of [main] and the two drawing functions that depend on
    the state of the line.  A drawing function is modelled by the list of
    the drawing calls it makes, in order; [pygame] itself is not
    modelled. *)

(** [Rect.bottom], [Rect.centerx], [Rect.centery], [Rect.collidepoint] *)
Definition bottom (r : Rect) : Z := top r + height r.
Definition centerx (r : Rect) : Z := left r + width r / 2.
Definition centery (r : Rect) : Z := top r + height r / 2.
Definition collidepoint (r : Rect) (px py : Z) : bool :=
  (left r <=? px) && (px <? left r + width r) &&
  (top r <=? py) && (py <? top r + height r).

Definition Color : Type := (Z * Z * Z)%type.
Definition BLACK : Color := (20, 20, 20).
Definition BLUE : Color := (30, 90, 255).
Definition LIGHT_PINK : Color := (255, 182, 193).
Definition RED : Color := (230, 60, 60).
Definition GREEN : Color := (40, 180, 80).

Definition BTN_W : Z := 90.
Definition BTN_H : Z := 28.
Definition BTN_GAP : Z := 10.
Definition CIRCLE_R : Z := 10.
Definition CIRCLES_PER_ROW : Z := 25.
Definition CIRCLE_GAP : Z := 24.

Definition SECTION2_RECT : Rect := mkRect (WIDTH / 2) 0 (WIDTH / 2) 120.
Definition SECTION3_RECT : Rect := mkRect 0 120 (WIDTH / 2) (HEIGHT - 120).

(** The buttons [main] builds. *)
Definition btn_start : Rect :=
  mkRect (left SECTION2_RECT + 40) (top SECTION2_RECT + 40) BTN_W BTN_H.
Definition btn_pause : Rect :=
  mkRect (right btn_start + BTN_GAP) (top SECTION2_RECT + 40) BTN_W BTN_H.
Definition btn_stop : Rect :=
  mkRect (right btn_pause + BTN_GAP) (top SECTION2_RECT + 40) BTN_W BTN_H.
Definition btn_1x : Rect :=
  mkRect (left SECTION2_RECT + 40) (top SECTION2_RECT + 40 + BTN_H + 12)
         BTN_W BTN_H.
Definition btn_2x : Rect :=
  mkRect (right btn_1x + BTN_GAP) (top SECTION2_RECT + 40 + BTN_H + 12)
         BTN_W BTN_H.
Definition btn_5x : Rect :=
  mkRect (right btn_2x + BTN_GAP) (top SECTION2_RECT + 40 + BTN_H + 12)
         BTN_W BTN_H.
Definition btn_10x : Rect :=
  mkRect (right btn_5x + BTN_GAP) (top SECTION2_RECT + 40 + BTN_H + 12)
         BTN_W BTN_H.
Definition btn_20x : Rect :=
  mkRect (right btn_10x + BTN_GAP) (top SECTION2_RECT + 40 + BTN_H + 12)
         BTN_W BTN_H.

(** The buttons with what a left click on each does. *)
Definition buttons : list (Rect * Event) :=
  [(btn_start, click_start); (btn_pause, click_pause); (btn_stop, click_stop);
   (btn_1x, click_1x); (btn_2x, click_2x); (btn_5x, click_5x);
   (btn_10x, click_10x); (btn_20x, click_20x)].

(** The [pygame] events [main] looks at; [event.key] is the key code. *)
Inductive PgEvent : Type :=
| QUIT
| MOUSEBUTTONDOWN (button : Z) (pos : Z * Z)
| KEYDOWN (key : Z)
| OTHER.

Definition pygame_K_SPACE : Z := 32.
Definition pygame_K_s : Z := 115.
Definition pygame_K_1 : Z := 49.
Definition pygame_K_2 : Z := 50.
Definition pygame_K_3 : Z := 51.
Definition pygame_K_4 : Z := 52.
Definition pygame_K_5 : Z := 53.

(** The body of [for event in pygame.event.get()], on the loop flag
    [running] of [main] and the simulation. *)
Definition main_handle {RNG : Type} (randint : Z -> Z -> RNG -> Z * RNG)
           (ev : PgEvent) (st : bool * World RNG) : bool * World RNG :=
  let '(loop, (g, s)) := st in
  match ev with
  | QUIT => (false, (g, s))
  | MOUSEBUTTONDOWN button (mx, my) =>
      if button =? 1 then
        if collidepoint btn_start mx my then (loop, (g, start s))
        else if collidepoint btn_pause mx my then (loop, (g, pause s))
        else if collidepoint btn_stop mx my then (loop, reset randint g)
        else if collidepoint btn_1x mx my then (loop, (g, set_speed 1 s))
        else if collidepoint btn_2x mx my then (loop, (g, set_speed 2 s))
        else if collidepoint btn_5x mx my then (loop, (g, set_speed 5 s))
        else if collidepoint btn_10x mx my then (loop, (g, set_speed 10 s))
        else if collidepoint btn_20x mx my then (loop, (g, set_speed 20 s))
        else (loop, (g, s))
      else (loop, (g, s))
  | KEYDOWN key =>
      if key =? pygame_K_SPACE then (loop, (g, toggle_pause s))
      else if key =? pygame_K_s then (loop, reset randint g)
      else if key =? pygame_K_1 then (loop, (g, set_speed 1 s))
      else if key =? pygame_K_2 then (loop, (g, set_speed 2 s))
      else if key =? pygame_K_3 then (loop, (g, set_speed 5 s))
      else if key =? pygame_K_4 then (loop, (g, set_speed 10 s))
      else if key =? pygame_K_5 then (loop, (g, set_speed 20 s))
      else (loop, (g, s))
  | OTHER => (loop, (g, s))
  end.

(** One pass of [while running] without the drawing: the pending events,
    then [sim.update(dt_real)]. *)
Definition main_iteration {RNG : Type} (randint : Z -> Z -> RNG -> Z * RNG)
           (events : list PgEvent) (dt_real : float) (st : bool * World RNG)
  : Result (bool * World RNG) :=
  let st := fold_left (fun st ev => main_handle randint ev st) events st in
  w <- update randint dt_real (snd st) ;; Ok (fst st, w).

(** The drawing calls. *)
Inductive DrawCmd : Type :=
| DrawRect (c : Color) (r : Rect) (line_width : Z)
    (* [pygame.draw.rect(screen, c, r, line_width)] *)
| DrawCircle (c : Color) (centre : Z * Z) (radius : Z)
    (* [pygame.draw.circle(screen, c, centre, radius)] *)
| Blit (font : String.string * Z) (text : String.string) (c : Color)
       (pos : Z * Z).
    (* [screen.blit(font.render(text, True, c), pos)], [font] a
       [SysFont(name, size)] *)

(** Exceptions of the drawing code. *)
Inductive DrawExn : Type :=
| NameError
| IntOfNone      (* [TypeError] of [int(None)] *)
| ValueError     (* [int] of a NaN *)
| OverflowError. (* [int] of an infinity *)

Inductive Drawn (A : Type) : Type :=
| Done (a : A)
| Crash (e : DrawExn).
Arguments Done {A} a.
Arguments Crash {A} e.

(** [str(n)] of an [int], as an f-string formats it. *)
Definition str_int (z : Z) : String.string :=
  DecimalString.NilZero.string_of_int (Z.to_int z).

(** [int(v)] of a float attribute: truncation towards zero. *)
Definition py_int (v : option float) : Drawn Z :=
  match v with
  | None => Crash IntOfNone
  | Some f =>
      match Prim2SF f with
      | S754_zero _ => Done 0
      | S754_infinity _ => Crash OverflowError
      | S754_nan => Crash ValueError
      | S754_finite sign m e =>
          let magnitude := Z.shiftl (Zpos m) e in
          Done (if sign then - magnitude else magnitude)
      end
  end.

(** [enumerate(l)] *)
Fixpoint enumerate_from {A : Type} (i : Z) (l : list A) : list (Z * A) :=
  match l with
  | [] => []
  | a :: rest => (i, a) :: enumerate_from (i + 1) rest
  end.

(** [l.sort(key=lambda x: x.pid)]: the stable sort by id. *)
Fixpoint insert_by_pid (p : Product) (l : list Product) : list Product :=
  match l with
  | [] => [p]
  | q :: rest =>
      if pid p <=? pid q then p :: q :: rest else q :: insert_by_pid p rest
  end.

Definition sort_by_pid (l : list Product) : list Product :=
  fold_right insert_by_pid [] l.

(** Centre of the circle number [idx] of a row of circles. *)
Definition cell (origin_x origin_y idx : Z) : Z * Z :=
  let row := idx / CIRCLES_PER_ROW in
  let col := idx mod CIRCLES_PER_ROW in
  (origin_x + col * CIRCLE_GAP, origin_y + row * CIRCLE_GAP).

Definition label_of (p : Product) : String.string :=
  String.append "P"%string (str_int (pid p)).

(** [draw_produced_finished] *)
Definition draw_produced_finished (sim : Simulation) : list DrawCmd :=
  let font := ("Segoe UI"%string, 18) in
  let produced_list :=
    sort_by_pid
      (filter (fun p => negb (is_None (t_prod_done p))) (products sim)) in
  let finished_set := finished_ids sim in
  let prod_origin_x := left SECTION3_RECT + 20 in
  let prod_origin_y := top SECTION3_RECT + 50 in
  let fin_origin_x := left SECTION3_RECT + 20 in
  let fin_origin_y := top SECTION3_RECT + 210 in
  let font_label := ("Consolas"%string, 14) in
  [Blit font "Produced & finished"%string BLACK
        (left SECTION3_RECT + 14, top SECTION3_RECT + 12)] ++
  flat_map
    (fun ip : Z * Product =>
       let '(idx, p) := ip in
       let '(cx, cy) := cell prod_origin_x prod_origin_y idx in
       [DrawCircle
          (if state_eqb (state p) produced && is_None (t_transfer_done p)
           then LIGHT_PINK else BLUE)
          (cx, cy) CIRCLE_R;
        Blit font_label (label_of p) BLACK (cx - 12, cy - 8)])
    (enumerate_from 0 produced_list) ++
  flat_map
    (fun ip : Z * Product =>
       let '(idx, p) := ip in
       if existsb (Z.eqb (pid p)) finished_set then
         let '(cx, cy) := cell fin_origin_x fin_origin_y idx in
         [DrawCircle GREEN (cx, cy) CIRCLE_R;
          Blit font_label (label_of p) BLACK (cx - 12, cy - 8)]
       else [])
    (enumerate_from 0 produced_list).

(** [lst[start:]] *)
Definition slice_from {A : Type} (start : Z) (l : list A) : list A :=
  let n := Z.of_nat (length l) in
  let i := if start <? 0 then Z.max 0 (n + start) else Z.min start n in
  skipn (Z.to_nat i) l.

(** The loop over the displayed part of the assignment log, one line every
    18 pixels from [y0] downwards. *)
Fixpoint assigned_rows (x0 y0 : Z) (l : list (Z * Z * Z * Z)) : list DrawCmd :=
  match l with
  | [] => []
  | (pid0, prod, transfer, proc) :: rest =>
      Blit ("Consolas"%string, 16)
           (String.append (str_int pid0)
              (String.append ": "%string
                 (String.append (str_int prod)
                    (String.append " / "%string
                       (String.append (str_int transfer)
                          (String.append " / "%string (str_int proc)))))))
           BLACK (x0, y0)
      :: assigned_rows x0 (y0 + 18) rest
  end.

(** The marker of the product [p] the name [p] is bound to after the loop
    [for p in sim.products]. *)
Definition workshop_marker (p : Product) : Drawn (list DrawCmd) :=
  let font_label := ("Consolas"%string, 14) in
  match state p with
  | producing_ws1 =>
      Done [DrawCircle BLUE (center WS1_RECT) 14;
            Blit font_label (label_of p) BLACK
                 (centerx WS1_RECT - 12, centery WS1_RECT - 8)]
  | produced =>
      Done [DrawCircle LIGHT_PINK (centerx WS1_RECT + 40, centery WS1_RECT) 12;
            Blit font_label (label_of p) BLACK
                 (centerx WS1_RECT + 30, centery WS1_RECT - 8)]
  | transferring =>
      match py_int (x p), py_int (y p) with
      | Done ix, Done iy =>
          Done [DrawCircle LIGHT_PINK (ix, iy) 12;
                Blit font_label (label_of p) BLACK (ix - 12, iy - 8)]
      | Crash e, _ => Crash e
      | _, Crash e => Crash e
      end
  | processing_ws2 =>
      Done [DrawCircle RED (center WS2_RECT) 14;
            Blit font_label (label_of p) BLACK
                 (centerx WS2_RECT - 12, centery WS2_RECT - 8)]
  | _ => Done []
  end.

(** [draw_workshops_and_assign].  The chain of tests on [p.state] is
    outside the loop over the products, so it runs once, on the last
    product, and raises [NameError] when there is none. *)
Definition draw_workshops_and_assign (sim : Simulation)
  : Drawn (list DrawCmd) :=
  let font := ("Segoe UI"%string, 18) in
  let header :=
    [Blit font "Workshops"%string BLACK
          (left SECTION4_RECT + 14, top SECTION4_RECT + 12);
     DrawRect BLACK WS1_RECT 2;
     DrawRect BLACK WS2_RECT 2;
     Blit font "Workshop 1"%string BLACK (left WS1_RECT, top WS1_RECT - 22);
     Blit font "Workshop 2"%string BLACK (left WS2_RECT, top WS2_RECT - 22)] in
  match last_product (products sim) with
  | None => Crash NameError
  | Some p =>
      match workshop_marker p with
      | Crash e => Crash e
      | Done marker =>
          let font2 := ("Consolas"%string, 16) in
          let q_count := Z.of_nat (length (queue_ws2 sim)) in
          let current :=
            match ws2_current_id sim with
            | Some c => str_int c
            | None => "-"%string
            end in
          let x0 := left SECTION4_RECT + 14 in
          let y0 := top SECTION4_RECT + 276 in
          let max_rows := (bottom SECTION4_RECT - y0 - 16) / 18 in
          Done
            (header ++ marker ++
             [Blit font2
                   (String.append "Queue awaiting WS2: "%string
                                  (str_int q_count))
                   BLACK (left WS2_RECT, bottom WS2_RECT + 8);
              Blit font2
                   (String.append "WS2 current PID: "%string current)
                   BLACK (left WS2_RECT, bottom WS2_RECT + 28);
              Blit font "Assigned times"%string BLACK
                   (left SECTION4_RECT + 14, top SECTION4_RECT + 230);
              Blit font2 "PID: prod / transfer / proc"%string BLACK
                   (left SECTION4_RECT + 14, top SECTION4_RECT + 254)] ++
             assigned_rows x0 y0 (slice_from (- max_rows) (assigned_list sim)))
      end
  end.

Definition is_circle (c : DrawCmd) : bool :=
  match c with
  | DrawCircle _ _ _ => true
  | _ => false
  end.

(** * Properties *)

(** ** Lists of products *)

Lemma state_eqb_eq (a b : PState) : state_eqb a b = true <-> a = b.
Proof. destruct a, b; simpl; split; intros H; try reflexivity; discriminate. Qed.

Lemma removelast_map {A B : Type} (g : A -> B) (l : list A) :
  removelast (map g l) = map g (removelast l).
Proof.
  induction l as [|a [|b l] IH]; simpl; try reflexivity.
  simpl in IH. now rewrite IH.
Qed.

Lemma in_removelast {A : Type} (a : A) (l : list A) :
  In a (removelast l) -> In a l.
Proof.
  induction l as [|b [|c l] IH]; simpl; intros H; try contradiction.
  destruct H as [H|H]; [now left | right; now apply IH].
Qed.

Lemma snoc_cases {A : Type} (l : list A) :
  l = [] \/ exists front a, l = front ++ [a].
Proof.
  destruct l as [|a l]; [now left | right].
  destruct (exists_last (l := a :: l)) as (front & b & E); [discriminate|].
  now exists front, b.
Qed.

Lemma last_product_snoc (ps : list Product) (p : Product) :
  last_product (ps ++ [p]) = Some p.
Proof.
  induction ps as [|a ps IH]; simpl; [reflexivity|].
  destruct (ps ++ [p]) eqn:E; [now destruct ps | exact IH].
Qed.

Lemma pid_inj (ps : list Product) (a b : Product) :
  NoDup (map pid ps) -> In a ps -> In b ps -> pid a = pid b -> a = b.
Proof.
  induction ps as [|p ps IH]; simpl; intros ND Ha Hb E; [contradiction|].
  inversion ND as [|? ? Hnin ND']; subst.
  destruct Ha as [->|Ha], Hb as [->|Hb]; auto.
  - exfalso. apply Hnin. rewrite E. now apply in_map.
  - exfalso. apply Hnin. rewrite <- E. now apply in_map.
Qed.

Lemma in_pids (ps : list Product) (k : Z) :
  In k (map pid ps) <-> exists p, In p ps /\ pid p = k.
Proof.
  rewrite in_map_iff; split; intros (p & H1 & H2); exists p; auto.
Qed.

Lemma map_pid_replace (p' : Product) (ps : list Product) :
  map pid (replace p' ps) = map pid ps.
Proof.
  unfold replace. rewrite map_map. apply map_ext_in. intros a _.
  destruct (Z.eqb_spec (pid a) (pid p')); congruence.
Qed.

Lemma replace_absent (p' : Product) (ps : list Product) :
  ~ In (pid p') (map pid ps) -> replace p' ps = ps.
Proof.
  intros H. unfold replace. rewrite <- (map_id ps) at 2.
  apply map_ext_in. intros a Ha.
  destruct (Z.eqb_spec (pid a) (pid p')) as [E|]; [|reflexivity].
  exfalso. apply H. rewrite <- E. now apply in_map.
Qed.

Lemma replace_snoc (p p' : Product) (front : list Product) :
  NoDup (map pid (front ++ [p])) -> pid p' = pid p ->
  replace p' (front ++ [p]) = front ++ [p'].
Proof.
  intros ND E. unfold replace at 1. rewrite map_app. simpl.
  rewrite <- E, Z.eqb_refl. f_equal.
  fold (replace p' front). apply replace_absent.
  rewrite map_app in ND. simpl in ND.
  apply NoDup_remove_2 in ND. rewrite app_nil_r in ND. now rewrite E.
Qed.

(** On a list without duplicate ids, the lookup-and-mutate of the source
    is [replace]. *)
Lemma mutate_next_replace (c : Z) (f : Product -> Product) (ps : list Product) :
  NoDup (map pid ps) -> In c (map pid ps) ->
  (forall p, pid (f p) = pid p) ->
  exists p, In p ps /\ pid p = c /\
            mutate_next c f ps = Ok (p, replace (f p) ps).
Proof.
  intros ND Hin Hf. induction ps as [|a ps IH]; simpl in *; [contradiction|].
  inversion ND as [|? ? Hnin ND']; subst.
  destruct (Z.eqb_spec (pid a) c) as [E|NE].
  - exists a. repeat split; auto.
    pose proof (replace_absent (f a) ps) as R.
    unfold replace in *. simpl. rewrite Hf in *. rewrite Z.eqb_refl.
    now rewrite R.
  - destruct Hin as [Hin|Hin]; [contradiction|].
    destruct (IH ND' Hin) as (p & Hp & Hc & Hm).
    exists p. repeat split; auto. rewrite Hm. simpl.
    destruct (Z.eqb_spec (pid a) (pid (f p))) as [E'|_]; [|reflexivity].
    rewrite Hf in E'. congruence.
Qed.

Lemma mutate_next_app (c : Z) (f : Product -> Product)
      (ps extra : list Product) (p : Product) (ps' : list Product) :
  mutate_next c f ps = Ok (p, ps') ->
  mutate_next c f (ps ++ extra) = Ok (p, ps' ++ extra).
Proof.
  revert ps'. induction ps as [|a ps IH]; simpl; intros ps' H; [discriminate|].
  destruct (pid a =? c).
  - now inversion H.
  - destruct (mutate_next c f ps) as [[p0 r]|] eqn:E; simpl in H; [|discriminate].
    inversion H; subst. now rewrite (IH r eq_refl).
Qed.

(** ** The invariant under a mutation of one product *)

Lemma InvC_replace ps q f c n p p' q' f' c' :
  InvC ps q f c n ->
  In p ps -> pid p' = pid p ->
  wf_product p' ->
  (settled p = true -> settled p' = true) ->
  (state p' = processing_ws2 <-> c' = Some (pid p)) ->
  (forall k, k <> pid p -> (c' = Some k <-> c = Some k)) ->
  (In (pid p) q' -> state p' = in_queue_ws2) ->
  (forall k, In k q' -> In k q \/ k = pid p) ->
  NoDup q' ->
  (In (pid p) f' -> state p' = finished) ->
  (forall k, In k f' -> In k f \/ k = pid p) ->
  NoDup f' ->
  InvC (replace p' ps) q' f' c' n.
Proof.
  intros [ND L S C QI QN FI FN] Hp E W HS HP HC HQ HQ' NQ HF HF' NF.
  assert (Lp : linked q f c n p) by (rewrite Forall_forall in L; auto).
  constructor; try assumption; rewrite ?map_pid_replace; try assumption.
  - rewrite Forall_forall. intros r' Hr'. unfold replace in Hr'.
    apply in_map_iff in Hr' as (r & <- & Hr).
    destruct (Z.eqb_spec (pid r) (pid p')) as [Er|NEr].
    + destruct Lp as (_ & _ & _ & Hn & _).
      unfold linked. rewrite E. tauto.
    + rewrite E in NEr.
      rewrite Forall_forall in L. destruct (L r Hr) as (L1 & L2 & L3 & L4 & L5).
      split; [|split; [|split; [|split]]]; auto.
      * rewrite (HC _ NEr). exact L1.
      * intros H. apply L2. destruct (HQ' _ H); tauto.
      * intros H. apply L3. destruct (HF' _ H); tauto.
  - unfold replace. rewrite removelast_map. rewrite Forall_forall.
    intros r' Hr'. apply in_map_iff in Hr' as (r & <- & Hr).
    rewrite Forall_forall in S. specialize (S r Hr).
    destruct (Z.eqb_spec (pid r) (pid p')) as [Er|NEr]; [|assumption].
    apply HS. apply in_removelast in Hr.
    assert (r = p) by (eapply pid_inj; eauto; congruence). now subst.
  - intros k Hk. destruct (Z.eq_dec k (pid p)) as [->|NE].
    + now apply in_map.
    + apply C. now apply HC.
  - intros k Hk. destruct (HQ' k Hk) as [H| ->]; [now apply QI | now apply in_map].
  - intros k Hk. destruct (HF' k Hk) as [H| ->]; [now apply FI | now apply in_map].
Qed.

(** ** The loop over the products *)

Lemma settled_state (p : Product) :
  settled p = true <->
  state p = in_queue_ws2 \/ state p = processing_ws2 \/ state p = finished.
Proof.
  unfold settled. destruct (state p); split; intros H; try reflexivity;
    try discriminate; try tauto;
    destruct H as [H|[H|H]]; discriminate.
Qed.

Lemma advance_product_settled t p q :
  settled p = true -> advance_product t p q = Ok (p, q).
Proof.
  unfold settled, advance_product. destruct (state p) eqn:E; intros H;
    try discriminate; simpl; rewrite E; reflexivity.
Qed.

Lemma advance_products_settled t ps q :
  Forall (fun p => settled p = true) ps -> advance_products t ps q = Ok (ps, q).
Proof.
  induction 1 as [|p ps Hp _ IH]; simpl; [reflexivity|].
  rewrite (advance_product_settled t p q Hp). simpl. now rewrite IH.
Qed.

Lemma advance_products_app t ps1 ps2 q :
  advance_products t (ps1 ++ ps2) q =
  (r1 <- advance_products t ps1 q ;;
   r2 <- advance_products t ps2 (snd r1) ;;
   Ok (fst r1 ++ fst r2, snd r2)).
Proof.
  revert q. induction ps1 as [|p ps1 IH]; intros q; simpl.
  - destruct (advance_products t ps2 q) as [[a b]|]; reflexivity.
  - destruct (advance_product t p q) as [[p' q']|]; simpl; [|reflexivity].
    rewrite IH.
    destruct (advance_products t ps1 q') as [[a b]|]; simpl; [|reflexivity].
    destruct (advance_products t ps2 b) as [[a' b']|]; reflexivity.
Qed.

(** One product, one iteration: the possible transitions. *)
Lemma advance_product_spec t p q :
  wf_product p ->
  exists p' a,
    advance_product t p q = Ok (p', q ++ a) /\
    pid p' = pid p /\ wf_product p' /\
    ((p' = p /\ a = []) \/
     (state p = producing_ws1 /\ a = [] /\ state p' = transferring) \/
     (state p = transferring /\ a = [] /\ state p' = transferring) \/
     (state p = transferring /\ a = [pid p] /\ state p' = in_queue_ws2)).
Proof.
  intros (Wt & Ws & Wx & Wy & W).
  destruct W as [W|[W|(W & Wtx & Wty)]].
  - (* producing *)
    unfold advance_product. rewrite W. simpl.
    destruct (t_prod_start p) as [st|] eqn:Est; [|congruence]. simpl.
    destruct (fge t (st + float_of_int (prod_time p)) && is_None (t_prod_done p)).
    + simpl. rewrite Wt. simpl.
      eexists _, []. rewrite app_nil_r. split; [reflexivity|].
      split; [reflexivity|]. split.
      * unfold wf_product; simpl. rewrite Est. repeat split; auto; try congruence.
        right; right. repeat split; congruence.
      * right; left. auto.
    + simpl. rewrite W. simpl.
      exists p, []. rewrite app_nil_r. repeat split; auto.
      unfold wf_product. rewrite Est. repeat split; auto; congruence.
  - (* settled *)
    exists p, []. rewrite app_nil_r, advance_product_settled by assumption.
    unfold wf_product. repeat split; auto.
  - (* transferring *)
    unfold advance_product. rewrite W. simpl. rewrite W. simpl.
    destruct (target_x p) as [tx|] eqn:Etx; [|congruence].
    destruct (target_y p) as [ty|] eqn:Ety; [|congruence].
    destruct (x p) as [x0|] eqn:Ex; [|congruence].
    destruct (y p) as [y0|] eqn:Ey; [|congruence]. simpl.
    match goal with |- context [if ?b then _ else _] => destruct b end.
    + eexists _, [pid p]. split; [reflexivity|]. split; [reflexivity|]. split.
      * unfold wf_product; simpl.
        split; [assumption|]. split; [assumption|].
        split; [discriminate|]. split; [discriminate|]. right; left; reflexivity.
      * right; right; right. auto.
    + eexists _, []. rewrite app_nil_r. split; [reflexivity|].
      split; [reflexivity|]. split.
      * unfold wf_product; simpl.
        split; [assumption|]. split; [assumption|].
        split; [discriminate|]. split; [discriminate|].
        right; right. rewrite Etx, Ety. repeat split; auto.
      * right; right; left. auto.
Qed.

(** Under the invariant only the last product can move: the loop is a
    [replace] of the last product. *)
Lemma advance_products_spec t ps q f c n :
  InvC ps q f c n ->
  (ps = [] /\ advance_products t ps q = Ok ([], q)) \/
  exists l l' a,
    last_product ps = Some l /\ In l ps /\
    advance_products t ps q = Ok (replace l' ps, q ++ a) /\
    pid l' = pid l /\ wf_product l' /\
    ((l' = l /\ a = []) \/
     (state l = producing_ws1 /\ a = [] /\ state l' = transferring) \/
     (state l = transferring /\ a = [] /\ state l' = transferring) \/
     (state l = transferring /\ a = [pid l] /\ state l' = in_queue_ws2)).
Proof.
  intros I. destruct (snoc_cases ps) as [->|(front & l & ->)]; [now left|right].
  pose proof (inv_settled _ _ _ _ _ I) as S. rewrite removelast_last in S.
  pose proof (inv_linked _ _ _ _ _ I) as L. rewrite Forall_forall in L.
  assert (Hl : In l (front ++ [l])) by (apply in_or_app; right; now left).
  destruct (L l Hl) as (_ & _ & _ & _ & W).
  destruct (advance_product_spec t l q W) as (l' & a & Ha & Hpid & W' & Hc).
  exists l, l', a. split; [apply last_product_snoc|]. split; [assumption|].
  split; [|auto].
  rewrite advance_products_app, (advance_products_settled t front q S).
  simpl. rewrite Ha. simpl.
  rewrite replace_snoc; auto. exact (inv_pids _ _ _ _ _ I).
Qed.

Lemma production_and_transfer_Inv s :
  Inv s -> exists s', production_and_transfer s = Ok s' /\ Inv s'.
Proof.
  intros I. unfold production_and_transfer.
  destruct (advance_products_spec (now s) _ _ _ _ _ I)
    as [(E & ->)|(l & l' & a & _ & Hl & -> & Hpid & W' & Hc)].
  - simpl. eexists; split; [reflexivity|]. unfold Inv in *; simpl.
    now rewrite E in I.
  - simpl. eexists; split; [reflexivity|]. unfold Inv in *; simpl.
    pose proof (inv_linked _ _ _ _ _ I) as L. rewrite Forall_forall in L.
    destruct (L l Hl) as (L1 & L2 & L3 & _ & _).
    assert (NS : forall st, state l = st -> settled l = true ->
                            st = producing_ws1 \/ st = transferring -> False).
    { intros st E HS [->| ->]; apply settled_state in HS;
        destruct HS as [H|[H|H]]; congruence. }
    apply (InvC_replace _ _ _ _ _ l l' _ _ _ I); auto.
    + intros HS. destruct Hc as [(-> & _)|[(E & _)|[(E & _)|(E & _)]]]; auto;
        exfalso; eapply NS; eauto.
    + destruct Hc as [(-> & _)|[(E & _ & E')|[(E & _ & E')|(E & _ & E')]]]; auto;
        rewrite <- L1, E, E'; split; discriminate.
    + tauto.
    + intros H. apply in_app_or in H.
      destruct Hc as [(-> & ->)|[(E & -> & E')|[(E & -> & E')|(E & -> & E')]]];
        auto; destruct H as [H|H]; try contradiction; try (apply L2 in H; congruence).
    + intros k H. apply in_app_or in H. destruct H as [H|H]; [now left|].
      destruct Hc as [(_ & ->)|[(_ & -> & _)|[(_ & -> & _)|(_ & -> & _)]]];
        simpl in H; try contradiction. destruct H as [<-|[]]. now right.
    + destruct Hc as [(_ & ->)|[(_ & -> & _)|[(_ & -> & _)|(E & -> & _)]]];
        rewrite ?app_nil_r; try exact (inv_queue_nodup _ _ _ _ _ I).
      apply NoDup_app; [exact (inv_queue_nodup _ _ _ _ _ I) | repeat constructor; simpl; tauto |].
      intros k Hk [<-|[]]. apply L2 in Hk. congruence.
    + intros H. destruct Hc as [(-> & _)|[(E & _)|[(E & _)|(E & _)]]]; auto;
        apply L3 in H; congruence.
    + exact (inv_finished_nodup _ _ _ _ _ I).
Qed.

(** ** WS2: completion and start *)

Lemma linked_in ps q f c n p :
  InvC ps q f c n -> In p ps -> linked q f c n p.
Proof.
  intros I H. pose proof (inv_linked _ _ _ _ _ I) as L.
  rewrite Forall_forall in L. auto.
Qed.

(** The completion check either leaves the state alone or finishes the
    product that is in WS2. *)
Lemma ws2_completion_spec s :
  Inv s ->
  (ws2_completion s = Ok s /\
   (ws2_current_id s = None \/ fge (now s) (ws2_busy_until s) = false)) \/
  exists p,
    In p (products s) /\ ws2_current_id s = Some (pid p) /\
    state p = processing_ws2 /\ fge (now s) (ws2_busy_until s) = true /\
    ws2_completion s =
    Ok (set_ws2_current_id None
          (set_finished_ids (finished_ids s ++ [pid p])
             (set_products
                (replace (set_state finished
                            (set_t_proc_done (ws2_busy_until s) p))
                         (products s)) s))).
Proof.
  intros I. unfold ws2_completion.
  destruct (ws2_current_id s) as [c|] eqn:Ec; [|left; auto].
  set (done := fge (now s) (ws2_busy_until s)).
  set (fn := fun p => if done then _ else p).
  destruct (mutate_next_replace c fn (products s)) as (p & Hp & Hc & ->).
  - exact (inv_pids _ _ _ _ _ I).
  - unfold Inv in I. rewrite Ec in I. exact (inv_current _ _ _ _ _ I c eq_refl).
  - intros p. unfold fn. destruct done; reflexivity.
  - simpl. destruct done eqn:Ed; [right|left; auto].
    exists p. subst c. repeat split; auto.
    pose proof (linked_in _ _ _ _ _ p I Hp) as (L1 & _). apply L1. assumption.
Qed.

Lemma ws2_completion_Inv s :
  Inv s -> exists s', ws2_completion s = Ok s' /\ Inv s'.
Proof.
  intros I. destruct (ws2_completion_spec s I)
    as [(-> & _)|(p & Hp & Hc & Hs & _ & ->)]; [eauto|].
  eexists; split; [reflexivity|]. unfold Inv in *; simpl.
  destruct (linked_in _ _ _ _ _ p I Hp) as (L1 & L2 & L3 & _ & W).
  apply (InvC_replace _ _ _ _ _ p _ _ _ _ I Hp).
  - reflexivity.
  - destruct W as (W1 & W2 & W3 & W4 & _). unfold wf_product; simpl.
    repeat split; auto.
  - reflexivity.
  - simpl. split; discriminate.
  - intros k Hk. rewrite Hc. split; [discriminate|]. intros H; inversion H; congruence.
  - intros H. apply L2 in H. congruence.
  - auto.
  - exact (inv_queue_nodup _ _ _ _ _ I).
  - reflexivity.
  - intros k Hk. apply in_app_or in Hk. simpl in Hk.
    destruct Hk as [H|[<-|[]]]; auto.
  - apply NoDup_app; [exact (inv_finished_nodup _ _ _ _ _ I) | repeat constructor; simpl; tauto |].
    intros k Hk [<-|[]]. apply L3 in Hk. congruence.
Qed.

(** [_try_start_ws2] either leaves the state alone or moves the head of the
    queue into WS2. *)
Lemma try_start_ws2_spec s :
  Inv s ->
  (_try_start_ws2 s = Ok s /\ popped s = [] /\
   (ws2_current_id s <> None \/ queue_ws2 s = [])) \/
  exists p rest,
    In p (products s) /\ ws2_current_id s = None /\
    queue_ws2 s = pid p :: rest /\ popped s = [pid p] /\
    state p = in_queue_ws2 /\
    _try_start_ws2 s =
    Ok (set_ws2_busy_until (now s + float_of_int (proc_time p))%float
          (set_ws2_current_id (Some (pid p))
             (set_products
                (replace (set_state processing_ws2
                            (set_t_proc_start (now s) p))
                         (products s))
                (set_queue_ws2 rest s)))).
Proof.
  intros I. unfold _try_start_ws2, popped.
  destruct (ws2_current_id s) as [c|] eqn:Ec.
  { left. repeat split; auto. left; discriminate. }
  destruct (queue_ws2 s) as [|h rest] eqn:Eq.
  { left. repeat split; auto. }
  right. simpl.
  set (fn := fun p => set_state processing_ws2 _).
  destruct (mutate_next_replace h fn (products s)) as (p & Hp & Hh & ->).
  - exact (inv_pids _ _ _ _ _ I).
  - apply (inv_queue_ids _ _ _ _ _ I). rewrite Eq. now left.
  - reflexivity.
  - exists p, rest. subst h. simpl. repeat split; auto.
    destruct (linked_in _ _ _ _ _ p I Hp) as (_ & L2 & _). apply L2.
    rewrite Eq. now left.
Qed.

Lemma try_start_ws2_Inv s :
  Inv s -> exists s', _try_start_ws2 s = Ok s' /\ Inv s'.
Proof.
  intros I. destruct (try_start_ws2_spec s I)
    as [(-> & _)|(p & rest & Hp & Hc & Hq & _ & Hs & ->)]; [eauto|].
  eexists; split; [reflexivity|]. unfold Inv in *; simpl.
  destruct (linked_in _ _ _ _ _ p I Hp) as (L1 & L2 & L3 & _ & W).
  pose proof (inv_queue_nodup _ _ _ _ _ I) as NQ. rewrite Hq in NQ.
  inversion NQ as [|? ? Hnin NQ']; subst.
  apply (InvC_replace _ _ _ _ _ p _ _ _ _ I Hp).
  - reflexivity.
  - destruct W as (W1 & W2 & W3 & W4 & _). unfold wf_product; simpl.
    repeat split; auto.
  - reflexivity.
  - simpl. tauto.
  - intros k Hk. rewrite Hc. split; [|discriminate]. intros H; inversion H; congruence.
  - intros H. contradiction.
  - intros k Hk. left. rewrite Hq. now right.
  - assumption.
  - intros H. apply L3 in H. congruence.
  - auto.
  - exact (inv_finished_nodup _ _ _ _ _ I).
Qed.

(** ** WS1: scheduling *)

Section Scheduling.

Context {RNG : Type} (randint : Z -> Z -> RNG -> Z * RNG).

(** [_schedule_next_ws1] written out: the four draws, the new product and
    the state after the call. *)
Lemma schedule_next_eq (g : RNG) (s : Simulation) :
  exists g' prod setup transfer proc,
    let p := {| pid := next_pid s; prod_time := prod; setup_time := setup;
                transfer_time := transfer; proc_time := proc;
                t_prod_start := Some (now s); t_prod_done := None;
                t_transfer_done := None; t_proc_start := None;
                t_proc_done := None; state := producing_ws1;
                x := Some (fst (center_f WS1_RECT));
                y := Some (snd (center_f WS1_RECT));
                target_x := None; target_y := None |} in
    _schedule_next_ws1 randint (g, s) =
    (g', {| now := now s; speed := speed s; running := running s;
            paused := paused s;
            products := products s ++ [p];
            queue_ws2 := queue_ws2 s; finished_ids := finished_ids s;
            ws1_busy_until :=
              (now s + float_of_int prod + float_of_int setup)%float;
            ws2_busy_until := ws2_busy_until s;
            ws2_current_id := ws2_current_id s;
            next_pid := next_pid s + 1;
            assigned_list :=
              assigned_list s ++ [(next_pid s, prod, transfer, proc)] |}) /\
    prod = fst (randint PROD_MIN PROD_MAX g) /\
    setup = fst (randint SETUP_MIN SETUP_MAX
                   (snd (randint PROD_MIN PROD_MAX g))) /\
    transfer = fst (randint TRANSFER_MIN TRANSFER_MAX
                      (snd (randint SETUP_MIN SETUP_MAX
                              (snd (randint PROD_MIN PROD_MAX g))))) /\
    proc = fst (randint PROC_MIN PROC_MAX
                  (snd (randint TRANSFER_MIN TRANSFER_MAX
                          (snd (randint SETUP_MIN SETUP_MAX
                                  (snd (randint PROD_MIN PROD_MAX g))))))).
Proof.
  unfold _schedule_next_ws1, _rand.
  destruct (randint PROD_MIN PROD_MAX g) as [prod g1]; simpl.
  destruct (randint SETUP_MIN SETUP_MAX g1) as [setup g2]; simpl.
  destruct (randint TRANSFER_MIN TRANSFER_MAX g2) as [transfer g3]; simpl.
  destruct (randint PROC_MIN PROC_MAX g3) as [proc g4]; simpl.
  exists g4, prod, setup, transfer, proc. repeat split; reflexivity.
Qed.

Lemma Forall_settled_all (ps : list Product) (l : Product) :
  Forall (fun p => settled p = true) (removelast ps) ->
  last_product ps = Some l -> settled l = true ->
  Forall (fun p => settled p = true) ps.
Proof.
  intros S Hl Sl. destruct (snoc_cases ps) as [->|(front & a & ->)];
    [constructor|].
  rewrite removelast_last in S. rewrite last_product_snoc in Hl.
  inversion Hl; subst. apply Forall_app; split; auto.
Qed.

Lemma schedule_next_Inv (g : RNG) (s : Simulation) :
  Inv s -> Forall (fun p => settled p = true) (products s) ->
  Inv (snd (_schedule_next_ws1 randint (g, s))).
Proof.
  intros I S.
  destruct (schedule_next_eq g s) as (g' & prod & setup & transfer & proc & E & _).
  cbv zeta in E. rewrite E. clear E. unfold Inv in *; simpl.
  set (p := mkProduct (next_pid s) _ _ _ _ _ _ _ _ _ _ _ _ _ _).
  assert (B : forall k, In k (map pid (products s)) -> k < next_pid s).
  { intros k Hk. apply in_pids in Hk as (r & Hr & <-).
    now destruct (linked_in _ _ _ _ _ r I Hr) as (_ & _ & _ & H & _). }
  constructor.
  - rewrite map_app. simpl. apply NoDup_app.
    + exact (inv_pids _ _ _ _ _ I).
    + repeat constructor. simpl; tauto.
    + intros k Hk [<-|[]]. apply B in Hk. lia.
  - apply Forall_app; split.
    + rewrite Forall_forall. intros r Hr.
      destruct (linked_in _ _ _ _ _ r I Hr) as (L1 & L2 & L3 & L4 & L5).
      repeat split; auto; try tauto; try lia; apply L5.
    + constructor; [|constructor]. unfold linked, wf_product; simpl.
      split; [split; [discriminate|]|].
      { intros H. pose proof (inv_current _ _ _ _ _ I _ H) as Hc.
        apply B in Hc. lia. }
      split.
      { intros H. apply (inv_queue_ids _ _ _ _ _ I) in H. apply B in H. lia. }
      split.
      { intros H. apply (inv_finished_ids _ _ _ _ _ I) in H. apply B in H. lia. }
      split; [lia|].
      repeat (split; [discriminate || reflexivity|]). now left.
  - now rewrite removelast_last.
  - intros k Hk. rewrite map_app. apply in_or_app. left.
    exact (inv_current _ _ _ _ _ I _ Hk).
  - intros k Hk. rewrite map_app. apply in_or_app. left.
    exact (inv_queue_ids _ _ _ _ _ I _ Hk).
  - exact (inv_queue_nodup _ _ _ _ _ I).
  - intros k Hk. rewrite map_app. apply in_or_app. left.
    exact (inv_finished_ids _ _ _ _ _ I _ Hk).
  - exact (inv_finished_nodup _ _ _ _ _ I).
Qed.

(** A product that frees WS1 is settled: between the blocks of [update] no
    product is in state [produced]. *)
Lemma frees_ws1_settled (p : Product) :
  wf_product p -> frees_ws1 (state p) = true -> settled p = true.
Proof.
  intros (_ & _ & _ & _ & [W|[W|(W & _)]]); auto; rewrite W; discriminate.
Qed.

(** The scheduling check either leaves the state alone or schedules one
    product and nudges [ws1_busy_until]. *)
Lemma ws1_schedule_check_cases (g : RNG) (s : Simulation) :
  ws1_schedule_check randint (g, s) = (g, s) \/
  (fge (now s) (ws1_busy_until s) = true /\
   match last_product (products s) with
   | None => True
   | Some l => frees_ws1 (state l) = true
   end /\
   ws1_schedule_check randint (g, s) =
   (fst (_schedule_next_ws1 randint (g, s)),
    set_ws1_busy_until
      (ws1_busy_until (snd (_schedule_next_ws1 randint (g, s))) + 1e-6)%float
      (snd (_schedule_next_ws1 randint (g, s))))).
Proof.
  unfold ws1_schedule_check.
  destruct (fge (now s) (ws1_busy_until s)); [|now left].
  destruct (last_product (products s)) as [l|].
  - destruct (frees_ws1 (state l)); [right|now left].
    destruct (_schedule_next_ws1 randint (g, s)); auto.
  - right. destruct (_schedule_next_ws1 randint (g, s)); auto.
Qed.

Lemma ws1_schedule_check_Inv (g : RNG) (s : Simulation) :
  Inv s -> Inv (snd (ws1_schedule_check randint (g, s))).
Proof.
  intros I. destruct (ws1_schedule_check_cases g s) as [->|(_ & Hl & ->)];
    [assumption|].
  simpl. change (Inv (snd (_schedule_next_ws1 randint (g, s)))).
  apply schedule_next_Inv; [assumption|].
  destruct (last_product (products s)) as [l|] eqn:El.
  - eapply Forall_settled_all; eauto. exact (inv_settled _ _ _ _ _ I).
    apply frees_ws1_settled; auto.
    assert (In l (products s)).
    { destruct (snoc_cases (products s)) as [E|(front & a & E)]; rewrite E in *.
      - discriminate.
      - rewrite last_product_snoc in El. inversion El; subst.
        apply in_or_app; right; now left. }
    now destruct (linked_in _ _ _ _ _ l I H) as (_ & _ & _ & _ & W).
  - destruct (snoc_cases (products s)) as [->|(front & a & E)]; [constructor|].
    rewrite E, last_product_snoc in El. discriminate.
Qed.

Lemma blank_Inv : Inv blank.
Proof.
  constructor; simpl; try constructor; try (intros ? H; inversion H).
Qed.

Lemma reset_Inv (g : RNG) : Inv (snd (reset randint g)).
Proof. apply schedule_next_Inv; [apply blank_Inv | constructor]. Qed.

(** Every tick from a state that satisfies the invariant returns normally,
    in a state that satisfies it. *)
Lemma update_Inv (dt : float) (g : RNG) (s : Simulation) :
  Inv s -> exists w', update randint dt (g, s) = Ok w' /\ Inv (snd w').
Proof.
  intros I. unfold update.
  destruct (negb (running s) || paused s); [eauto|].
  set (s1 := set_now _ s).
  assert (I1 : Inv s1) by exact I.
  destruct (production_and_transfer_Inv s1 I1) as (s2 & -> & I2). cbn [bind].
  pose proof (ws1_schedule_check_Inv g s2 I2) as I3.
  destruct (ws1_schedule_check randint (g, s2)) as [g3 s3]. simpl in I3.
  destruct (ws2_completion_Inv s3 I3) as (s4 & -> & I4). cbn [bind].
  destruct (try_start_ws2_Inv s4 I4) as (s5 & -> & I5). cbn [bind].
  eauto.
Qed.

Lemma apply_op_Inv (o : Op) (w w' : World RNG) :
  Inv (snd w) -> apply_op randint o w = Ok w' -> Inv (snd w').
Proof.
  destruct w as [g s]. intros I H. destruct o; cbn [apply_op fst snd] in H.
  - destruct (update_Inv dt_real_seconds g s I) as (w2 & E & I2).
    rewrite E in H. inversion H; subst. exact I2.
  - inversion H; subst. exact I.
  - inversion H; subst. exact I.
  - inversion H; subst. exact I.
  - inversion H; subst. apply reset_Inv.
  - inversion H; subst. exact I.
Qed.

Lemma reachable_Inv (w : World RNG) : reachable randint w -> Inv (snd w).
Proof.
  induction 1 as [g|w o w' _ IH H]; [apply reset_Inv | eauto using apply_op_Inv].
Qed.

End Scheduling.

(** ** Executions and reachability *)

Section Executions.

Context {RNG : Type} (randint : Z -> Z -> RNG -> Z * RNG).

Lemma reachable_run (ops : list Op) (w w' : World RNG) :
  reachable randint w -> run randint ops w = Ok w' -> reachable randint w'.
Proof.
  revert w. induction ops as [|o ops IH]; simpl; intros w R H.
  - now inversion H; subst.
  - destruct (apply_op randint o w) as [w1|] eqn:E; simpl in H; [|discriminate].
    eapply IH; [|eassumption]. eapply reachable_step; eauto.
Qed.

Lemma ui_reachable_reachable (w : World RNG) :
  ui_reachable randint w -> reachable randint w.
Proof.
  induction 1 as [g|w e _ IH|w dt w' _ IH H].
  - apply reachable_reset.
  - apply reachable_step with (w := w) (o := op_of_event e); [assumption|].
    destruct w as [g s]. destruct e; reflexivity.
  - apply reachable_step with (w := w) (o := OpTick dt); assumption.
Qed.

End Executions.

Lemma demo_world_run :
  run lcg_randint demo_ops (reset lcg_randint 7) = Ok demo_world.
Proof. vm_compute. reflexivity. Qed.

Lemma demo_world_reachable : reachable lcg_randint demo_world.
Proof.
  exact (reachable_run lcg_randint demo_ops _ _
           (reachable_reset lcg_randint 7) demo_world_run).
Defined.

Lemma lcg_randint_contract : randint_contract lcg_randint.
Proof.
  intros lo hi g H. unfold lcg_randint. simpl.
  pose proof (Z.mod_pos_bound g (hi - lo + 1)). lia.
Qed.

(** ** Single occupancy of the workshops *)

Lemma count_state_settled st ps :
  Forall (fun p => settled p = true) ps ->
  st = producing_ws1 -> count_state st ps = 0%nat.
Proof.
  intros H ->. unfold count_state. induction H as [|p ps Hp _ IH]; simpl; auto.
  unfold settled in Hp. destruct (state p); simpl; try discriminate; exact IH.
Qed.

Lemma filter_unique_pid (P : Product -> bool) (k : Z) (ps : list Product) :
  NoDup (map pid ps) ->
  (forall p, In p ps -> P p = true -> pid p = k) ->
  (length (filter P ps) <= 1)%nat.
Proof.
  induction ps as [|a ps IH]; simpl; intros ND H; [lia|].
  inversion ND as [|? ? Hnin ND']; subst.
  destruct (P a) eqn:Pa; [|apply IH; auto].
  assert (E : filter P ps = []).
  { destruct (filter P ps) as [|r rs] eqn:E; [reflexivity|exfalso].
    assert (Hr : In r (filter P ps)) by (rewrite E; now left).
    apply filter_In in Hr as (Hr & Pr).
    apply Hnin. rewrite (H a (or_introl eq_refl) Pa), <- (H r (or_intror Hr) Pr).
    now apply in_map. }
  rewrite E. simpl. lia.
Qed.

Lemma Inv_single_occupancy (s : Simulation) :
  Inv s ->
  (count_state producing_ws1 (products s) <= 1)%nat /\
  (count_state processing_ws2 (products s) <= 1)%nat.
Proof.
  intros I. split.
  - pose proof (inv_settled _ _ _ _ _ I) as S.
    destruct (snoc_cases (products s)) as [->|(front & l & E)];
      [unfold count_state; simpl; lia|].
    rewrite E in *. rewrite removelast_last in S.
    unfold count_state. rewrite filter_app, length_app.
    fold (count_state producing_ws1 front).
    rewrite (count_state_settled _ _ S eq_refl). simpl.
    destruct (state_eqb (state l) producing_ws1); simpl; lia.
  - unfold count_state.
    destruct (ws2_current_id s) as [c|] eqn:Ec.
    + apply (filter_unique_pid _ c); [exact (inv_pids _ _ _ _ _ I)|].
      intros p Hp Hs. apply state_eqb_eq in Hs.
      destruct (linked_in _ _ _ _ _ p I Hp) as (L1 & _).
      apply L1 in Hs. congruence.
    + apply (filter_unique_pid _ 0); [exact (inv_pids _ _ _ _ _ I)|].
      intros p Hp Hs. apply state_eqb_eq in Hs.
      destruct (linked_in _ _ _ _ _ p I Hp) as (L1 & _).
      apply L1 in Hs. congruence.
Qed.

(** C1. In every state reachable from [reset] by ticks and control
    operations at most one product is [producing_ws1] and at most one is
    [processing_ws2]; the scheduling check of [update] changes the state
    only when [now >= ws1_busy_until] and the most recent product, if any,
    is in one of the states that free WS1 (so it is neither waiting nor
    producing); the one other scheduling, in [reset], happens at time 0 =
    [ws1_busy_until] with no product yet; [_try_start_ws2] changes the
    state only when [ws2_current_id] is [None]. *)
Theorem single_occupancy {RNG : Type} (randint : Z -> Z -> RNG -> Z * RNG)
        (w : World RNG) :
  reachable randint w ->
  (count_state producing_ws1 (products (snd w)) <= 1)%nat /\
  (count_state processing_ws2 (products (snd w)) <= 1)%nat /\
  (forall g s,
      ws1_schedule_check randint (g, s) <> (g, s) ->
      fge (now s) (ws1_busy_until s) = true /\
      forall l, last_product (products s) = Some l ->
                frees_ws1 (state l) = true /\
                state l <> producing_ws1 /\ state l <> waiting_ws1) /\
  (forall g, reset randint g = _schedule_next_ws1 randint (g, blank) /\
             fge (now blank) (ws1_busy_until blank) = true /\
             products blank = []) /\
  (forall s, _try_start_ws2 s <> Ok s -> ws2_current_id s = None).
Proof.
  intros R. apply reachable_Inv in R.
  destruct (Inv_single_occupancy _ R) as (H1 & H2).
  split; [exact H1|]. split; [exact H2|]. split; [|split].
  - intros g s H.
    destruct (ws1_schedule_check_cases randint g s) as [E|(Hb & Hl & _)];
      [contradiction|].
    split; [exact Hb|]. intros l El. rewrite El in Hl.
    split; [exact Hl|]. destruct (state l); simpl in Hl; split; discriminate.
  - intros g. repeat split.
  - intros s H. unfold _try_start_ws2 in H.
    destruct (ws2_current_id s); [contradiction | reflexivity].
Qed.

Lemma single_occupancy_witness :
  (count_state producing_ws1 (products (snd demo_world)) <= 1)%nat /\
  (count_state processing_ws2 (products (snd demo_world)) <= 1)%nat.
Proof.
  pose proof (single_occupancy lcg_randint demo_world demo_world_reachable)
    as (H1 & H2 & _).
  split; [exact H1 | exact H2].
Defined.

(** ** The tick while stopped or paused *)

Lemma update_idle {RNG : Type} (randint : Z -> Z -> RNG -> Z * RNG)
      (dt : float) (g : RNG) (s : Simulation) :
  running s = false \/ paused s = true ->
  update randint dt (g, s) = Ok (g, s).
Proof.
  intros H. unfold update.
  destruct H as [-> | ->]; [reflexivity|].
  now rewrite orb_true_r.
Qed.

(** C2. For every state and every elapsed time, if [running] is false or
    [paused] is true then [update] returns with the state unchanged: time,
    products with their timestamps and states, queue, finished ids,
    assignment log and counters (and the random stream) are the ones
    before the call. *)
Theorem update_paused_noop {RNG : Type} (randint : Z -> Z -> RNG -> Z * RNG)
        (dt : float) (g : RNG) (s : Simulation) :
  running s = false \/ paused s = true ->
  update randint dt (g, s) = Ok (g, s).
Proof. exact (update_idle randint dt g s). Qed.

Lemma update_paused_noop_witness :
  update lcg_randint 10000 (fst demo_world, pause (snd demo_world)) =
  Ok (fst demo_world, pause (snd demo_world)).
Proof.
  apply (update_paused_noop lcg_randint 10000 (fst demo_world)
           (pause (snd demo_world))).
  right. reflexivity.
Defined.

(** ** After [reset] *)

Section AfterReset.

Context {RNG : Type} (randint : Z -> Z -> RNG -> Z * RNG).

Lemma reset_idle (g : RNG) : idle (snd (reset randint g)).
Proof.
  unfold reset.
  destruct (schedule_next_eq randint g blank)
    as (g' & prod & setup & transfer & proc & E & _).
  cbv zeta in E. rewrite E. simpl. repeat split.
  eexists. repeat split.
Qed.

Lemma idle_step (o : Op) (w : World RNG) :
  idle (snd w) -> o <> OpStart -> o <> OpToggle ->
  exists w', apply_op randint o w = Ok w' /\ idle (snd w').
Proof.
  intros I H1 H2. destruct w as [g s].
  pose proof I as (Hr & Hp & Hn & Hps).
  cbn [fst snd] in *. destruct o; try contradiction; cbn [apply_op fst snd].
  - exists (g, s). split; [|exact I].
    apply update_idle. now left.
  - eexists; split; [reflexivity|]. unfold idle; simpl; auto.
  - eexists; split; [reflexivity|]. apply reset_idle.
  - eexists; split; [reflexivity|]. unfold idle; simpl; auto.
Qed.

Lemma run_ticks_idle (dts : list float) (w : World RNG) :
  running (snd w) = false \/ paused (snd w) = true ->
  run randint (map OpTick dts) w = Ok w.
Proof.
  intros H. induction dts as [|dt dts IH]; simpl; [reflexivity|].
  destruct w as [g s]. cbn [fst snd] in H.
  rewrite (update_idle randint dt g s H).
  simpl. exact IH.
Qed.

End AfterReset.

(** C10. [reset] (hence construction) leaves [running] false and [paused]
    true, so every sequence of ticks right after it returns the state
    [reset] built; more generally every sequence of operations that
    contains neither [start] nor the resume toggle runs normally and ends
    in a state in which every tick is a no-op, simulated time is still zero
    and the only product is the one of the last [reset], still in
    [producing_ws1] with its production not done. *)
Theorem reset_is_paused {RNG : Type} (randint : Z -> Z -> RNG -> Z * RNG)
        (g : RNG) (ops : list Op) :
  Forall (fun o => o <> OpStart /\ o <> OpToggle) ops ->
  running (snd (reset randint g)) = false /\
  paused (snd (reset randint g)) = true /\
  (forall dts, run randint (map OpTick dts) (reset randint g) =
               Ok (reset randint g)) /\
  exists w,
    run randint ops (reset randint g) = Ok w /\
    (forall dt, update randint dt w = Ok w) /\
    now (snd w) = 0%float /\
    exists p, products (snd w) = [p] /\ state p = producing_ws1 /\
              t_prod_start p = Some 0%float /\ t_prod_done p = None.
Proof.
  intros H.
  pose proof (reset_idle randint g) as I0.
  pose proof I0 as (R1 & R2 & _).
  split; [exact R1|]. split; [exact R2|]. split.
  { intros dts. apply run_ticks_idle. now left. }
  assert (G : forall w0, idle (snd w0) ->
              exists w, run randint ops w0 = Ok w /\ idle (snd w)).
  { induction H as [|o ops (Ho1 & Ho2) _ IH]; intros w0 Hw0; simpl.
    - eauto.
    - destruct (idle_step randint o w0 Hw0 Ho1 Ho2) as (w1 & -> & Hw1).
      simpl. apply IH. exact Hw1. }
  destruct (G _ I0) as (w & Hrun & Hr & Hp & Hn & p & Hps & Hst & _ & Hts & Htd).
  exists w. split; [exact Hrun|]. split.
  - intros dt. destruct w as [g1 s1]. apply update_idle. now left.
  - split; [exact Hn|]. exists p. auto.
Qed.

Lemma reset_is_paused_witness :
  exists w,
    run lcg_randint [OpTick 10000; OpSetSpeed 20; OpPause; OpTick 5]
        (reset lcg_randint 7) = Ok w /\
    now (snd w) = 0%float.
Proof.
  destruct (reset_is_paused lcg_randint 7
              [OpTick 10000; OpSetSpeed 20; OpPause; OpTick 5])
    as (_ & _ & _ & w & Hrun & _ & Hn & _).
  - repeat constructor; discriminate.
  - exists w. split; [exact Hrun | exact Hn].
Defined.

(** ** The contract of [_schedule_next_ws1] *)

(** C6. [_schedule_next_ws1] on a state with time [now] creates exactly
    one product: its id is the [next_pid] before the call, which the call
    increments by one; its production start is [now], its state
    [producing_ws1], its position the centre of WS1; its durations lie in
    the configured inclusive ranges: production 65..85, setup 5..15,
    transfer 5..11, processing 30..45; the product is appended to the
    product list, [(id, prod, transfer, proc)] to the assignment log, and
    [ws1_busy_until] becomes [now + prod + setup].  Nothing else
    changes. *)
Theorem schedule_next_contract {RNG : Type}
        (randint : Z -> Z -> RNG -> Z * RNG) (g : RNG) (s : Simulation) :
  randint_contract randint ->
  exists g' s' p,
    _schedule_next_ws1 randint (g, s) = (g', s') /\
    products s' = products s ++ [p] /\
    pid p = next_pid s /\ next_pid s' = next_pid s + 1 /\
    t_prod_start p = Some (now s) /\ state p = producing_ws1 /\
    x p = Some 730%float /\ y p = Some 250%float /\
    65 <= prod_time p <= 85 /\ 5 <= setup_time p <= 15 /\
    5 <= transfer_time p <= 11 /\ 30 <= proc_time p <= 45 /\
    assigned_list s' =
      assigned_list s ++ [(pid p, prod_time p, transfer_time p, proc_time p)] /\
    ws1_busy_until s' =
      (now s + float_of_int (prod_time p) + float_of_int (setup_time p))%float /\
    now s' = now s /\ speed s' = speed s /\
    running s' = running s /\ paused s' = paused s /\
    queue_ws2 s' = queue_ws2 s /\ finished_ids s' = finished_ids s /\
    ws2_busy_until s' = ws2_busy_until s /\
    ws2_current_id s' = ws2_current_id s.
Proof.
  intros C.
  destruct (schedule_next_eq randint g s)
    as (g' & prod & setup & transfer & proc & E & E1 & E2 & E3 & E4).
  cbv zeta in E. rewrite E. eexists _, _, _. split; [reflexivity|]. simpl.
  repeat (split; [reflexivity|]).
  split; [subst prod; apply C; discriminate|].
  split; [subst setup; apply C; discriminate|].
  split; [subst transfer; apply C; discriminate|].
  split; [subst proc; apply C; discriminate|].
  repeat split.
Qed.

Lemma schedule_next_contract_witness :
  exists g' s' p,
    _schedule_next_ws1 lcg_randint (fst demo_world, snd demo_world) = (g', s') /\
    products s' = products (snd demo_world) ++ [p] /\
    pid p = next_pid (snd demo_world) /\
    65 <= prod_time p <= 85.
Proof.
  destruct (schedule_next_contract lcg_randint (fst demo_world) (snd demo_world)
              lcg_randint_contract)
    as (g' & s' & p & H1 & H2 & H3 & _ & _ & _ & _ & _ & H4 & _).
  exists g', s', p. repeat split; try assumption; apply H4.
Defined.

(** ** Frames of the four blocks *)

Lemma production_and_transfer_frame s s' :
  production_and_transfer s = Ok s' ->
  now s' = now s /\ speed s' = speed s /\ running s' = running s /\
  paused s' = paused s /\ finished_ids s' = finished_ids s /\
  ws1_busy_until s' = ws1_busy_until s /\
  ws2_busy_until s' = ws2_busy_until s /\
  ws2_current_id s' = ws2_current_id s /\ next_pid s' = next_pid s /\
  assigned_list s' = assigned_list s.
Proof.
  unfold production_and_transfer.
  destruct (advance_products _ _ _) as [r|]; simpl; intros H;
    inversion H; subst; simpl; repeat split.
Qed.

Lemma ws1_schedule_check_frame {RNG : Type}
      (randint : Z -> Z -> RNG -> Z * RNG) g s :
  let s' := snd (ws1_schedule_check randint (g, s)) in
  now s' = now s /\ speed s' = speed s /\ running s' = running s /\
  paused s' = paused s /\ queue_ws2 s' = queue_ws2 s /\
  finished_ids s' = finished_ids s /\
  ws2_busy_until s' = ws2_busy_until s /\
  ws2_current_id s' = ws2_current_id s.
Proof.
  destruct (ws1_schedule_check_cases randint g s) as [->|(_ & _ & ->)];
    [simpl; repeat split|].
  destruct (schedule_next_eq randint g s)
    as (g' & prod & setup & transfer & proc & E & _).
  cbv zeta in E. rewrite E. simpl. repeat split.
Qed.

Lemma ws2_completion_frame s s' :
  ws2_completion s = Ok s' ->
  now s' = now s /\ speed s' = speed s /\ running s' = running s /\
  paused s' = paused s /\ queue_ws2 s' = queue_ws2 s /\
  ws1_busy_until s' = ws1_busy_until s /\
  ws2_busy_until s' = ws2_busy_until s /\ next_pid s' = next_pid s /\
  assigned_list s' = assigned_list s.
Proof.
  unfold ws2_completion. destruct (ws2_current_id s).
  - destruct (mutate_next _ _ _) as [r|]; simpl; [|discriminate].
    destruct (fge (now s) (ws2_busy_until s)); intros H; inversion H; subst;
      simpl; repeat split.
  - intros H; inversion H; subst; repeat split.
Qed.

Lemma try_start_ws2_frame s s' :
  _try_start_ws2 s = Ok s' ->
  now s' = now s /\ speed s' = speed s /\ running s' = running s /\
  paused s' = paused s /\ finished_ids s' = finished_ids s /\
  ws1_busy_until s' = ws1_busy_until s /\ next_pid s' = next_pid s /\
  assigned_list s' = assigned_list s.
Proof.
  unfold _try_start_ws2. destruct (ws2_current_id s).
  - intros H; inversion H; subst; repeat split.
  - destruct (queue_ws2 s).
    + intros H; inversion H; subst; repeat split.
    + destruct (mutate_next _ _ _) as [r|]; simpl; intros H; inversion H;
        subst; simpl; repeat split.
Qed.

(** The blocks of a running tick, one after the other. *)
Lemma update_running_steps {RNG : Type} (randint : Z -> Z -> RNG -> Z * RNG)
      dt g s w' :
  running s = true -> paused s = false ->
  update randint dt (g, s) = Ok w' ->
  exists s2 s4,
    let s1 := set_now (now s + dt * speed s)%float s in
    let w3 := ws1_schedule_check randint (g, s2) in
    production_and_transfer s1 = Ok s2 /\
    ws2_completion (snd w3) = Ok s4 /\
    _try_start_ws2 s4 = Ok (snd w') /\ fst w' = fst w3.
Proof.
  intros Hr Hp. unfold update. rewrite Hr, Hp. cbn [negb orb].
  destruct (production_and_transfer _) as [s2|]; cbn [bind]; [|discriminate].
  destruct (ws1_schedule_check randint (g, s2)) as [g3 s3] eqn:E3.
  destruct (ws2_completion s3) as [s4|] eqn:E4; cbn [bind]; [|discriminate].
  destruct (_try_start_ws2 s4) as [s5|] eqn:E5; cbn [bind]; [|discriminate].
  intros H; inversion H; subst. exists s2, s4. cbn zeta.
  rewrite E3. simpl. auto.
Qed.

Lemma update_flags {RNG : Type} (randint : Z -> Z -> RNG -> Z * RNG)
      dt w w' :
  update randint dt w = Ok w' ->
  speed (snd w') = speed (snd w) /\ running (snd w') = running (snd w) /\
  paused (snd w') = paused (snd w).
Proof.
  destruct w as [g s]. intros H.
  destruct (running s) eqn:Hr; [destruct (paused s) eqn:Hp|].
  - rewrite update_idle in H by now right. inversion H; subst; simpl; auto.
  - destruct (update_running_steps randint dt g s w' Hr Hp H)
      as (s2 & s4 & H2 & H4 & H5 & _). cbv zeta in *.
    apply production_and_transfer_frame in H2.
    pose proof (ws1_schedule_check_frame randint g s2) as H3. cbv zeta in H3.
    apply ws2_completion_frame in H4. apply try_start_ws2_frame in H5.
    simpl in *.
    destruct H2 as (_ & A2 & B2 & C2 & _), H3 as (_ & A3 & B3 & C3 & _),
             H4 as (_ & A4 & B4 & C4 & _), H5 as (_ & A5 & B5 & C5 & _).
    rewrite A5, A4, A3, A2, B5, B4, B3, B2, C5, C4, C3, C2. simpl. auto.
  - rewrite update_idle in H by now left. inversion H; subst; simpl; auto.
Qed.

(** ** Lookups never fail *)

(** C9. In every reachable state every id in [queue_ws2], and
    [ws2_current_id] when it is not [None], is the id of a product in
    [products]; so the scans of [_try_start_ws2] and of the completion
    check find their product: both blocks, and the whole of [update],
    return normally (no [StopIteration], nor any other exception). *)
Theorem lookups_never_fail {RNG : Type} (randint : Z -> Z -> RNG -> Z * RNG)
        (w : World RNG) :
  reachable randint w ->
  (forall k, In k (queue_ws2 (snd w)) ->
             exists p, In p (products (snd w)) /\ pid p = k) /\
  (forall c, ws2_current_id (snd w) = Some c ->
             exists p, In p (products (snd w)) /\ pid p = c) /\
  (exists s', ws2_completion (snd w) = Ok s') /\
  (exists s', _try_start_ws2 (snd w) = Ok s') /\
  (forall dt, exists w', update randint dt w = Ok w').
Proof.
  intros R. apply reachable_Inv in R. destruct w as [g s]. simpl in *.
  split; [|split; [|split; [|split]]].
  - intros k Hk. apply in_pids. exact (inv_queue_ids _ _ _ _ _ R k Hk).
  - intros c Hc. apply in_pids. exact (inv_current _ _ _ _ _ R c Hc).
  - destruct (ws2_completion_Inv s R) as (s' & H & _). eauto.
  - destruct (try_start_ws2_Inv s R) as (s' & H & _). eauto.
  - intros dt. destruct (update_Inv randint dt g s R) as (w' & H & _). eauto.
Qed.

Lemma lookups_never_fail_witness :
  exists w', update lcg_randint 1 demo_world = Ok w'.
Proof.
  exact (proj2 (proj2 (proj2 (proj2
           (lookups_never_fail lcg_randint demo_world demo_world_reachable))))
           1%float).
Defined.

(** ** The speed multiplier *)

(** The claim that a speed of zero is rejected or clamped fails: the
    assignment stores it, on a state a fresh simulation reaches by one
    control operation, and the stored multiplier is not positive.  The same
    holds for a negative and for an infinite speed. *)
Lemma set_speed_zero_is_stored :
  exists w,
    run lcg_randint [OpSetSpeed 0] (reset lcg_randint 7) = Ok w /\
    speed (snd w) = 0%float /\
    PrimFloat.ltb 0 (speed (snd w)) <> true /\
    speed (set_speed (-3) (snd w)) = (-3)%float /\
    speed (set_speed infinity (snd w)) = infinity.
Proof.
  eexists. split; [reflexivity|]. simpl.
  split; [reflexivity|]. split; [|split; reflexivity].
  vm_compute. discriminate.
Qed.

(** C8, as the code has it.  The speed is set by plain assignment: any
    float is stored as it is, and no other attribute changes; nothing is
    rejected or clamped.  The only guard is in the caller: [main] assigns
    1, 2, 5, 10 or 20 and nothing else, so in every state reached through
    the events of [main] the stored speed is one of these five values. *)
Theorem set_speed_unconditional {RNG : Type}
        (randint : Z -> Z -> RNG -> Z * RNG) :
  (forall v s,
      speed (set_speed v s) = v /\
      set_speed (speed s) (set_speed v s) = s) /\
  (forall w, ui_reachable randint w -> In (speed (snd w)) ui_speeds).
Proof.
  split.
  - intros v s. split; [reflexivity|]. destruct s; reflexivity.
  - intros w R. induction R as [g|w e _ IH|w dt w' _ IH H].
    + unfold reset.
      destruct (schedule_next_eq randint g blank)
        as (g' & prod & setup & transfer & proc & E & _).
      cbv zeta in E. rewrite E. simpl. now left.
    + assert (R0 : forall g0, In (speed (snd (reset randint g0))) ui_speeds).
      { intros g0. unfold reset.
        destruct (schedule_next_eq randint g0 blank)
          as (g' & prod & setup & transfer & proc & E & _).
        cbv zeta in E. rewrite E. simpl. now left. }
      destruct w as [g s]. destruct e; cbn [handle_event]; try apply R0;
        try exact IH; simpl; auto 6.
    + apply update_flags in H. destruct H as (-> & _). exact IH.
Qed.

Lemma set_speed_unconditional_witness :
  In (speed (snd (handle_event lcg_randint K_3 (reset lcg_randint 7))))
     ui_speeds.
Proof.
  apply (proj2 (set_speed_unconditional lcg_randint)).
  apply ui_reachable_event. apply ui_reachable_reset.
Defined.

(** ** One long tick after [reset] *)

(** The claim that one tick of 10000 minutes after [reset] finishes exactly
    one product fails.  With the durations 65, 5, 5, 30 (sum 105) the tick
    right after [reset] finishes none, and neither does the tick after
    [reset] and [start]. *)
Lemma one_long_tick_finishes_nothing :
  65 + 5 + 5 + 30 < 10000 /\
  (exists w,
      run low_randint [OpTick 10000] (reset low_randint tt) = Ok w /\
      speed (snd w) = 1%float /\
      count_state finished (products (snd w)) <> 1%nat) /\
  (exists w,
      run low_randint [OpStart; OpTick 10000] (reset low_randint tt) = Ok w /\
      speed (snd w) = 1%float /\
      count_state finished (products (snd w)) <> 1%nat).
Proof.
  split; [lia|]. split.
  - eexists. split; [vm_compute; reflexivity|]. split; [reflexivity|].
    vm_compute. discriminate.
  - eexists. split; [vm_compute; reflexivity|]. split; [reflexivity|].
    vm_compute. discriminate.
Qed.

Lemma production_done_by_10000 (prod : Z) :
  65 <= prod <= 85 ->
  fge (0 + 10000 * 1)%float (0 + float_of_int prod)%float = true.
Proof.
  intros H.
  assert (A : forallb (fun n => fge (0 + 10000 * 1)%float
                                    (0 + float_of_int (65 + Z.of_nat n))%float)
                      (seq 0 21) = true) by (vm_compute; reflexivity).
  rewrite forallb_forall in A.
  specialize (A (Z.to_nat (prod - 65))).
  replace (65 + Z.of_nat (Z.to_nat (prod - 65))) with prod in A by lia.
  apply A. apply in_seq. lia.
Qed.

(** C7, as the code has it.  After [reset], [start] and one tick of 10000
    simulated minutes at speed 1, no product is finished: the single
    product has completed its production (at time 0 + prod) and is in
    state [transferring], the queue, WS2 and the finished list are empty,
    and the assignment log has exactly one entry.  Without [start] the
    tick changes nothing. *)
Theorem one_long_tick {RNG : Type} (randint : Z -> Z -> RNG -> Z * RNG)
        (g : RNG) :
  randint_contract randint ->
  run randint [OpTick 10000] (reset randint g) = Ok (reset randint g) /\
  exists w p,
    run randint [OpStart; OpTick 10000] (reset randint g) = Ok w /\
    now (snd w) = 10000%float /\
    products (snd w) = [p] /\ state p = transferring /\
    t_prod_done p = Some (0 + float_of_int (prod_time p))%float /\
    count_state finished (products (snd w)) = 0%nat /\
    finished_ids (snd w) = [] /\ queue_ws2 (snd w) = [] /\
    ws2_current_id (snd w) = None /\
    length (assigned_list (snd w)) = 1%nat.
Proof.
  intros C. split.
  { apply (run_ticks_idle randint [10000%float]).
    left. apply (reset_idle randint g). }
  destruct (schedule_next_eq randint g blank)
    as (g' & prod & setup & transfer & proc & E & Eprod & _).
  assert (Hprod : 65 <= prod <= 85) by (subst prod; apply C; discriminate).
  cbv zeta in E. unfold reset. rewrite E. clear E.
  cbn -[float_of_int PrimFloat.add PrimFloat.mul fge].
  unfold production_and_transfer.
  cbn -[float_of_int PrimFloat.add PrimFloat.mul fge advance_product].
  unfold advance_product at 1.
  cbn -[float_of_int PrimFloat.add PrimFloat.mul fge advance_product].
  rewrite (production_done_by_10000 _ Hprod).
  cbn -[float_of_int PrimFloat.add PrimFloat.mul fge].
  match goal with
  | |- context [if fge ?a ?b then _ else _] => destruct (fge a b)
  end;
  cbn -[float_of_int PrimFloat.add PrimFloat.mul fge];
  (eexists _, _; split; [reflexivity|]); simpl;
  repeat split; vm_compute; reflexivity.
Qed.

Lemma one_long_tick_witness :
  exists w p,
    run lcg_randint [OpStart; OpTick 10000] (reset lcg_randint 7) = Ok w /\
    products (snd w) = [p] /\ state p = transferring /\
    count_state finished (products (snd w)) = 0%nat.
Proof.
  destruct (one_long_tick lcg_randint 7 lcg_randint_contract)
    as (_ & w & p & H1 & _ & H2 & H3 & _ & H4 & _).
  exists w, p. repeat split; assumption.
Defined.

(** ** The finished list *)

Section Finished.

Context {RNG : Type} (randint : Z -> Z -> RNG -> Z * RNG).

(** One tick appends at most one id to [finished_ids], the id of the
    product that was in WS2 when the tick began. *)
Lemma update_finished (dt : float) (w : World RNG) :
  Inv (snd w) ->
  exists w',
    update randint dt w = Ok w' /\ Inv (snd w') /\
    (finished_ids (snd w') = finished_ids (snd w) \/
     exists p, In p (products (snd w)) /\ state p = processing_ws2 /\
               ws2_current_id (snd w) = Some (pid p) /\
               finished_ids (snd w') = finished_ids (snd w) ++ [pid p]).
Proof.
  destruct w as [g s]. cbn [fst snd]. intros I.
  destruct (update_Inv randint dt g s I) as (w' & H & I').
  exists w'. split; [exact H|]. split; [exact I'|].
  destruct (running s) eqn:Hr; [destruct (paused s) eqn:Hp|].
  - rewrite update_idle in H by now right. inversion H; subst. now left.
  - destruct (update_running_steps randint dt g s w' Hr Hp H)
      as (s2 & s4 & H2 & H4 & H5 & _). cbv zeta in *.
    set (s1 := set_now _ s) in *.
    assert (I1 : Inv s1) by exact I.
    destruct (production_and_transfer_Inv s1 I1) as (s2' & E2 & I2).
    rewrite H2 in E2. inversion E2; subst s2'. clear E2.
    pose proof (ws1_schedule_check_Inv randint g s2 I2) as I3.
    pose proof (ws1_schedule_check_frame randint g s2) as F3. cbv zeta in F3.
    apply production_and_transfer_frame in H2.
    apply try_start_ws2_frame in H5.
    destruct H2 as (_ & _ & _ & _ & A2 & _ & _ & B2 & _).
    destruct F3 as (_ & _ & _ & _ & _ & A3 & _ & B3).
    destruct H5 as (_ & _ & _ & _ & A5 & _).
    set (s3 := snd (ws1_schedule_check randint (g, s2))) in *.
    rewrite A5.
    destruct (ws2_completion_spec s3 I3)
      as [(E & _)|(p3 & Hp3 & Hc3 & _ & _ & E)]; rewrite E in H4;
      inversion H4; subst s4; clear H4.
    + left. rewrite A3, A2. reflexivity.
    + right. simpl. rewrite A3, A2.
      assert (Hc : ws2_current_id s = Some (pid p3)).
      { rewrite <- Hc3, B3, B2. reflexivity. }
      pose proof (inv_current _ _ _ _ _ I _ Hc) as Hin.
      apply in_pids in Hin as (p & Hp0 & Epid).
      exists p. rewrite Epid. split; [exact Hp0|].
      destruct (linked_in _ _ _ _ _ p I Hp0) as (L1 & _).
      split; [apply L1; congruence|]. split; [exact Hc | reflexivity].
  - rewrite update_idle in H by now left. inversion H; subst. now left.
Qed.

Lemma run_ticks_finished (dts : list float) (w : World RNG) :
  Inv (snd w) ->
  exists w' ext,
    run randint (map OpTick dts) w = Ok w' /\ Inv (snd w') /\
    finished_ids (snd w') = finished_ids (snd w) ++ ext /\
    (length ext <= length dts)%nat.
Proof.
  revert w. induction dts as [|dt dts IH]; intros w I; simpl.
  - exists w, []. rewrite app_nil_r. auto.
  - destruct (update_finished dt w I) as (w1 & -> & I1 & H1). cbn [bind].
    destruct (IH w1 I1) as (w' & ext & -> & I' & E & L).
    destruct H1 as [H1|(p & _ & _ & _ & H1)]; rewrite H1 in E.
    + exists w', ext.
      split; [reflexivity|]. split; [exact I'|]. split; [exact E|]. lia.
    + exists w', (pid p :: ext). rewrite <- app_assoc in E.
      split; [reflexivity|]. split; [exact I'|]. split; [exact E|].
      simpl. lia.
Qed.

End Finished.

(** The claim that the finished list grows strictly with time fails: a
    running tick can leave it as it is. *)
Lemma finished_length_not_strict :
  exists w',
    reachable lcg_randint demo_world /\
    running (snd demo_world) = true /\ paused (snd demo_world) = false /\
    update lcg_randint 1 demo_world = Ok w' /\
    ~ (length (finished_ids (snd demo_world)) <
       length (finished_ids (snd w')))%nat.
Proof.
  eexists. split; [exact demo_world_reachable|].
  split; [reflexivity|]. split; [reflexivity|].
  split; [vm_compute; reflexivity|]. vm_compute. lia.
Qed.

(** C5, as the code has it.  Over any sequence of ticks from a reachable
    state the finished list only grows by appending: each tick leaves it
    unchanged or appends exactly one id (its length never decreases and
    grows by at most one per tick); it never contains duplicates; and the
    id a tick appends is the id of the product that was in state
    [processing_ws2], as the current WS2 product, when the tick began. *)
Theorem finished_ids_append_only {RNG : Type}
        (randint : Z -> Z -> RNG -> Z * RNG) (w : World RNG) :
  reachable randint w ->
  NoDup (finished_ids (snd w)) /\
  (forall dt, exists w',
      update randint dt w = Ok w' /\
      NoDup (finished_ids (snd w')) /\
      (finished_ids (snd w') = finished_ids (snd w) \/
       exists p, In p (products (snd w)) /\ state p = processing_ws2 /\
                 ws2_current_id (snd w) = Some (pid p) /\
                 finished_ids (snd w') = finished_ids (snd w) ++ [pid p])) /\
  (forall dts, exists w' ext,
      run randint (map OpTick dts) w = Ok w' /\
      finished_ids (snd w') = finished_ids (snd w) ++ ext /\
      (length ext <= length dts)%nat /\
      NoDup (finished_ids (snd w'))).
Proof.
  intros R. apply reachable_Inv in R. split; [|split].
  - exact (inv_finished_nodup _ _ _ _ _ R).
  - intros dt. destruct (update_finished randint dt w R) as (w' & H & I' & C).
    exists w'. split; [exact H|]. split; [|exact C].
    exact (inv_finished_nodup _ _ _ _ _ I').
  - intros dts.
    destruct (run_ticks_finished randint dts w R) as (w' & ext & H & I' & E & L).
    exists w', ext. repeat split; auto.
    exact (inv_finished_nodup _ _ _ _ _ I').
Qed.

Lemma finished_ids_append_only_witness :
  NoDup (finished_ids (snd demo_world)).
Proof.
  exact (proj1 (finished_ids_append_only lcg_randint demo_world
                  demo_world_reachable)).
Defined.

(** ** FIFO order of the WS2 queue *)

(** The loop body reads the queue only to append to it. *)
Lemma advance_product_arrivals t p q :
  advance_product t p q =
  (r <- advance_product t p [] ;; Ok (fst r, q ++ snd r)).
Proof.
  unfold advance_product.
  destruct (state_eqb (state p) producing_ws1).
  - destruct (number (t_prod_start p)) as [st|]; cbn [bind]; [|reflexivity].
    destruct (fge t (st + float_of_int (prod_time p)) && is_None (t_prod_done p));
      cbn [bind].
    + simpl. destruct (is_None (t_transfer_done p)); simpl;
        now rewrite app_nil_r.
    + destruct (state_eqb (state p) produced && is_None (t_transfer_done p));
        [simpl; now rewrite app_nil_r|].
      destruct (state_eqb (state p) transferring); [|simpl; now rewrite app_nil_r].
      destruct (attribute (target_x p)); cbn [bind]; [|reflexivity].
      destruct (number (x p)); cbn [bind]; [|reflexivity].
      destruct (attribute (target_y p)); cbn [bind]; [|reflexivity].
      destruct (number (y p)); cbn [bind]; [|reflexivity].
      match goal with |- context [if ?b then _ else _] => destruct b end;
        simpl; now rewrite ?app_nil_r.
  - cbn [bind].
    destruct (state_eqb (state p) produced && is_None (t_transfer_done p));
      [simpl; now rewrite app_nil_r|].
    destruct (state_eqb (state p) transferring); [|simpl; now rewrite app_nil_r].
    destruct (attribute (target_x p)); cbn [bind]; [|reflexivity].
    destruct (number (x p)); cbn [bind]; [|reflexivity].
    destruct (attribute (target_y p)); cbn [bind]; [|reflexivity].
    destruct (number (y p)); cbn [bind]; [|reflexivity].
    match goal with |- context [if ?b then _ else _] => destruct b end;
      simpl; now rewrite ?app_nil_r.
Qed.

Lemma advance_products_arrivals t ps q :
  advance_products t ps q =
  (r <- advance_products t ps [] ;; Ok (fst r, q ++ snd r)).
Proof.
  revert q. induction ps as [|p ps IH]; intros q; simpl.
  - now rewrite app_nil_r.
  - rewrite (advance_product_arrivals t p q).
    destruct (advance_product t p []) as [[p' a]|]; cbn [bind fst snd];
      [|reflexivity].
    rewrite (IH (q ++ a)), (IH a).
    destruct (advance_products t ps []) as [[ps' b]|]; cbn [bind fst snd];
      [|reflexivity].
    now rewrite app_assoc.
Qed.

Section Fifo.

Context {RNG : Type} (randint : Z -> Z -> RNG -> Z * RNG).

(** The traced tick is the tick, and what it enqueued and dequeued
    accounts for the change of the queue: arrivals go to the tail, the
    start of a WS2 job takes the head. *)
Lemma update_traced_spec (dt : float) (w : World RNG) :
  Inv (snd w) ->
  exists w' enq deq,
    update_traced randint dt w = Ok (w', (enq, deq)) /\
    update randint dt w = Ok w' /\ Inv (snd w') /\
    queue_ws2 (snd w) ++ enq = deq ++ queue_ws2 (snd w').
Proof.
  destruct w as [g s]. cbn [fst snd]. intros I.
  unfold update_traced, update.
  destruct (negb (running s) || paused s).
  { exists (g, s), [], []. rewrite app_nil_r. auto. }
  set (s1 := set_now _ s).
  assert (I1 : Inv s1) by exact I.
  destruct (production_and_transfer_Inv s1 I1) as (s2 & E2 & I2).
  assert (A : exists a, arrivals s1 = Ok a /\ queue_ws2 s2 = queue_ws2 s ++ a).
  { unfold production_and_transfer in E2. unfold arrivals.
    rewrite advance_products_arrivals in E2.
    destruct (advance_products (now s1) (products s1) []) as [[ps' a]|];
      cbn [bind fst snd] in *; [|discriminate].
    exists a. split; [reflexivity|]. inversion E2; subst. reflexivity. }
  destruct A as (a & -> & Q2). rewrite E2. cbn [bind].
  pose proof (ws1_schedule_check_Inv randint g s2 I2) as I3.
  pose proof (ws1_schedule_check_frame randint g s2) as F3. cbv zeta in F3.
  destruct (ws1_schedule_check randint (g, s2)) as [g3 s3].
  cbn [fst snd] in I3, F3.
  destruct (ws2_completion_Inv s3 I3) as (s4 & E4 & I4). rewrite E4.
  cbn [bind].
  apply ws2_completion_frame in E4.
  assert (Q4 : queue_ws2 s4 = queue_ws2 s ++ a).
  { destruct E4 as (_ & _ & _ & _ & -> & _).
    destruct F3 as (_ & _ & _ & _ & -> & _). exact Q2. }
  destruct (try_start_ws2_Inv s4 I4) as (s5 & E5 & I5).
  destruct (try_start_ws2_spec s4 I4)
    as [(E & P & _)|(p & rest & _ & _ & Hq & P & _ & E)];
    rewrite E; cbn [bind]; rewrite P.
  - exists (g3, s4), a, []. cbn [fst snd]. rewrite Q4. auto.
  - eexists (g3, _), a, [pid p]. split; [reflexivity|]. split; [reflexivity|].
    split.
    + rewrite E in E5. inversion E5; subst. exact I5.
    + simpl. rewrite <- Q4, Hq. reflexivity.
Qed.

Lemma reset_queue (g : RNG) : queue_ws2 (snd (reset randint g)) = [].
Proof.
  unfold reset.
  destruct (schedule_next_eq randint g blank)
    as (g' & prod & setup & transfer & proc & E & _).
  cbv zeta in E. now rewrite E.
Qed.

Lemma apply_op_traced_spec (o : Op) (w : World RNG) (h : History) :
  Inv (snd w) ->
  enqueued h = dequeued h ++ queue_ws2 (snd w) ->
  exists w' h',
    apply_op_traced randint o (w, h) = Ok (w', h') /\
    apply_op randint o w = Ok w' /\ Inv (snd w') /\
    enqueued h' = dequeued h' ++ queue_ws2 (snd w').
Proof.
  intros I H. destruct o; cbn [apply_op_traced apply_op].
  - destruct (update_traced_spec dt_real_seconds w I)
      as (w' & enq & deq & -> & -> & I' & Q).
    cbn [bind fst snd]. eexists _, _. split; [reflexivity|].
    split; [reflexivity|]. split; [exact I'|]. cbn [enqueued dequeued].
    rewrite H, <- !app_assoc. f_equal. exact Q.
  - eexists _, _. cbn [bind]. repeat (split; [reflexivity|]). split; assumption.
  - eexists _, _. cbn [bind]. repeat (split; [reflexivity|]). split; assumption.
  - eexists _, _. cbn [bind]. repeat (split; [reflexivity|]). split; assumption.
  - eexists _, _. repeat (split; [reflexivity|]).
    split; [apply reset_Inv|]. now rewrite reset_queue.
  - eexists _, _. cbn [bind]. repeat (split; [reflexivity|]). split; assumption.
Qed.

Lemma run_traced_spec (ops : list Op) (w : World RNG) (h : History) :
  Inv (snd w) ->
  enqueued h = dequeued h ++ queue_ws2 (snd w) ->
  exists w' h',
    run_traced randint ops (w, h) = Ok (w', h') /\
    run randint ops w = Ok w' /\
    enqueued h' = dequeued h' ++ queue_ws2 (snd w').
Proof.
  revert w h. induction ops as [|o ops IH]; intros w h I H;
    cbn [run_traced run].
  - exists w, h. auto.
  - destruct (apply_op_traced_spec o w h I H) as (w1 & h1 & -> & -> & I1 & H1).
    cbn [bind]. apply IH; assumption.
Qed.

End Fifo.

(** What the loop appends goes to the tail of the queue, and what
    [_try_start_ws2] pops comes from its head. *)
Lemma production_and_transfer_arrivals s s' :
  production_and_transfer s = Ok s' ->
  exists a, arrivals s = Ok a /\ queue_ws2 s' = queue_ws2 s ++ a.
Proof.
  unfold production_and_transfer, arrivals.
  rewrite advance_products_arrivals.
  destruct (advance_products (now s) (products s) []) as [[ps' a]|];
    cbn [bind fst snd]; [|discriminate].
  intros H. inversion H; subst. exists a. split; reflexivity.
Qed.

Lemma try_start_ws2_popped s s' :
  _try_start_ws2 s = Ok s' -> queue_ws2 s = popped s ++ queue_ws2 s'.
Proof.
  unfold _try_start_ws2, popped. destruct (ws2_current_id s).
  - intros H; inversion H; subst. reflexivity.
  - destruct (queue_ws2 s) as [|h rest] eqn:E.
    + intros H; inversion H; subst. now rewrite E.
    + destruct (mutate_next _ _ _) as [r|]; cbn [bind]; [|discriminate].
      intros H; inversion H; subst. reflexivity.
Qed.

(** C4. The WS2 queue is FIFO.  Every execution from [reset] runs
    normally, and if [enqueued] is the sequence of ids appended to the
    queue at transfer arrival and [dequeued] the sequence of ids removed
    by [_try_start_ws2] (both since the last [reset]), then [enqueued] is
    [dequeued] followed by the present content of the queue: the dequeued
    ids are a prefix of the enqueued ones, in the same order.  The ids
    recorded are the ones the blocks move: the loop over the products
    appends its arrivals at the tail, [_try_start_ws2] takes what it pops
    from the head. *)
Theorem ws2_queue_fifo {RNG : Type} (randint : Z -> Z -> RNG -> Z * RNG)
        (g : RNG) (ops : list Op) :
  (exists w h,
      run_traced randint ops (reset randint g, no_history) = Ok (w, h) /\
      run randint ops (reset randint g) = Ok w /\
      enqueued h = dequeued h ++ queue_ws2 (snd w) /\
      firstn (length (dequeued h)) (enqueued h) = dequeued h) /\
  (forall s s', production_and_transfer s = Ok s' ->
                exists a, arrivals s = Ok a /\
                          queue_ws2 s' = queue_ws2 s ++ a) /\
  (forall s s', _try_start_ws2 s = Ok s' ->
                queue_ws2 s = popped s ++ queue_ws2 s').
Proof.
  split; [|split].
  - destruct (run_traced_spec randint ops (reset randint g) no_history)
      as (w & h & H1 & H2 & H3).
    + apply reset_Inv.
    + now rewrite reset_queue.
    + exists w, h. repeat (split; [assumption|]).
      rewrite H3, firstn_app, firstn_all, Nat.sub_diag. simpl.
      now rewrite app_nil_r.
  - exact production_and_transfer_arrivals.
  - exact try_start_ws2_popped.
Qed.

Lemma ws2_queue_fifo_witness :
  exists w h,
    run_traced lcg_randint (demo_ops ++ repeat (OpTick 1) 400)
               (reset lcg_randint 7, no_history) = Ok (w, h) /\
    enqueued h = dequeued h ++ queue_ws2 (snd w).
Proof.
  destruct (proj1 (ws2_queue_fifo lcg_randint 7
                     (demo_ops ++ repeat (OpTick 1) 400)))
    as (w & h & H1 & _ & H2 & _).
  exists w, h. split; [exact H1 | exact H2].
Defined.

(** The history of that execution: three products went through the queue,
    in the order of their ids. *)
Example demo_history :
  exists w,
    run_traced lcg_randint (demo_ops ++ repeat (OpTick 1) 400)
               (reset lcg_randint 7, no_history) =
    Ok (w, mkHistory [1; 2; 3] [1; 2; 3]) /\
    finished_ids (snd w) = [1; 2; 3].
Proof. eexists. split; vm_compute; reflexivity. Qed.

(** ** The order of the blocks within a tick *)

Lemma last_product_replace (p' : Product) (ps : list Product) :
  last_product (replace p' ps) =
  option_map (fun q => if pid q =? pid p' then p' else q) (last_product ps).
Proof.
  destruct (snoc_cases ps) as [->|(front & l & ->)]; [reflexivity|].
  unfold replace. rewrite map_app. simpl map.
  now rewrite !last_product_snoc.
Qed.

Lemma last_product_in (ps : list Product) (l : Product) :
  last_product ps = Some l -> In l ps.
Proof.
  destruct (snoc_cases ps) as [->|(front & a & ->)]; [discriminate|].
  rewrite last_product_snoc. intros H; inversion H; subst.
  apply in_or_app; right; now left.
Qed.

Lemma advance_products_keeps_settled t ps q ps' q' p :
  advance_products t ps q = Ok (ps', q') ->
  In p ps -> settled p = true -> In p ps'.
Proof.
  revert q ps'. induction ps as [|a ps IH]; simpl; intros q ps' H Hin Hs;
    [contradiction|].
  destruct (advance_product t a q) as [[a' q1]|] eqn:Ea; cbn [bind fst snd] in H;
    [|discriminate].
  destruct (advance_products t ps q1) as [[ps1 q2]|] eqn:E; cbn [bind fst snd] in H;
    [|discriminate].
  inversion H; subst. destruct Hin as [->|Hin].
  - rewrite advance_product_settled in Ea by assumption.
    inversion Ea; subst. now left.
  - right. eapply IH; eauto.
Qed.

(** Finishing a settled product commutes with the loop over the
    products. *)
Lemma advance_products_replace t ps q p' :
  settled p' = true ->
  Forall wf_product ps ->
  (forall r, In r ps -> pid r = pid p' -> settled r = true) ->
  advance_products t (replace p' ps) q =
  (r <- advance_products t ps q ;; Ok (replace p' (fst r), snd r)).
Proof.
  intros Sp W. revert q. induction W as [|a ps Wa _ IH]; intros q H.
  - reflexivity.
  - assert (H' : forall r, In r ps -> pid r = pid p' -> settled r = true)
      by (intros r Hr; apply H; now right).
    unfold replace; fold (replace p' ps). cbn [map advance_products].
    destruct (Z.eqb_spec (pid a) (pid p')) as [E|NE].
    + rewrite (advance_product_settled t p' q Sp).
      rewrite (advance_product_settled t a q (H a (or_introl eq_refl) E)).
      cbn [bind fst snd]. fold (replace p' ps). rewrite (IH q H').
      destruct (advance_products t ps q) as [[ps1 q1]|]; cbn [bind fst snd];
        [|reflexivity].
      unfold replace. cbn [map]. apply Z.eqb_eq in E. now rewrite E.
    + destruct (advance_product_spec t a q Wa) as (a' & arr & -> & Ea & _).
      cbn [bind fst snd]. fold (replace p' ps). rewrite (IH _ H').
      destruct (advance_products t ps (q ++ arr)) as [[ps1 q1]|];
        cbn [bind fst snd]; [|reflexivity].
      unfold replace. cbn [map]. rewrite Ea.
      apply Z.eqb_neq in NE. now rewrite NE.
Qed.

Lemma completion_noop s :
  Inv s ->
  ws2_current_id s = None \/ fge (now s) (ws2_busy_until s) = false ->
  ws2_completion s = Ok s.
Proof.
  intros I H. destruct (ws2_completion_spec s I)
    as [(E & _)|(p & _ & Hc & _ & Hd & _)]; [exact E|].
  destruct H as [H|H]; congruence.
Qed.

Lemma completion_finish s p :
  Inv s -> In p (products s) ->
  ws2_current_id s = Some (pid p) ->
  fge (now s) (ws2_busy_until s) = true ->
  ws2_completion s = Ok (finish s p).
Proof.
  intros I Hp Hc Hd. destruct (ws2_completion_spec s I)
    as [(_ & [H|H])|(p0 & Hp0 & Hc0 & _ & _ & E)]; try congruence.
  assert (p0 = p).
  { apply (pid_inj (products s)); auto. exact (inv_pids _ _ _ _ _ I). congruence. }
  subst p0. exact E.
Qed.

Lemma completion_after_production_eq s s2 s' :
  Inv s -> production_and_transfer s = Ok s2 -> ws2_completion s = Ok s' ->
  production_and_transfer s' = Ok
    (set_queue_ws2 (queue_ws2 s2)
       (set_products
          (products (match ws2_completion s2 with Ok r => r | Raise _ => s2 end))
          s')) /\
  ws2_completion s2 = Ok
    (set_queue_ws2 (queue_ws2 s2)
       (set_products
          (products (match ws2_completion s2 with Ok r => r | Raise _ => s2 end))
          s')).
Proof.
  intros I H2 Hc.
  destruct (production_and_transfer_Inv s I) as (s2' & E2 & I2).
  rewrite H2 in E2. inversion E2; subst s2'. clear E2.
  pose proof (production_and_transfer_frame _ _ H2)
    as (Fn & _ & _ & _ & Ff & _ & Fb & Fc & _).
  destruct (ws2_completion_spec s I)
    as [(E & Hno)|(p & Hp & Hcur & Hst & Hd & E)];
    rewrite E in Hc; inversion Hc; subst s'; clear Hc.
  - rewrite (completion_noop s2 I2) by (rewrite Fc, Fn, Fb; exact Hno).
    unfold production_and_transfer in *.
    destruct (advance_products (now s) (products s) (queue_ws2 s)) as [[ps2 q2]|];
      cbn [bind fst snd] in *; [|discriminate].
    inversion H2; subst. destruct s; split; reflexivity.
  - assert (Sp : settled p = true) by (unfold settled; now rewrite Hst).
    unfold production_and_transfer in H2.
    destruct (advance_products (now s) (products s) (queue_ws2 s))
      as [[ps2 q2]|] eqn:Ea; cbn [bind fst snd] in H2; [|discriminate].
    assert (Hp2 : In p (products s2)).
    { inversion H2; subst. simpl.
      eapply advance_products_keeps_settled; eauto. }
    rewrite (completion_finish s2 p I2 Hp2)
      by (rewrite ?Fc, ?Fn, ?Fb; assumption).
    unfold production_and_transfer. cbn [now products queue_ws2 finish
      set_ws2_current_id set_finished_ids set_products].
    rewrite advance_products_replace.
    + rewrite Ea. cbn [bind fst snd]. inversion H2; subst.
      rewrite Fb. destruct s; split; reflexivity.
    + reflexivity.
    + pose proof (inv_linked _ _ _ _ _ I) as L.
      eapply Forall_impl; [|exact L]. intros r (_ & _ & _ & _ & W). exact W.
    + intros r Hr Er. simpl in Er.
      assert (r = p).
      { apply (pid_inj (products s)); auto. exact (inv_pids _ _ _ _ _ I). }
      now subst.
Qed.

Lemma completion_after_production s s2 s' :
  Inv s -> production_and_transfer s = Ok s2 -> ws2_completion s = Ok s' ->
  exists s2', production_and_transfer s' = Ok s2' /\
              ws2_completion s2 = Ok s2'.
Proof.
  intros I H2 Hc. eexists.
  exact (completion_after_production_eq s s2 s' I H2 Hc).
Qed.

Section BlockOrder.

Context {RNG : Type} (randint : Z -> Z -> RNG -> Z * RNG).

Lemma ws1_schedule_check_eq (g : RNG) (s : Simulation) :
  ws1_schedule_check randint (g, s) =
  if fge (now s) (ws1_busy_until s) &&
     match last_product (products s) with
     | None => true
     | Some l => frees_ws1 (state l)
     end
  then (fst (_schedule_next_ws1 randint (g, s)),
        set_ws1_busy_until
          (ws1_busy_until (snd (_schedule_next_ws1 randint (g, s))) + 1e-6)%float
          (snd (_schedule_next_ws1 randint (g, s))))
  else (g, s).
Proof.
  unfold ws1_schedule_check.
  destruct (fge (now s) (ws1_busy_until s)); [|reflexivity].
  cbn [andb].
  destruct (match last_product (products s) with
            | None => true | Some l => frees_ws1 (state l) end);
    [|reflexivity].
  destruct (_schedule_next_ws1 randint (g, s)); reflexivity.
Qed.

(** The completion check commutes with the scheduling check. *)
Lemma completion_after_schedule (g : RNG) (s s' : Simulation) :
  Inv s -> ws2_completion s = Ok s' ->
  ws2_completion (snd (ws1_schedule_check randint (g, s))) =
    Ok (snd (ws1_schedule_check randint (g, s'))) /\
  fst (ws1_schedule_check randint (g, s)) =
    fst (ws1_schedule_check randint (g, s')).
Proof.
  intros I Hc.
  pose proof (ws1_schedule_check_Inv randint g s I) as I3.
  pose proof (ws1_schedule_check_frame randint g s) as F3. cbv zeta in F3.
  destruct F3 as (Fn & _ & _ & _ & _ & _ & Fb & Fc).
  destruct (ws2_completion_spec s I)
    as [(E & Hno)|(p & Hp & Hcur & Hst & Hd & E)].
  - rewrite E in Hc; inversion Hc; subst s'; clear Hc.
    split; [|reflexivity]. apply completion_noop; [exact I3|].
    rewrite Fc, Fn, Fb. exact Hno.
  - fold (finish s p) in E.
    rewrite E in Hc; inversion Hc; subst s'; clear Hc.
    rewrite (ws1_schedule_check_eq g (finish s p)).
    rewrite (ws1_schedule_check_eq g s) in *.
    cbn [now ws1_busy_until products finish set_ws2_current_id
         set_finished_ids set_products].
    fold (replace (set_state finished (set_t_proc_done (ws2_busy_until s) p))
                  (products s)).
    rewrite last_product_replace.
    assert (G : match
                  option_map
                    (fun q => if pid q =? pid (set_state finished
                                  (set_t_proc_done (ws2_busy_until s) p))
                              then set_state finished
                                     (set_t_proc_done (ws2_busy_until s) p)
                              else q)
                    (last_product (products s))
                with
                | None => true
                | Some l => frees_ws1 (state l)
                end =
                match last_product (products s) with
                | None => true
                | Some l => frees_ws1 (state l)
                end).
    { destruct (last_product (products s)) as [l|] eqn:El; [|reflexivity].
      cbn [option_map].
      change (pid (set_state finished (set_t_proc_done (ws2_busy_until s) p)))
        with (pid p).
      destruct (Z.eqb_spec (pid l) (pid p)) as [Epid|_]; [|reflexivity].
      assert (l = p).
      { apply (pid_inj (products s)); auto.
        exact (inv_pids _ _ _ _ _ I). now apply last_product_in. }
      subst l. simpl. now rewrite Hst. }
    rewrite G. clear G.
    destruct (fge (now s) (ws1_busy_until s) &&
              match last_product (products s) with
              | None => true | Some l => frees_ws1 (state l) end).
    + destruct (schedule_next_eq randint g s)
        as (g1 & prod & setup & transfer & proc & E1 & D1 & D2 & D3 & D4).
      destruct (schedule_next_eq randint g (finish s p))
        as (g2 & prod' & setup' & transfer' & proc' & E2 & D1' & D2' & D3' & D4').
      cbv zeta in E1, E2. rewrite E1, E2.
      subst prod' setup' transfer' proc'.
      rewrite <- D1, <- D2, <- D3, <- D4.
      assert (g1 = g2).
      { unfold _schedule_next_ws1, _rand in E1, E2.
        destruct (randint PROD_MIN PROD_MAX g) as [a g3].
        destruct (randint SETUP_MIN SETUP_MAX g3) as [b g4].
        destruct (randint TRANSFER_MIN TRANSFER_MAX g4) as [c g5].
        destruct (randint PROC_MIN PROC_MAX g5) as [d g6].
        inversion E1; inversion E2; congruence. }
      subst g2. split; [|reflexivity].
      unfold ws2_completion.
      cbn [fst snd ws2_current_id now ws2_busy_until products finished_ids
           set_ws1_busy_until finish set_ws2_current_id set_finished_ids
           set_products ws1_busy_until].
      rewrite Hcur, Hd.
      assert (M : mutate_next (pid p)
                    (fun q => set_state finished
                                (set_t_proc_done (ws2_busy_until s) q))
                    (products s) =
                  Ok (p, replace (set_state finished
                                    (set_t_proc_done (ws2_busy_until s) p))
                                 (products s))).
      { destruct (mutate_next_replace (pid p)
                    (fun q => set_state finished
                                (set_t_proc_done (ws2_busy_until s) q))
                    (products s)) as (p0 & Hp0 & Ep0 & M).
        - exact (inv_pids _ _ _ _ _ I).
        - now apply in_map.
        - reflexivity.
        - assert (p0 = p).
          { apply (pid_inj (products s)); auto. exact (inv_pids _ _ _ _ _ I). }
          now subst p0. }
      rewrite (mutate_next_app _ _ _ _ _ _ M). cbn [bind fst snd].
      unfold replace. destruct s; reflexivity.
    + split; [|reflexivity]. exact E.
Qed.

End BlockOrder.

(** On every reachable state a running tick returns normally, and moving
    the completion check in front of the other blocks would give the same
    result: under the invariant the completion check commutes with the
    loop over the products and with the scheduling check. *)
Lemma block_orders_agree {RNG : Type} (randint : Z -> Z -> RNG -> Z * RNG)
      (dt : float) (w : World RNG) :
  reachable randint w ->
  running (snd w) = true -> paused (snd w) = false ->
  exists w',
    update randint dt w = Ok w' /\
    update_spec_order randint dt w = Ok w'.
Proof.
  intros R Hr Hp. apply reachable_Inv in R. destruct w as [g s].
  cbn [fst snd] in *.
  destruct (update_Inv randint dt g s R) as (w' & H & _).
  exists w'. split; [exact H|]. rewrite <- H.
  unfold update, update_spec_order. rewrite Hr, Hp. cbn [negb orb].
  set (s1 := set_now _ s).
  assert (I1 : Inv s1) by exact R.
  destruct (production_and_transfer_Inv s1 I1) as (s2 & E2 & I2).
  destruct (ws2_completion_Inv s1 I1) as (c1 & Ec1 & _).
  destruct (completion_after_production s1 s2 c1 I1 E2 Ec1) as (c2 & Ec2 & E4).
  destruct (completion_after_schedule randint g s2 c2 I2 E4) as (E5 & Eg).
  rewrite E2, Ec1. cbn [bind]. rewrite Ec2. cbn [bind].
  destruct (ws1_schedule_check randint (g, s2)) as [g3 s3].
  destruct (ws1_schedule_check randint (g, c2)) as [g3' c3].
  cbn [fst snd] in E5, Eg. subst g3'. rewrite E5. cbn [bind]. reflexivity.
Qed.




(** * Further properties of the line *)

(** ** What a tick does to the products *)

(** The loop body, case by case: the product is left alone, or its
    production ends and its transfer starts, or it moves towards its
    target, arriving or not. *)
Lemma advance_product_cases t p q p' q' :
  advance_product t p q = Ok (p', q') ->
  (p' = p /\ q' = q) \/
  (exists t0,
      state p = producing_ws1 /\ t_prod_start p = Some t0 /\
      t_prod_done p = None /\
      fge t (t0 + float_of_int (prod_time p))%float = true /\
      let p1 := set_state produced
                  (set_t_prod_done (t0 + float_of_int (prod_time p))%float p) in
      p' = (if is_None (t_transfer_done p)
            then set_target (center_f WS2_RECT) (set_state transferring p1)
            else p1) /\
      q' = q) \/
  (state p = produced /\ t_transfer_done p = None /\
   p' = set_target (center_f WS2_RECT) (set_state transferring p) /\
   q' = q) \/
  (exists x0 y0 tx ty,
      state p = transferring /\
      x p = Some x0 /\ y p = Some y0 /\
      target_x p = Some tx /\ target_y p = Some ty /\
      let x1 := (x0 + (tx - x0) * 0.05)%float in
      let y1 := (y0 + (ty - y0) * 0.05)%float in
      if PrimFloat.ltb (abs (x1 - tx)) 2 && PrimFloat.ltb (abs (y1 - ty)) 2
      then p' = set_state in_queue_ws2 (set_xy (x1, y1) p) /\
           q' = q ++ [pid p]
      else p' = set_xy (x1, y1) p /\ q' = q).
Proof.
  unfold advance_product.
  destruct (state p) eqn:Es; cbn [state_eqb bind].
  - (* waiting *) rewrite Es. cbn. intros H; inversion H; auto.
  - (* producing *)
    destruct (t_prod_start p) as [t0|] eqn:E0; cbn [number bind]; [|discriminate].
    destruct (t_prod_done p) as [d|] eqn:Ed; cbn [is_None].
    + rewrite andb_false_r. cbn [bind]. rewrite Es. cbn.
      intros H; inversion H; auto.
    + rewrite andb_true_r.
      destruct (fge t (t0 + float_of_int (prod_time p))) eqn:Ef; cbn [bind].
      * cbn [state set_state set_t_prod_done state_eqb andb t_transfer_done].
        intros H. right; left. exists t0.
        do 3 (split; [reflexivity|]). split; [exact Ef|]. cbv zeta.
        destruct (t_transfer_done p) eqn:Et; cbn [is_None] in *;
          inversion H; subst; split; reflexivity.
      * rewrite Es. cbn. intros H; inversion H; auto.
  - (* produced *)
    rewrite Es. cbn [state_eqb andb].
    destruct (t_transfer_done p) eqn:Et; cbn [is_None].
    + intros H; inversion H; auto.
    + intros H; inversion H; subst. right; right; left. auto.
  - (* transferring *)
    rewrite Es. cbn [state_eqb andb].
    destruct (target_x p) as [tx|]; cbn [attribute bind]; [|discriminate].
    destruct (x p) as [x0|]; cbn [number bind]; [|discriminate].
    destruct (target_y p) as [ty|]; cbn [attribute bind]; [|discriminate].
    destruct (y p) as [y0|]; cbn [number bind]; [|discriminate].
    intros H. right; right; right. exists x0, y0, tx, ty.
    repeat (split; [reflexivity|]). cbv zeta.
    match goal with |- context [if ?b then _ else _] => destruct b end;
      inversion H; subst; split; reflexivity.
  - rewrite Es. cbn. intros H; inversion H; auto.
  - rewrite Es. cbn. intros H; inversion H; auto.
  - rewrite Es. cbn. intros H; inversion H; auto.
Qed.

Lemma advance_product_identity t p q p' q' :
  advance_product t p q = Ok (p', q') -> identity_of p' = identity_of p.
Proof.
  intros H. apply advance_product_cases in H.
  destruct H as [(-> & _)|[(t0 & _ & _ & _ & _ & H)|[(_ & _ & -> & _)
                |(x0 & y0 & tx & ty & _ & _ & _ & _ & _ & H)]]].
  - reflexivity.
  - cbv zeta in H. destruct H as (-> & _).
    destruct (is_None (t_transfer_done p)); reflexivity.
  - reflexivity.
  - cbv zeta in H.
    match type of H with (if ?b then _ else _) => destruct b end;
      destruct H as (-> & _); reflexivity.
Qed.

Lemma advance_product_rank t p q p' q' :
  advance_product t p q = Ok (p', q') ->
  (rank (state p) <= rank (state p'))%nat.
Proof.
  intros H. apply advance_product_cases in H.
  destruct H as [(-> & _)|[(t0 & Hs & _ & _ & _ & H)|[(Hs & _ & -> & _)
                |(x0 & y0 & tx & ty & Hs & _ & _ & _ & _ & H)]]].
  - lia.
  - cbv zeta in H. destruct H as (-> & _). rewrite Hs.
    destruct (is_None (t_transfer_done p)); simpl; lia.
  - rewrite Hs. simpl. lia.
  - cbv zeta in H. rewrite Hs.
    match type of H with (if ?b then _ else _) => destruct b end;
      destruct H as (-> & _); simpl; rewrite ?Hs; simpl; lia.
Qed.

(** The loop, product by product. *)
Lemma advance_products_Forall2 t ps q ps' q' :
  advance_products t ps q = Ok (ps', q') ->
  Forall2 (fun p p' => exists q1 q2, advance_product t p q1 = Ok (p', q2))
          ps ps'.
Proof.
  revert q ps'. induction ps as [|a ps IH]; simpl; intros q ps' H.
  - inversion H; subst. constructor.
  - destruct (advance_product t a q) as [[a' q1]|] eqn:Ea;
      cbn [bind fst snd] in H; [|discriminate].
    destruct (advance_products t ps q1) as [[ps1 q2]|] eqn:E;
      cbn [bind fst snd] in H; [|discriminate].
    inversion H; subst. constructor; eauto.
Qed.

Lemma advance_products_Forall (Q : Product -> Prop) t ps q ps' q' :
  (forall p q1 p' q2, Q p -> advance_product t p q1 = Ok (p', q2) -> Q p') ->
  Forall Q ps -> advance_products t ps q = Ok (ps', q') -> Forall Q ps'.
Proof.
  intros HQ F H. apply advance_products_Forall2 in H.
  induction H as [|p p' ps ps' (q1 & q2 & Hp) _ IH]; [constructor|].
  inversion F; subst. constructor; eauto.
Qed.

Lemma advance_products_identity t ps q ps' q' :
  advance_products t ps q = Ok (ps', q') ->
  map identity_of ps' = map identity_of ps.
Proof.
  intros H. apply advance_products_Forall2 in H.
  induction H as [|p p' ps ps' (q1 & q2 & Hp) _ IH]; [reflexivity|].
  simpl. rewrite IH, (advance_product_identity _ _ _ _ _ Hp). reflexivity.
Qed.

(** The lookup-and-mutate: which product it finds and what the list is
    afterwards. *)
Lemma mutate_next_split c f ps p ps' :
  mutate_next c f ps = Ok (p, ps') ->
  exists A B, ps = A ++ p :: B /\ ps' = A ++ f p :: B /\ pid p = c /\
              Forall (fun r => pid r <> c) A.
Proof.
  revert ps'. induction ps as [|a ps IH]; simpl; intros ps' H; [discriminate|].
  destruct (Z.eqb_spec (pid a) c) as [E|NE].
  - inversion H; subst. exists [], ps. repeat split; auto.
  - destruct (mutate_next c f ps) as [[p0 r]|]; cbn [bind fst snd] in H;
      [|discriminate].
    inversion H; subst. destruct (IH r eq_refl) as (A & B & -> & -> & Hc & HA).
    exists (a :: A), B. repeat split; auto.
Qed.

Lemma mutate_next_identity c f ps p ps' :
  (forall r, identity_of (f r) = identity_of r) ->
  mutate_next c f ps = Ok (p, ps') ->
  map identity_of ps' = map identity_of ps.
Proof.
  intros Hf H. apply mutate_next_split in H as (A & B & -> & -> & _ & _).
  rewrite !map_app. simpl. now rewrite Hf.
Qed.

Lemma production_and_transfer_identity s s' :
  production_and_transfer s = Ok s' ->
  map identity_of (products s') = map identity_of (products s).
Proof.
  unfold production_and_transfer.
  destruct (advance_products _ _ _) as [[ps' q']|] eqn:E; cbn [bind fst snd];
    [|discriminate].
  intros H; inversion H; subst. simpl.
  eapply advance_products_identity; eauto.
Qed.

Lemma ws2_completion_identity s s' :
  ws2_completion s = Ok s' ->
  map identity_of (products s') = map identity_of (products s).
Proof.
  unfold ws2_completion. destruct (ws2_current_id s); [|now intros H; inversion H].
  destruct (mutate_next _ _ _) as [[p ps']|] eqn:E; cbn [bind fst snd];
    [|discriminate].
  destruct (fge (now s) (ws2_busy_until s)); intros H; inversion H; subst;
    [|reflexivity].
  simpl. eapply mutate_next_identity; [|exact E]. reflexivity.
Qed.

Lemma try_start_ws2_identity s s' :
  _try_start_ws2 s = Ok s' ->
  map identity_of (products s') = map identity_of (products s).
Proof.
  unfold _try_start_ws2. destruct (ws2_current_id s); [now intros H; inversion H|].
  destruct (queue_ws2 s); [now intros H; inversion H|].
  destruct (mutate_next _ _ _) as [[p ps']|] eqn:E; cbn [bind fst snd];
    [|discriminate].
  intros H; inversion H; subst. simpl.
  eapply mutate_next_identity; [|exact E]. reflexivity.
Qed.

(** ** The bookkeeping of WS1 *)

Section Bookkeeping.

Context {RNG : Type} (randint : Z -> Z -> RNG -> Z * RNG).

(** What one tick does to the identities of the products, to
    [ws1_busy_until], [next_pid] and the assignment log: nothing, or the
    one scheduling of a product at the time of the tick. *)
Lemma update_book (dt : float) (w w' : World RNG) :
  update randint dt w = Ok w' ->
  (map identity_of (products (snd w')) = map identity_of (products (snd w)) /\
   ws1_busy_until (snd w') = ws1_busy_until (snd w) /\
   next_pid (snd w') = next_pid (snd w) /\
   assigned_list (snd w') = assigned_list (snd w)) \/
  (exists prod setup transfer proc,
      let t := (now (snd w) + dt * speed (snd w))%float in
      running (snd w) = true /\ paused (snd w) = false /\
      fge t (ws1_busy_until (snd w)) = true /\
      prod = fst (randint PROD_MIN PROD_MAX (fst w)) /\
      setup = fst (randint SETUP_MIN SETUP_MAX
                     (snd (randint PROD_MIN PROD_MAX (fst w)))) /\
      transfer = fst (randint TRANSFER_MIN TRANSFER_MAX
                        (snd (randint SETUP_MIN SETUP_MAX
                                (snd (randint PROD_MIN PROD_MAX (fst w)))))) /\
      proc = fst (randint PROC_MIN PROC_MAX
                    (snd (randint TRANSFER_MIN TRANSFER_MAX
                            (snd (randint SETUP_MIN SETUP_MAX
                                    (snd (randint PROD_MIN PROD_MAX
                                            (fst w)))))))) /\
      map identity_of (products (snd w')) =
        map identity_of (products (snd w)) ++
        [(next_pid (snd w), prod, setup, transfer, proc, Some t)] /\
      ws1_busy_until (snd w') =
        (t + float_of_int prod + float_of_int setup + 1e-6)%float /\
      next_pid (snd w') = next_pid (snd w) + 1 /\
      assigned_list (snd w') =
        assigned_list (snd w) ++ [(next_pid (snd w), prod, transfer, proc)]).
Proof.
  destruct w as [g s]. cbn [fst snd]. intros H.
  destruct (running s) eqn:Hr; [destruct (paused s) eqn:Hp|].
  2: { destruct (update_running_steps randint dt g s w' Hr Hp H)
         as (s2 & s4 & H2 & H4 & H5 & _). cbv zeta in *.
       pose proof (production_and_transfer_identity _ _ H2) as I2.
       pose proof (ws2_completion_identity _ _ H4) as I4.
       pose proof (try_start_ws2_identity _ _ H5) as I5.
       apply production_and_transfer_frame in H2.
       apply ws2_completion_frame in H4. apply try_start_ws2_frame in H5.
       destruct H2 as (N2 & _ & _ & _ & _ & B2 & _ & _ & P2 & A2).
       destruct H4 as (_ & _ & _ & _ & _ & B4 & _ & P4 & A4).
       destruct H5 as (_ & _ & _ & _ & _ & B5 & P5 & A5).
       rewrite I5, I4, B5, B4, P5, P4, A5, A4.
       simpl in N2, B2, P2, A2, I2.
       destruct (ws1_schedule_check_cases randint g s2) as [E|(Hb & _ & E)];
         rewrite E; cbn [snd].
       - left. rewrite I2, B2, P2, A2. auto.
       - right.
         destruct (schedule_next_eq randint g s2)
           as (g' & prod & setup & transfer & proc & E' & D1 & D2 & D3 & D4).
         cbv zeta in E'. rewrite E'. cbn [fst snd].
         exists prod, setup, transfer, proc.
         rewrite N2, B2 in Hb.
         split; [reflexivity|]. split; [reflexivity|]. split; [exact Hb|].
         do 4 (split; [assumption|]).
         simpl. rewrite map_app, I2, N2, P2, A2. simpl. auto. }
  all: rewrite update_idle in H by (auto); inversion H; subst; left; auto.
Qed.

Lemma last_opt_snoc {A : Type} (l : list A) (a : A) :
  last_opt (l ++ [a]) = Some a.
Proof.
  induction l as [|b l IH]; simpl; [reflexivity|].
  destruct (l ++ [a]) eqn:E; [now destruct l | exact IH].
Qed.

Lemma last_opt_map {A B : Type} (f : A -> B) (l : list A) :
  last_opt (map f l) = option_map f (last_opt l).
Proof.
  destruct (snoc_cases l) as [->|(front & a & ->)]; [reflexivity|].
  rewrite map_app. simpl map. now rewrite !last_opt_snoc.
Qed.

Lemma last_product_last_opt (ps : list Product) :
  last_product ps = last_opt ps.
Proof.
  destruct (snoc_cases ps) as [->|(front & a & ->)]; [reflexivity|].
  now rewrite last_product_snoc, last_opt_snoc.
Qed.

Lemma ws1_chain_snoc ids i j :
  ws1_chain ids -> last_opt ids = Some i ->
  (exists b t, ws1_release i = Some b /\ snd j = Some t /\ fge t b = true) ->
  ws1_chain (ids ++ [j]).
Proof.
  induction ids as [|a ids IH]; intros C L H; [discriminate|].
  destruct ids as [|a' ids].
  - simpl in L. inversion L; subst. simpl. auto.
  - change (ws1_chain (a :: (a' :: ids) ++ [j])).
    simpl in C. destruct C as (C1 & C2).
    cbn [app ws1_chain]. split; [exact C1|].
    apply IH; auto.
Qed.

Lemma ws1_book_schedule ids busy next log t prod setup transfer proc :
  ws1_book ids busy next log -> fge t busy = true ->
  ws1_book (ids ++ [(next, prod, setup, transfer, proc, Some t)])
           (t + float_of_int prod + float_of_int setup + 1e-6)%float
           (next + 1)
           (log ++ [(next, prod, transfer, proc)]).
Proof.
  intros (Hp & Hn & Hl & Hc & i & Hi & Hb) Hf.
  assert (L : (1 <= length ids)%nat).
  { destruct ids; [discriminate | simpl; lia]. }
  unfold ws1_book. rewrite !map_app, length_app. simpl length.
  rewrite Nat.add_1_r. split; [|split; [|split; [|split]]].
  - rewrite seq_S, map_app, Hp. simpl. rewrite Hn. reflexivity.
  - lia.
  - simpl. now rewrite Hl.
  - eapply ws1_chain_snoc; eauto. exists busy, t. auto.
  - eexists. split; [apply last_opt_snoc|]. simpl.
    destruct (Z.eqb_spec next 1); [lia | reflexivity].
Qed.

Lemma reset_booked (g : RNG) : booked (snd (reset randint g)).
Proof.
  unfold reset, booked.
  destruct (schedule_next_eq randint g blank)
    as (g' & prod & setup & transfer & proc & E & _).
  cbv zeta in E. rewrite E. simpl. unfold ws1_book. simpl.
  repeat split. eexists. split; reflexivity.
Qed.

Lemma reachable_booked (w : World RNG) :
  reachable randint w -> booked (snd w).
Proof.
  induction 1 as [g|w o w' _ IH H]; [apply reset_booked|].
  destruct o; cbn [apply_op] in H; try (inversion H; subst; exact IH).
  - unfold booked in *.
    destruct (update_book _ _ _ H)
      as [(-> & -> & -> & ->)
         |(prod & setup & transfer & proc & _ & _ & Hf & _ & _ & _ & _
           & -> & -> & -> & ->)]; [exact IH|].
    cbv zeta in Hf. exact (ws1_book_schedule _ _ _ _ _ _ _ _ _ IH Hf).
  - inversion H; subst. apply reset_booked.
Qed.

End Bookkeeping.

Lemma reachable_ids {RNG : Type} (randint : Z -> Z -> RNG -> Z * RNG)
      (w : World RNG) :
  reachable randint w ->
  products (snd w) <> [] /\
  map pid (products (snd w)) =
    map Z.of_nat (seq 1 (length (products (snd w)))) /\
  next_pid (snd w) = Z.of_nat (length (products (snd w))) + 1 /\
  assigned_list (snd w) = map log_entry (products (snd w)).
Proof.
  intros R. apply reachable_booked in R.
  destruct R as (Hp & Hn & Hl & _ & i & Hi & _).
  rewrite length_map in *. split; [|split; [|split]].
  - intros E. rewrite E in Hi. discriminate.
  - rewrite <- Hp, map_map. apply map_ext. reflexivity.
  - rewrite Hn. lia.
  - rewrite Hl, map_map. apply map_ext. reflexivity.
Qed.

(** Ids count up from 1 in list order, [next_pid] is the next id, and the
    assignment log has exactly one entry per product, in the same order,
    with the durations the product carries; the product list is never
    empty. *)
Theorem ids_and_log {RNG : Type} (randint : Z -> Z -> RNG -> Z * RNG)
        (w : World RNG) :
  reachable randint w ->
  products (snd w) <> [] /\
  map pid (products (snd w)) =
    map Z.of_nat (seq 1 (length (products (snd w)))) /\
  next_pid (snd w) = Z.of_nat (length (products (snd w))) + 1 /\
  assigned_list (snd w) = map log_entry (products (snd w)).
Proof. exact (reachable_ids randint w). Qed.

Lemma ids_and_log_witness :
  map pid (products (snd demo_world)) = [1; 2] /\
  assigned_list (snd demo_world) = map log_entry (products (snd demo_world)).
Proof.
  destruct (ids_and_log lcg_randint demo_world demo_world_reachable)
    as (_ & H1 & _ & H2).
  split; [exact H1 | exact H2].
Defined.

Lemma ws1_chain_split ids1 i j ids2 :
  ws1_chain (ids1 ++ i :: j :: ids2) ->
  exists b t, ws1_release i = Some b /\ snd j = Some t /\ fge t b = true.
Proof.
  induction ids1 as [|a ids1 IH]; intros C.
  - simpl in C. tauto.
  - apply IH. change (ws1_chain (a :: (ids1 ++ i :: j :: ids2))) in C.
    destruct (ids1 ++ i :: j :: ids2) eqn:E; [now destruct ids1|].
    simpl in C. tauto.
Qed.

(** No overlap in WS1: of two consecutive products the second started
    production at a time that had reached the [ws1_busy_until] set for the
    first ([start + prod + setup], plus the nudge [1e-6] unless the first
    is the product [reset] scheduled); and [ws1_busy_until] is the value
    set for the last product. *)
Theorem ws1_no_overlap {RNG : Type} (randint : Z -> Z -> RNG -> Z * RNG)
        (w : World RNG) :
  reachable randint w ->
  (forall A p q B,
      products (snd w) = A ++ p :: q :: B ->
      exists t0 t1,
        t_prod_start p = Some t0 /\ t_prod_start q = Some t1 /\
        fge t1 (let b := (t0 + float_of_int (prod_time p)
                             + float_of_int (setup_time p))%float in
                if pid p =? 1 then b else (b + 1e-6)%float) = true) /\
  (exists l t0,
      last_product (products (snd w)) = Some l /\
      t_prod_start l = Some t0 /\
      ws1_busy_until (snd w) =
        (let b := (t0 + float_of_int (prod_time l)
                      + float_of_int (setup_time l))%float in
         if pid l =? 1 then b else (b + 1e-6)%float)).
Proof.
  intros R. apply reachable_booked in R.
  destruct R as (_ & _ & _ & Hc & i & Hi & Hb). split.
  - intros A p q B E. rewrite E, map_app in Hc. simpl in Hc.
    apply ws1_chain_split in Hc as (b & t & Hr & Ht & Hf).
    unfold ws1_release, identity_of in Hr. simpl in Ht.
    destruct (t_prod_start p) as [t0|] eqn:E0; [|discriminate].
    inversion Hr; subst b. exists t0, t. repeat split; auto.
  - rewrite last_opt_map in Hi. rewrite last_product_last_opt.
    destruct (last_opt (products (snd w))) as [l|]; [|discriminate].
    simpl in Hi. inversion Hi; subst i.
    unfold ws1_release, identity_of in Hb.
    destruct (t_prod_start l) as [t0|] eqn:E0; [|discriminate].
    inversion Hb. exists l, t0. repeat split; auto.
Qed.

Lemma ws1_no_overlap_witness :
  exists l t0,
    last_product (products (snd demo_world)) = Some l /\
    t_prod_start l = Some t0 /\
    ws1_busy_until (snd demo_world) =
      (let b := (t0 + float_of_int (prod_time l)
                    + float_of_int (setup_time l))%float in
       if pid l =? 1 then b else (b + 1e-6)%float).
Proof.
  exact (proj2 (ws1_no_overlap lcg_randint demo_world demo_world_reachable)).
Defined.

(** With a [random.randint] that keeps its contract, every product in a
    reachable state carries durations within the configured ranges. *)
Theorem durations_stay_in_range {RNG : Type}
        (randint : Z -> Z -> RNG -> Z * RNG) (w : World RNG) :
  randint_contract randint -> reachable randint w ->
  Forall durations_in_range (products (snd w)).
Proof.
  intros C R.
  set (D := fun i : Z * Z * Z * Z * Z * option float =>
              let '(_, prod, setup, transfer, proc, _) := i in
              PROD_MIN <= prod <= PROD_MAX /\
              SETUP_MIN <= setup <= SETUP_MAX /\
              TRANSFER_MIN <= transfer <= TRANSFER_MAX /\
              PROC_MIN <= proc <= PROC_MAX).
  assert (G : Forall D (map identity_of (products (snd w)))).
  { assert (R0 : forall g, Forall D (map identity_of
                                       (products (snd (reset randint g))))).
    { intros g. unfold reset.
      destruct (schedule_next_eq randint g blank)
        as (g' & prod & setup & transfer & proc & E & D1 & D2 & D3 & D4).
      cbv zeta in E. rewrite E. simpl. constructor; [|constructor].
      unfold D. subst. repeat split; apply C; discriminate. }
    induction R as [g|w o w' _ IH H]; [apply R0|].
    destruct o; cbn [apply_op] in H; try (inversion H; subst; exact IH).
    - destruct (update_book _ _ _ _ H)
        as [(-> & _)
           |(prod & setup & transfer & proc & _ & _ & _ & D1 & D2 & D3 & D4
             & -> & _)]; [exact IH|].
      apply Forall_app. split; [exact IH|]. constructor; [|constructor].
      unfold D. subst. repeat split; apply C; discriminate.
    - inversion H; subst. apply R0. }
  rewrite Forall_map in G. eapply Forall_impl; [|exact G].
  intros p Hp. exact Hp.
Qed.

Lemma durations_stay_in_range_witness :
  Forall durations_in_range (products (snd demo_world)).
Proof.
  exact (durations_stay_in_range lcg_randint demo_world
           lcg_randint_contract demo_world_reachable).
Defined.

(** ** Invariants block by block *)

Section BlockInvariants.

Context {RNG : Type} (randint : Z -> Z -> RNG -> Z * RNG).

(** A property that each block of [update] keeps, on states that satisfy
    the line invariant, is kept by the tick. *)
Lemma update_preserves (J : Simulation -> Prop) :
  (forall s t, J s -> J (set_now t s)) ->
  (forall s s', Inv s -> J s -> production_and_transfer s = Ok s' -> J s') ->
  (forall g s, Inv s -> J s -> J (snd (ws1_schedule_check randint (g, s)))) ->
  (forall s s', Inv s -> J s -> ws2_completion s = Ok s' -> J s') ->
  (forall s s', Inv s -> J s -> _try_start_ws2 s = Ok s' -> J s') ->
  forall dt g s w',
    Inv s -> J s -> update randint dt (g, s) = Ok w' -> J (snd w').
Proof.
  intros Hn HP HS HC HT dt g s w' I Js H.
  destruct (running s) eqn:Hr; [destruct (paused s) eqn:Hp|].
  2: { destruct (update_running_steps randint dt g s w' Hr Hp H)
         as (s2 & s4 & H2 & H4 & H5 & _). cbv zeta in *.
       set (s1 := set_now _ s) in *.
       assert (I1 : Inv s1) by exact I.
       assert (J1 : J s1) by (apply Hn; exact Js).
       destruct (production_and_transfer_Inv s1 I1) as (s2' & E2 & I2).
       rewrite H2 in E2. inversion E2; subst s2'. clear E2.
       pose proof (HP _ _ I1 J1 H2) as J2.
       pose proof (ws1_schedule_check_Inv randint g s2 I2) as I3.
       pose proof (HS g _ I2 J2) as J3.
       destruct (ws2_completion_Inv _ I3) as (s4' & E4 & I4).
       rewrite H4 in E4. inversion E4; subst s4'. clear E4.
       pose proof (HC _ _ I3 J3 H4) as J4.
       exact (HT _ _ I4 J4 H5). }
  all: rewrite update_idle in H by auto; inversion H; subst; exact Js.
Qed.

Lemma reachable_preserves (J : Simulation -> Prop) :
  (forall g, J (snd (reset randint g))) ->
  (forall s t, J s -> J (set_now t s)) ->
  (forall s v, J s -> J (set_speed v s)) ->
  (forall s b, J s -> J (set_running b s)) ->
  (forall s b, J s -> J (set_paused b s)) ->
  (forall s s', Inv s -> J s -> production_and_transfer s = Ok s' -> J s') ->
  (forall g s, Inv s -> J s -> J (snd (ws1_schedule_check randint (g, s)))) ->
  (forall s s', Inv s -> J s -> ws2_completion s = Ok s' -> J s') ->
  (forall s s', Inv s -> J s -> _try_start_ws2 s = Ok s' -> J s') ->
  forall w, reachable randint w -> J (snd w).
Proof.
  intros H0 Hn Hv Hr Hp HP HS HC HT w R.
  induction R as [g|w o w' R IH H]; [apply H0|].
  pose proof (reachable_Inv randint w R) as I.
  destruct w as [g s]. destruct o; cbn [apply_op fst snd] in *.
  - eapply update_preserves; eauto.
  - inversion H; subst. cbn. unfold start. auto.
  - inversion H; subst. cbn. unfold pause. auto.
  - inversion H; subst. cbn. unfold toggle_pause. auto.
  - inversion H; subst. apply H0.
  - inversion H; subst. cbn. auto.
Qed.

End BlockInvariants.

Lemma Forall_replace (Q Q' : Product -> Prop) p' ps :
  Forall Q ps ->
  (forall r, In r ps -> pid r <> pid p' -> Q r -> Q' r) ->
  Q' p' -> Forall Q' (replace p' ps).
Proof.
  intros F H Hp'. unfold replace. rewrite Forall_forall in *.
  intros r' Hr'. apply in_map_iff in Hr' as (r & <- & Hr).
  destruct (Z.eqb_spec (pid r) (pid p')); auto.
Qed.

(** ** Timestamps *)

Lemma advance_product_stamped c b t p q p' q' :
  stamped_in c b p -> advance_product t p q = Ok (p', q') ->
  stamped_in c b p'.
Proof.
  intros ((Ht & t0 & E0 & Hs) & Hl) H. apply advance_product_cases in H.
  destruct H as [(-> & _)|[(t0' & Es & E0' & Ed & _ & H)|[(Es & _ & -> & _)
                |(x0 & y0 & tx & ty & Es & _ & _ & _ & _ & H)]]].
  - split; [split; eauto | exact Hl].
  - cbv zeta in H. rewrite Ht in H. cbn [is_None] in H. destruct H as (-> & _).
    rewrite Es in Hs. destruct Hs as (_ & Hs1 & Hs2).
    rewrite E0 in E0'. inversion E0'; subst t0'.
    split; [split; [exact Ht | exists t0; split; [exact E0|]]|exact Hl].
    simpl. auto.
  - rewrite Es in Hs. contradiction.
  - cbv zeta in H. rewrite Es in Hs.
    match type of H with (if ?b then _ else _) => destruct b end;
      destruct H as (-> & _);
      (split; [split; [exact Ht | exists t0; split; [exact E0|]]|exact Hl]);
      simpl; rewrite ?Es; exact Hs.
Qed.

Lemma reachable_stamped {RNG : Type} (randint : Z -> Z -> RNG -> Z * RNG)
      (w : World RNG) :
  reachable randint w -> all_stamped (snd w).
Proof.
  apply (reachable_preserves randint all_stamped); unfold all_stamped;
    try (intros; assumption).
  - (* reset *)
    intros g. unfold reset.
    destruct (schedule_next_eq randint g blank)
      as (g' & prod & setup & transfer & proc & E & _).
    cbv zeta in E. rewrite E. simpl. constructor; [|constructor].
    split; [|discriminate]. split; [reflexivity|].
    eexists. split; [reflexivity|]. simpl. auto.
  - (* production and transfer *)
    intros s s' _ J H.
    pose proof (production_and_transfer_frame _ _ H)
      as (_ & _ & _ & _ & _ & _ & -> & -> & _).
    unfold production_and_transfer in H.
    destruct (advance_products _ _ _) as [[ps' q']|] eqn:E;
      cbn [bind fst snd] in H; [|discriminate].
    inversion H; subst. simpl.
    eapply advance_products_Forall; [|exact J|exact E].
    intros p q1 p' q2. apply advance_product_stamped.
  - (* scheduling *)
    intros g s I J.
    pose proof (ws1_schedule_check_frame randint g s) as F. cbv zeta in F.
    destruct F as (_ & _ & _ & _ & _ & _ & -> & ->).
    destruct (ws1_schedule_check_cases randint g s) as [->|(_ & _ & ->)];
      [exact J|].
    destruct (schedule_next_eq randint g s)
      as (g' & prod & setup & transfer & proc & E & _).
    cbv zeta in E. rewrite E. simpl. apply Forall_app. split; [exact J|].
    constructor; [|constructor]. split.
    + split; [reflexivity|]. eexists. split; [reflexivity|]. simpl. auto.
    + simpl. intros Hc. exfalso.
      pose proof (inv_current _ _ _ _ _ I _ Hc) as Hin.
      apply in_pids in Hin as (r & Hr & Er).
      destruct (linked_in _ _ _ _ _ r I Hr) as (_ & _ & _ & Hlt & _). lia.
  - (* completion *)
    intros s s' I J H.
    destruct (ws2_completion_spec s I)
      as [(E & _)|(p & Hp & Hc & Hst & _ & E)]; rewrite E in H;
      inversion H; subst s'; [exact J|].
    simpl. eapply Forall_replace; [exact J| |].
    + intros r _ _ (Hs & _). split; [exact Hs | discriminate].
    + rewrite Forall_forall in J. destruct (J p Hp) as ((Ht & t0 & E0 & Hs) & Hl).
      destruct (Hl Hc) as (t1 & E1 & Eb).
      rewrite Hst in Hs. destruct Hs as (Hd & _ & _).
      split; [|discriminate]. split; [exact Ht|].
      exists t0. split; [exact E0|]. simpl. split; [exact Hd|].
      exists t1. split; [exact E1|]. now rewrite Eb.
  - (* start of a WS2 job *)
    intros s s' I J H.
    destruct (try_start_ws2_spec s I)
      as [(E & _)|(p & rest & Hp & Hc & Hq & _ & Hst & E)]; rewrite E in H;
      inversion H; subst s'; [exact J|].
    simpl. eapply Forall_replace; [exact J| |].
    + intros r _ Hne (Hs & _). split; [exact Hs|].
      intros Hc'. inversion Hc'. simpl in Hne. congruence.
    + rewrite Forall_forall in J. destruct (J p Hp) as ((Ht & t0 & E0 & Hs) & _).
      rewrite Hst in Hs. destruct Hs as (Hd & _ & Hpd).
      split.
      * split; [exact Ht|]. exists t0. split; [exact E0|]. simpl.
        split; [exact Hd|]. split; [eauto | exact Hpd].
      * intros _. simpl. eauto.
Qed.

(** In every reachable state each product carries the timestamps of its
    state: production start always; production end, equal to start plus
    production time, from the transfer on; processing start from WS2 on;
    processing end, equal to processing start plus processing time, when
    finished; [t_transfer_done] never; no product is [waiting_ws1] or
    [produced]; and [ws2_busy_until] is the processing start plus the
    processing time of the product in WS2. *)
Theorem timestamps_consistent {RNG : Type}
        (randint : Z -> Z -> RNG -> Z * RNG) (w : World RNG) :
  reachable randint w ->
  Forall stamped (products (snd w)) /\
  (forall p, In p (products (snd w)) ->
             ws2_current_id (snd w) = Some (pid p) ->
             exists t1, t_proc_start p = Some t1 /\
                        ws2_busy_until (snd w) =
                        (t1 + float_of_int (proc_time p))%float).
Proof.
  intros R. apply reachable_stamped in R. unfold all_stamped in R. split.
  - eapply Forall_impl; [|exact R]. intros p (H & _). exact H.
  - intros p Hp Hc. rewrite Forall_forall in R.
    destruct (R p Hp) as (_ & H). exact (H Hc).
Qed.

Lemma timestamps_consistent_witness :
  Forall stamped (products (snd demo_world)).
Proof.
  exact (proj1 (timestamps_consistent lcg_randint demo_world
                  demo_world_reachable)).
Defined.

(** ** Order of the products through WS2 *)

Lemma staged_app A B :
  staged (A ++ B) <->
  staged A /\ staged B /\
  forall a b, In a A -> In b B -> (stage b <= stage a)%nat.
Proof.
  induction A as [|x A IH]; simpl.
  - split; [intros H; repeat split; auto; intros ? ? [] | tauto].
  - rewrite Forall_app, IH. split.
    + intros ((F1 & F2) & S1 & S2 & C). repeat split; auto.
      intros a b [<-|Ha] Hb; [|auto]. rewrite Forall_forall in F2. auto.
    + intros ((F1 & S1) & S2 & C). repeat split; auto.
      rewrite Forall_forall. intros b Hb. apply C; auto.
Qed.

Lemma replace_split A p B p' :
  NoDup (map pid (A ++ p :: B)) -> pid p' = pid p ->
  replace p' (A ++ p :: B) = A ++ p' :: B /\
  (forall a, In a A -> pid a <> pid p) /\
  (forall b, In b B -> pid b <> pid p).
Proof.
  intros ND E. rewrite map_app in ND. simpl in ND.
  pose proof (NoDup_remove_2 _ _ _ ND) as Hn.
  assert (HA : forall a, In a A -> pid a <> pid p).
  { intros a Ha Ea. apply Hn. apply in_or_app. left. rewrite <- Ea.
    now apply in_map. }
  assert (HB : forall b, In b B -> pid b <> pid p).
  { intros b Hb Eb. apply Hn. apply in_or_app. right. rewrite <- Eb.
    now apply in_map. }
  split; [|split; assumption].
  unfold replace. rewrite map_app. simpl. rewrite E, Z.eqb_refl. f_equal.
  - rewrite <- (map_id A) at 2. apply map_ext_in. intros a Ha.
    destruct (Z.eqb_spec (pid a) (pid p)); [exfalso; eapply HA; eauto | reflexivity].
  - f_equal. rewrite <- (map_id B) at 2. apply map_ext_in. intros b Hb.
    destruct (Z.eqb_spec (pid b) (pid p)); [exfalso; eapply HB; eauto | reflexivity].
Qed.

Lemma filter_none {A : Type} (P : A -> bool) (l : list A) :
  (forall a, In a l -> P a = false) -> filter P l = [].
Proof.
  induction l as [|a l IH]; simpl; intros H; [reflexivity|].
  rewrite (H a (or_introl eq_refl)). apply IH. auto.
Qed.

Lemma is_state_true st p : is_state st p = true <-> state p = st.
Proof. unfold is_state. apply state_eqb_eq. Qed.

Lemma is_state_false st p : state p <> st -> is_state st p = false.
Proof.
  intros H. destruct (is_state st p) eqn:E; [|reflexivity].
  apply is_state_true in E. contradiction.
Qed.

Lemma stage_settled p : settled p = true <-> (1 <= stage p)%nat.
Proof.
  unfold settled, stage. destruct (state p); split; intros H;
    try reflexivity; try discriminate; try lia.
Qed.

Lemma lined_up_production s s' :
  Inv s -> lined_up s -> production_and_transfer s = Ok s' -> lined_up s'.
Proof.
  intros I (S & Q & F) H. unfold production_and_transfer in H.
  destruct (advance_products_spec (now s) _ _ _ _ _ I)
    as [(E & Ea)|(l & l' & a & Hl & Hin & Ea & Hpid & _ & Hc)];
    rewrite Ea in H; cbn [bind fst snd] in H; inversion H; subst s'; clear H.
  - unfold lined_up. simpl. rewrite E in *. auto.
  - destruct (snoc_cases (products s)) as [E|(front & l0 & E)];
      [rewrite E in Hl; discriminate|].
    rewrite E in Hl. rewrite last_product_snoc in Hl. inversion Hl; subst l0.
    pose proof (inv_pids _ _ _ _ _ I) as ND.
    pose proof (inv_settled _ _ _ _ _ I) as St.
    rewrite E in ND, St, S, Q, F. rewrite removelast_last in St.
    unfold lined_up. simpl. rewrite E, (replace_snoc _ _ _ ND Hpid).
    rewrite !filter_app in *. simpl in *.
    apply staged_app in S as (S1 & _ & Sc).
    assert (Sx : (stage l' <= 1)%nat \/ l' = l).
    { destruct Hc as [(-> & _)|[(_ & _ & Es)|[(_ & _ & Es)|(_ & _ & Es)]]];
        auto; left; unfold stage; rewrite Es; lia. }
    split; [|split].
    + apply staged_app. split; [exact S1|]. split; [simpl; auto|].
      intros x b Hx [<-|[]]. rewrite Forall_forall in St.
      specialize (St x Hx). apply stage_settled in St.
      destruct Sx as [Sx| ->]; [lia|].
      apply Sc; [exact Hx | now left].
    + destruct Hc as [(-> & ->)|[(Es & -> & Es')|[(Es & -> & Es')|(Es & -> & Es')]]];
        rewrite ?app_nil_r; try exact Q;
        rewrite Q; unfold is_state; rewrite Es, Es'; simpl;
        rewrite ?app_nil_r; try reflexivity.
      rewrite map_app. simpl. now rewrite Hpid.
    + destruct Hc as [(-> & _)|[(Es & _ & Es')|[(Es & _ & Es')|(Es & _ & Es')]]];
        try exact F; rewrite F; unfold is_state; rewrite Es, Es'; reflexivity.
Qed.

Lemma lined_up_schedule {RNG : Type} (randint : Z -> Z -> RNG -> Z * RNG)
      g s :
  lined_up s -> lined_up (snd (ws1_schedule_check randint (g, s))).
Proof.
  intros (S & Q & F).
  destruct (ws1_schedule_check_cases randint g s) as [->|(_ & _ & ->)];
    [split; auto|].
  destruct (schedule_next_eq randint g s)
    as (g' & prod & setup & transfer & proc & E & _).
  cbv zeta in E. rewrite E. unfold lined_up. simpl.
  rewrite !filter_app. simpl. rewrite !app_nil_r.
  split; [|split; assumption].
  apply staged_app. split; [exact S|]. split; [simpl; auto|].
  intros a b _ [<-|[]]. unfold stage at 1. simpl. lia.
Qed.

Lemma lined_up_completion s s' :
  Inv s -> lined_up s -> ws2_completion s = Ok s' -> lined_up s'.
Proof.
  intros I (S & Q & F) H.
  destruct (ws2_completion_spec s I)
    as [(E & _)|(p & Hp & Hc & Hst & _ & E)]; rewrite E in H;
    inversion H; subst s'; clear H; [split; auto|].
  destruct (in_split _ _ Hp) as (A & B & EA).
  pose proof (inv_pids _ _ _ _ _ I) as ND. rewrite EA in ND.
  destruct (replace_split A p B
              (set_state finished (set_t_proc_done (ws2_busy_until s) p))
              ND eq_refl) as (ER & HA & HB).
  assert (NP : forall r, In r (products s) -> pid r <> pid p ->
                         state r <> processing_ws2).
  { intros r Hr Hne Hs. destruct (linked_in _ _ _ _ _ r I Hr) as (L1 & _).
    apply L1 in Hs. congruence. }
  rewrite EA in S, Q, F, NP. unfold lined_up. simpl. rewrite EA, ER.
  apply staged_app in S as (SA & SB & Sc). simpl in SB.
  destruct SB as (FB & SB).
  assert (Ps : stage p = 2%nat) by (unfold stage; now rewrite Hst).
  assert (HA3 : forall a, In a A -> stage a = 3%nat).
  { intros a Ha. specialize (Sc a p Ha (or_introl eq_refl)).
    assert (state a <> processing_ws2).
    { apply NP; [apply in_or_app; now left | auto]. }
    unfold stage in *. destruct (state a); try lia; congruence. }
  assert (HB1 : forall b, In b B -> (stage b <= 1)%nat).
  { intros b Hb. rewrite Forall_forall in FB. specialize (FB b Hb).
    assert (state b <> processing_ws2).
    { apply NP; [apply in_or_app; right; now right | auto]. }
    unfold stage in *. destruct (state b); try lia; congruence. }
  rewrite !filter_app in *. simpl in *.
  rewrite (is_state_false finished p) in F by congruence.
  rewrite (is_state_false in_queue_ws2 p) in Q by congruence.
  assert (FBn : filter (is_state finished) B = []).
  { apply filter_none. intros b Hb. apply is_state_false. intros Hs.
    specialize (HB1 b Hb). unfold stage in HB1. rewrite Hs in HB1. lia. }
  split; [|split].
  - apply staged_app. split; [exact SA|]. split.
    + simpl. split; [|exact SB]. rewrite Forall_forall. intros b Hb.
      unfold stage at 2. simpl. specialize (HB1 b Hb). lia.
    + intros a b Ha [<-|Hb].
      * rewrite (HA3 a Ha). unfold stage. simpl. lia.
      * apply Sc; [exact Ha | now right].
  - exact Q.
  - rewrite F, FBn in *. rewrite !app_nil_r, map_app. reflexivity.
Qed.

Lemma lined_up_try_start s s' :
  Inv s -> lined_up s -> _try_start_ws2 s = Ok s' -> lined_up s'.
Proof.
  intros I (S & Q & F) H.
  destruct (try_start_ws2_spec s I)
    as [(E & _)|(p & rest & Hp & Hc & Hq & _ & Hst & E)]; rewrite E in H;
    inversion H; subst s'; clear H; [split; auto|].
  destruct (in_split _ _ Hp) as (A & B & EA).
  pose proof (inv_pids _ _ _ _ _ I) as ND. rewrite EA in ND.
  destruct (replace_split A p B
              (set_state processing_ws2 (set_t_proc_start (now s) p))
              ND eq_refl) as (ER & HA & HB).
  rewrite EA in S, Q, F. unfold lined_up. simpl. rewrite EA, ER.
  apply staged_app in S as (SA & SB & Sc). simpl in SB.
  destruct SB as (FB & SB).
  assert (Ps : stage p = 1%nat) by (unfold stage; now rewrite Hst).
  rewrite !filter_app in *. simpl in *.
  rewrite (is_state_false finished p) in F by congruence.
  assert (Eq : is_state in_queue_ws2 p = true) by now apply is_state_true.
  rewrite Eq, Hq, map_app in Q. simpl in Q.
  assert (QA : filter (is_state in_queue_ws2) A = []).
  { destruct (filter (is_state in_queue_ws2) A) as [|a0 r] eqn:Ef;
      [reflexivity|exfalso].
    simpl in Q. inversion Q as [[E0 _]].
    assert (Ha0 : In a0 (filter (is_state in_queue_ws2) A))
      by (rewrite Ef; now left).
    apply filter_In in Ha0 as (Ha0 & _). apply (HA a0 Ha0). congruence. }
  rewrite QA in *. simpl in Q. inversion Q as [Qr].
  split; [|split].
  - apply staged_app. split; [exact SA|]. split.
    + simpl. split; [|exact SB]. rewrite Forall_forall. intros b Hb.
      unfold stage at 2. simpl. rewrite Forall_forall in FB.
      specialize (FB b Hb). lia.
    + intros a b Ha [<-|Hb].
      * specialize (Sc a p Ha (or_introl eq_refl)).
        assert (Na : is_state in_queue_ws2 a = false).
        { destruct (is_state in_queue_ws2 a) eqn:Ea; [|reflexivity].
          assert (In a (filter (is_state in_queue_ws2) A))
            by (apply filter_In; auto).
          rewrite QA in H. contradiction. }
        unfold stage at 1. simpl.
        unfold stage in *. unfold is_state in Na.
        destruct (state a); simpl in *; try lia; discriminate.
      * apply Sc; [exact Ha | now right].
  - simpl. reflexivity.
  - exact F.
Qed.

Lemma reachable_lined_up {RNG : Type} (randint : Z -> Z -> RNG -> Z * RNG)
      (w : World RNG) :
  reachable randint w -> lined_up (snd w).
Proof.
  apply (reachable_preserves randint lined_up); try (intros; assumption).
  - intros g. unfold reset.
    destruct (schedule_next_eq randint g blank)
      as (g' & prod & setup & transfer & proc & E & _).
    cbv zeta in E. rewrite E. unfold lined_up. simpl. auto.
  - exact lined_up_production.
  - intros g s _ J. now apply lined_up_schedule.
  - exact lined_up_completion.
  - exact lined_up_try_start.
Qed.

Lemma sorted_seq (a n : nat) :
  StronglySorted Z.lt (map Z.of_nat (seq a n)).
Proof.
  revert a. induction n as [|n IH]; intros a; simpl; constructor.
  - apply IH.
  - rewrite Forall_forall. intros z Hz.
    apply in_map_iff in Hz as (k & <- & Hk). apply in_seq in Hk. lia.
Qed.

Lemma sorted_filter_pids (P : Product -> bool) (ps : list Product) :
  StronglySorted Z.lt (map pid ps) ->
  StronglySorted Z.lt (map pid (filter P ps)).
Proof.
  induction ps as [|a ps IH]; simpl; intros H; [constructor|].
  inversion H as [|? ? Hs Hf]; subst.
  destruct (P a); [|auto]. simpl. constructor; [auto|].
  rewrite Forall_forall in *. intros z Hz. apply Hf.
  apply in_map_iff in Hz as (r & <- & Hr). apply filter_In in Hr as (Hr & _).
  now apply in_map.
Qed.

(** In every reachable state the products are lined up by progress through
    WS2: no product is further than one before it in the list; the queue
    holds exactly the ids of the products in [in_queue_ws2], and the
    finished list exactly the ids of the [finished] ones, both in the order
    of the product list, hence in increasing order of the ids: products
    are queued, processed and finished in the order they were made. *)
Theorem line_in_id_order {RNG : Type} (randint : Z -> Z -> RNG -> Z * RNG)
        (w : World RNG) :
  reachable randint w ->
  staged (products (snd w)) /\
  queue_ws2 (snd w) =
    map pid (filter (is_state in_queue_ws2) (products (snd w))) /\
  finished_ids (snd w) =
    map pid (filter (is_state finished) (products (snd w))) /\
  StronglySorted Z.lt (queue_ws2 (snd w)) /\
  StronglySorted Z.lt (finished_ids (snd w)) /\
  (forall p, In p (products (snd w)) ->
             (state p = in_queue_ws2 <-> In (pid p) (queue_ws2 (snd w))) /\
             (state p = finished <-> In (pid p) (finished_ids (snd w)))).
Proof.
  intros R. pose proof (reachable_Inv randint w R) as I.
  destruct (reachable_lined_up randint w R) as (S & Q & F).
  destruct (reachable_booked randint w R) as (Hp & _).
  assert (Sp : StronglySorted Z.lt (map pid (products (snd w)))).
  { replace (map pid (products (snd w)))
      with (map (fun i : Z * Z * Z * Z * Z * option float =>
                   fst (fst (fst (fst (fst i)))))
                (map identity_of (products (snd w))))
      by (rewrite map_map; apply map_ext; reflexivity).
    rewrite Hp. apply sorted_seq. }
  repeat (split; [assumption|]).
  split; [rewrite Q; now apply sorted_filter_pids|].
  split; [rewrite F; now apply sorted_filter_pids|].
  intros p Hp0. destruct (linked_in _ _ _ _ _ p I Hp0) as (_ & L2 & L3 & _).
  split; (split; [|assumption]).
  - intros Hs. rewrite Q. apply in_map. apply filter_In.
    split; [exact Hp0 | now apply is_state_true].
  - intros Hs. rewrite F. apply in_map. apply filter_In.
    split; [exact Hp0 | now apply is_state_true].
Qed.

Lemma line_in_id_order_witness :
  queue_ws2 (snd demo_world) =
    map pid (filter (is_state in_queue_ws2) (products (snd demo_world))).
Proof.
  exact (proj1 (proj2 (line_in_id_order lcg_randint demo_world
                         demo_world_reachable))).
Defined.

(** ** The lifecycle over a tick *)

Lemma Forall2_evolves_refl ps : Forall2 evolves ps ps.
Proof. induction ps; constructor; auto. split; [reflexivity | lia]. Qed.

Lemma Forall2_evolves_trans ps1 ps2 ps3 :
  Forall2 evolves ps1 ps2 -> Forall2 evolves ps2 ps3 ->
  Forall2 evolves ps1 ps3.
Proof.
  intros H. revert ps3. induction H as [|a b l1 l2 (E1 & R1) _ IH];
    intros ps3 H'; inversion H' as [|? c ? l3 (E2 & R2) H3]; subst;
    constructor; auto.
  split; [congruence | lia].
Qed.

Lemma advance_products_evolves t ps q ps' q' :
  advance_products t ps q = Ok (ps', q') -> Forall2 evolves ps ps'.
Proof.
  intros H. apply advance_products_Forall2 in H.
  induction H as [|p p' l l' (q1 & q2 & Hp) _ IH]; constructor; auto.
  split; [eapply advance_product_identity | eapply advance_product_rank];
    eauto.
Qed.

Lemma mutate_next_evolves c f ps p ps' :
  mutate_next c f ps = Ok (p, ps') -> evolves p (f p) ->
  Forall2 evolves ps ps'.
Proof.
  intros H E. apply mutate_next_split in H as (A & B & -> & -> & _ & _).
  apply Forall2_app; [apply Forall2_evolves_refl|].
  constructor; [exact E | apply Forall2_evolves_refl].
Qed.

Lemma In_replace p p' ps :
  In p ps -> pid p' = pid p -> In p' (replace p' ps).
Proof.
  intros H E. unfold replace. apply in_map_iff. exists p.
  split; [|exact H]. now rewrite E, Z.eqb_refl.
Qed.

Lemma In_replace_other r p' ps :
  In r ps -> pid r <> pid p' -> In r (replace p' ps).
Proof.
  intros H E. unfold replace. apply in_map_iff. exists r.
  split; [|exact H]. apply Z.eqb_neq in E. now rewrite E.
Qed.

(** A tick deletes no product and creates at most one; every product
    keeps its id, durations and production start, and its state after the
    tick is its state before or a later one of the lifecycle: no state is
    revisited. *)
Theorem lifecycle_monotone {RNG : Type} (randint : Z -> Z -> RNG -> Z * RNG)
        (dt : float) (w : World RNG) :
  reachable randint w ->
  exists w' ps1 extra,
    update randint dt w = Ok w' /\
    products (snd w') = ps1 ++ extra /\
    Forall2 evolves (products (snd w)) ps1 /\
    (length extra <= 1)%nat.
Proof.
  intros R. apply reachable_Inv in R. destruct w as [g s]. cbn [fst snd] in *.
  destruct (update_Inv randint dt g s R) as (w' & H & _).
  exists w'.
  destruct (running s) eqn:Hr; [destruct (paused s) eqn:Hp|].
  2: { destruct (update_running_steps randint dt g s w' Hr Hp H)
         as (s2 & s4 & H2 & H4 & H5 & _). cbv zeta in *.
       set (s1 := set_now _ s) in *.
       assert (I1 : Inv s1) by exact R.
       destruct (production_and_transfer_Inv s1 I1) as (s2' & E2 & I2).
       rewrite H2 in E2. inversion E2; subst s2'. clear E2.
       pose proof (ws1_schedule_check_Inv randint g s2 I2) as I3.
       destruct (ws2_completion_Inv _ I3) as (s4' & E4 & I4).
       rewrite H4 in E4. inversion E4; subst s4'. clear E4.
       (* production and transfer *)
       assert (F2 : Forall2 evolves (products s) (products s2)).
       { unfold production_and_transfer in H2.
         destruct (advance_products _ _ _) as [[ps' q']|] eqn:E;
           cbn [bind fst snd] in H2; [|discriminate].
         inversion H2; subst. simpl. eapply advance_products_evolves; eauto. }
       (* scheduling *)
       assert (F3 : exists e, products (snd (ws1_schedule_check randint (g, s2)))
                              = products s2 ++ e /\ (length e <= 1)%nat).
       { destruct (ws1_schedule_check_cases randint g s2) as [->|(_ & _ & ->)].
         - exists []. rewrite app_nil_r. simpl. auto.
         - destruct (schedule_next_eq randint g s2)
             as (g' & prod & setup & transfer & proc & E & _).
           cbv zeta in E. rewrite E. simpl. eexists. split; [reflexivity|].
           simpl. lia. }
       destruct F3 as (e & E3 & Le).
       set (s3 := snd (ws1_schedule_check randint (g, s2))) in *.
       (* completion *)
       assert (F4 : Forall2 evolves (products s3) (products s4)).
       { destruct (ws2_completion_spec s3 I3)
           as [(E & _)|(p & Hp3 & _ & Hst & _ & E)]; rewrite E in H4;
           inversion H4; subst s4; [apply Forall2_evolves_refl|].
         simpl. destruct (in_split _ _ Hp3) as (A & B & EA).
         pose proof (inv_pids _ _ _ _ _ I3) as ND. rewrite EA in ND.
         destruct (replace_split A p B
                     (set_state finished
                        (set_t_proc_done (ws2_busy_until s3) p))
                     ND eq_refl) as (ER & _ & _).
         rewrite EA, ER. apply Forall2_app; [apply Forall2_evolves_refl|].
         constructor; [|apply Forall2_evolves_refl].
         split; [reflexivity|]. rewrite Hst. simpl. lia. }
       (* start of a WS2 job *)
       assert (F5 : Forall2 evolves (products s4) (products (snd w'))).
       { destruct (try_start_ws2_spec s4 I4)
           as [(E & _)|(p & rest & Hp4 & _ & _ & _ & Hst & E)]; rewrite E in H5;
           inversion H5 as [E5]; [apply Forall2_evolves_refl|].
         simpl. destruct (in_split _ _ Hp4) as (A & B & EA).
         pose proof (inv_pids _ _ _ _ _ I4) as ND. rewrite EA in ND.
         destruct (replace_split A p B
                     (set_state processing_ws2 (set_t_proc_start (now s4) p))
                     ND eq_refl) as (ER & _ & _).
         rewrite EA, ER. apply Forall2_app; [apply Forall2_evolves_refl|].
         constructor; [|apply Forall2_evolves_refl].
         split; [reflexivity|]. rewrite Hst. simpl. lia. }
       pose proof (Forall2_evolves_trans _ _ _ F4 F5) as F35.
       rewrite E3 in F35.
       apply Forall2_app_inv_l in F35 as (l1 & l2 & G1 & G2 & EL).
       exists l1, l2. split; [exact H|]. split; [exact EL|]. split.
       - eapply Forall2_evolves_trans; eauto.
       - apply Forall2_length in G2. lia. }
  all: rewrite update_idle in H by auto; inversion H; subst;
    exists (products s), []; rewrite app_nil_r; cbn [snd];
    (split; [apply update_idle; auto|]); split; [reflexivity|];
    split; [apply Forall2_evolves_refl | simpl; lia].
Qed.

Lemma lifecycle_monotone_witness :
  exists w' ps1 extra,
    update lcg_randint 1 demo_world = Ok w' /\
    products (snd w') = ps1 ++ extra /\
    Forall2 evolves (products (snd demo_world)) ps1.
Proof.
  destruct (lifecycle_monotone lcg_randint 1 demo_world demo_world_reachable)
    as (w' & ps1 & extra & H1 & H2 & H3 & _).
  exists w', ps1, extra. auto.
Defined.

(** ** WS2 is never idle while a product waits *)

(** In every reachable state, if no product is in WS2 then the queue is
    empty: each running tick ends with [_try_start_ws2], which fills a free
    WS2 from the queue. *)
Theorem ws2_work_conserving {RNG : Type}
        (randint : Z -> Z -> RNG -> Z * RNG) (w : World RNG) :
  reachable randint w ->
  ws2_current_id (snd w) = None -> queue_ws2 (snd w) = [].
Proof.
  induction 1 as [g|w o w' R IH H].
  - intros _. apply reset_queue.
  - pose proof (reachable_Inv randint w R) as I.
    destruct w as [g s]. destruct o; cbn [apply_op fst snd] in *;
      try (inversion H; subst; cbn; exact IH).
    + destruct (running s) eqn:Hr; [destruct (paused s) eqn:Hp|].
      2: { destruct (update_running_steps randint dt_real_seconds g s w' Hr Hp H)
             as (s2 & s4 & H2 & H4 & H5 & _). cbv zeta in *.
           set (s1 := set_now _ s) in *.
           assert (I1 : Inv s1) by exact I.
           destruct (production_and_transfer_Inv s1 I1) as (s2' & E2 & I2).
           rewrite H2 in E2. inversion E2; subst s2'. clear E2.
           pose proof (ws1_schedule_check_Inv randint g s2 I2) as I3.
           destruct (ws2_completion_Inv _ I3) as (s4' & E4 & I4).
           rewrite H4 in E4. inversion E4; subst s4'. clear E4.
           destruct (try_start_ws2_spec s4 I4)
             as [(E & _ & [N|N])|(p & rest & _ & _ & _ & _ & _ & E)];
             rewrite E in H5; injection H5 as E5; intros Hc.
           - rewrite <- E5 in Hc. contradiction.
           - now rewrite <- E5.
           - rewrite <- E5 in Hc. discriminate. }
      all: rewrite update_idle in H by auto; inversion H; subst; exact IH.
    + inversion H; subst. intros _. apply reset_queue.
Qed.

Lemma ws2_free_world_reachable : reachable lcg_randint ws2_free_world.
Proof.
  apply (reachable_run lcg_randint [OpTick 40] demo_world);
    [exact demo_world_reachable|].
  vm_compute. reflexivity.
Qed.

Lemma ws2_work_conserving_witness :
  finished_ids (snd ws2_free_world) = [1] /\
  ws2_current_id (snd ws2_free_world) = None /\
  queue_ws2 (snd ws2_free_world) = [].
Proof.
  split; [reflexivity|]. split; [reflexivity|].
  apply (ws2_work_conserving lcg_randint ws2_free_world).
  - exact ws2_free_world_reachable.
  - reflexivity.
Defined.

(** ** The transfer *)

Lemma track_not_arrived k :
  (k < 99)%nat -> arrived (track (S k)) = false.
Proof.
  intros H.
  assert (A : forallb (fun k => negb (arrived (track (S k)))) (seq 0 99) = true)
    by (vm_compute; reflexivity).
  rewrite forallb_forall in A. specialize (A k).
  apply negb_true_iff. apply A. apply in_seq. lia.
Qed.

Lemma track_arrived : arrived (track 100) = true.
Proof. vm_compute. reflexivity. Qed.

(** One tick of a transfer.  A transferring product at position [k < 100]
    of the track is moved to position [k + 1]; it stays in transfer unless
    this is position 100, where it is queued: the transfer takes exactly
    100 ticks of the loop, whatever the time elapsed and whatever
    [transfer_time]. *)
Theorem transfer_takes_100_ticks (t : float) (p : Product) (q : list Z)
        (k : nat) :
  state p = transferring ->
  target_x p = Some (fst (center_f WS2_RECT)) ->
  target_y p = Some (snd (center_f WS2_RECT)) ->
  at_track k p -> (k < 100)%nat ->
  advance_product t p q =
  Ok (if (k =? 99)%nat
      then (set_state in_queue_ws2 (set_xy (track 100) p), q ++ [pid p])
      else (set_xy (track (S k)) p, q)).
Proof.
  intros Hs Htx Hty (Hx & Hy) Hk. unfold advance_product.
  rewrite Hs. cbn [state_eqb bind andb]. rewrite Hs. cbn [state_eqb andb].
  rewrite Htx, Hx, Hty, Hy. cbn [attribute number bind].
  change (PrimFloat.ltb
            (abs (fst (track k) +
                  (fst (center_f WS2_RECT) - fst (track k)) * 0.05 -
                  fst (center_f WS2_RECT))) 2 &&
          PrimFloat.ltb
            (abs (snd (track k) +
                  (snd (center_f WS2_RECT) - snd (track k)) * 0.05 -
                  snd (center_f WS2_RECT))) 2)
    with (arrived (track (S k))).
  change (fst (track k) + (fst (center_f WS2_RECT) - fst (track k)) * 0.05,
          snd (track k) + (snd (center_f WS2_RECT) - snd (track k)) * 0.05)%float
    with (track (S k)).
  destruct (Nat.eqb_spec k 99) as [->|Hne].
  - rewrite track_arrived. reflexivity.
  - rewrite track_not_arrived by lia. reflexivity.
Qed.

Lemma transfer_takes_100_ticks_witness :
  let p := set_target (center_f WS2_RECT)
             (set_state transferring
                (set_xy (track 99) (Product_init 5 70 10 8 40))) in
  advance_product 0 p [] =
  Ok (set_state in_queue_ws2 (set_xy (track 100) p), [5]).
Proof.
  intros p.
  apply (transfer_takes_100_ticks 0 p [] 99); try reflexivity.
  - split; reflexivity.
  - lia.
Defined.

Lemma advance_product_on_track t p q p' q' :
  on_track p -> advance_product t p q = Ok (p', q') -> on_track p'.
Proof.
  intros (H0 & H1) H. apply advance_product_cases in H.
  destruct H as [(-> & _)|[(t0 & Es & _ & _ & _ & H)|[(Es & _ & -> & _)
                |(x0 & y0 & tx & ty & Es & Ex & Ey & Etx & Ety & H)]]].
  - split; assumption.
  - cbv zeta in H. destruct H as (-> & _).
    specialize (H0 (or_introl Es)).
    destruct (is_None (t_transfer_done p)); split; simpl; intros Hs;
      try discriminate; try (destruct Hs; discriminate).
    + repeat split. exists 0%nat. split; [lia | exact H0].
    + exact H0.
  - specialize (H0 (or_intror Es)). split; simpl; intros Hs;
      [destruct Hs; discriminate|].
    repeat split. exists 0%nat. split; [lia | exact H0].
  - destruct (H1 Es) as (Tx & Ty & k & Hk & Kx & Ky).
    rewrite Etx in Tx. rewrite Ety in Ty. rewrite Ex in Kx. rewrite Ey in Ky.
    inversion Tx; inversion Ty; inversion Kx; inversion Ky; subst.
    cbv zeta in H.
    match type of H with
    | (if ?b then _ else _) => change b with (arrived (track (S k))) in H
    end.
    destruct (arrived (track (S k))) eqn:Ea; destruct H as (-> & _).
    + split; simpl; intros Hs; [destruct Hs; discriminate | discriminate].
    + split; simpl; intros Hs; [rewrite Es in Hs; destruct Hs; discriminate|].
      split; [exact Etx|]. split; [exact Ety|].
      exists (S k). split; [|split; reflexivity].
      destruct (Nat.eq_dec (S k) 100) as [E|]; [|lia].
      rewrite E, track_arrived in Ea. discriminate.
Qed.

Lemma reachable_on_track {RNG : Type} (randint : Z -> Z -> RNG -> Z * RNG)
      (w : World RNG) :
  reachable randint w -> Forall on_track (products (snd w)).
Proof.
  apply (reachable_preserves randint (fun s => Forall on_track (products s)));
    try (intros; assumption).
  - intros g. unfold reset.
    destruct (schedule_next_eq randint g blank)
      as (g' & prod & setup & transfer & proc & E & _).
    cbv zeta in E. rewrite E. simpl. constructor; [|constructor].
    split; simpl; [intros _; split; reflexivity | discriminate].
  - intros s s' _ J H. unfold production_and_transfer in H.
    destruct (advance_products _ _ _) as [[ps' q']|] eqn:E;
      cbn [bind fst snd] in H; [|discriminate].
    inversion H; subst. simpl.
    eapply advance_products_Forall; [|exact J|exact E].
    intros p q1 p' q2. apply advance_product_on_track.
  - intros g s _ J.
    destruct (ws1_schedule_check_cases randint g s) as [->|(_ & _ & ->)];
      [exact J|].
    destruct (schedule_next_eq randint g s)
      as (g' & prod & setup & transfer & proc & E & _).
    cbv zeta in E. rewrite E. simpl. apply Forall_app. split; [exact J|].
    constructor; [|constructor].
    split; simpl; [intros _; split; reflexivity | discriminate].
  - intros s s' I J H.
    destruct (ws2_completion_spec s I)
      as [(E & _)|(p & _ & _ & _ & _ & E)]; rewrite E in H;
      inversion H; subst s'; [exact J|].
    simpl. eapply Forall_replace; [exact J|auto|].
    split; simpl; intros Hs; [destruct Hs; discriminate | discriminate].
  - intros s s' I J H.
    destruct (try_start_ws2_spec s I)
      as [(E & _)|(p & rest & _ & _ & _ & _ & _ & E)]; rewrite E in H;
      inversion H; subst s'; [exact J|].
    simpl. eapply Forall_replace; [exact J|auto|].
    split; simpl; intros Hs; [destruct Hs; discriminate | discriminate].
Qed.

(** In every reachable state a product in production sits at the centre of
    WS1, and a product in transfer is aimed at the centre of WS2 and sits
    at one of the first 100 positions of the track between the two. *)
Theorem products_on_track {RNG : Type} (randint : Z -> Z -> RNG -> Z * RNG)
        (w : World RNG) :
  reachable randint w -> Forall on_track (products (snd w)).
Proof. exact (reachable_on_track randint w). Qed.

Lemma products_on_track_witness :
  Forall on_track (products (snd demo_world)).
Proof.
  exact (products_on_track lcg_randint demo_world demo_world_reachable).
Defined.

(** * The window *)

(** ** Clicks and keys *)

Lemma collidepoint_iff (r : Rect) (px py : Z) :
  collidepoint r px py = true <->
  left r <= px < left r + width r /\ top r <= py < top r + height r.
Proof.
  unfold collidepoint. rewrite !andb_true_iff, !Z.leb_le, !Z.ltb_lt. tauto.
Qed.

Ltac miss_button Hc :=
  match goal with
  | |- context [collidepoint ?b ?mx ?my] =>
      replace (collidepoint b mx my) with false
        by (symmetry; apply not_true_iff_false; intros C;
            apply collidepoint_iff in C; apply collidepoint_iff in Hc;
            cbn in C, Hc; lia)
  end.

(** A left click acts as the one button that contains the point: the
    buttons do not overlap, so the order of the tests in [main] plays no
    part; a click outside every button, or with another mouse button, does
    nothing. *)
Theorem click_hits_one_button {RNG : Type}
        (randint : Z -> Z -> RNG -> Z * RNG)
        (mx my : Z) (loop : bool) (w : World RNG) :
  (forall r e, In (r, e) buttons -> collidepoint r mx my = true ->
               main_handle randint (MOUSEBUTTONDOWN 1 (mx, my)) (loop, w) =
               (loop, handle_event randint e w)) /\
  ((forall r e, In (r, e) buttons -> collidepoint r mx my = false) ->
   main_handle randint (MOUSEBUTTONDOWN 1 (mx, my)) (loop, w) = (loop, w)) /\
  (forall b, b <> 1 ->
             main_handle randint (MOUSEBUTTONDOWN b (mx, my)) (loop, w) =
             (loop, w)).
Proof.
  destruct w as [g s]. split; [|split].
  - intros r e Hin Hc. unfold main_handle. cbn [Z.eqb Pos.eqb].
    simpl in Hin.
    destruct Hin as [H|[H|[H|[H|[H|[H|[H|[H|[]]]]]]]]]; inversion H; subst r e;
      rewrite ?Hc; repeat (miss_button Hc; cbn iota); rewrite ?Hc;
      reflexivity.
  - intros H. unfold main_handle. cbn [Z.eqb Pos.eqb].
    rewrite (H btn_start click_start), (H btn_pause click_pause),
      (H btn_stop click_stop), (H btn_1x click_1x), (H btn_2x click_2x),
      (H btn_5x click_5x), (H btn_10x click_10x), (H btn_20x click_20x);
      simpl; auto 10.
  - intros b Hb. unfold main_handle. apply Z.eqb_neq in Hb. now rewrite Hb.
Qed.

Lemma click_hits_one_button_witness :
  main_handle lcg_randint (MOUSEBUTTONDOWN 1 (850, 90))
              (true, reset lcg_randint 7) =
  (true, handle_event lcg_randint click_5x (reset lcg_randint 7)).
Proof.
  apply (proj1 (click_hits_one_button lcg_randint 850 90 true
                  (reset lcg_randint 7)) btn_5x click_5x).
  - simpl. auto 10.
  - reflexivity.
Defined.

Lemma main_handle_cases {RNG : Type} (randint : Z -> Z -> RNG -> Z * RNG)
      (ev : PgEvent) (loop : bool) (w : World RNG) :
  (fst (main_handle randint ev (loop, w)) =
   match ev with QUIT => false | _ => loop end) /\
  (snd (main_handle randint ev (loop, w)) = w \/
   exists e, snd (main_handle randint ev (loop, w)) = handle_event randint e w).
Proof.
  destruct w as [g s]. destruct ev as [|button [mx my]|key|]; cbn [main_handle].
  - auto.
  - destruct (button =? 1); [|auto].
    repeat match goal with
           | |- context [if collidepoint ?b mx my then _ else _] =>
               destruct (collidepoint b mx my)
           end; split; try reflexivity.
    + right. now exists click_start.
    + right. now exists click_pause.
    + right. now exists click_stop.
    + right. now exists click_1x.
    + right. now exists click_2x.
    + right. now exists click_5x.
    + right. now exists click_10x.
    + right. now exists click_20x.
    + now left.
  - repeat match goal with
           | |- context [if ?k =? ?c then _ else _] => destruct (k =? c)
           end; split; try reflexivity.
    + right. now exists K_SPACE.
    + right. now exists K_s.
    + right. now exists K_1.
    + right. now exists K_2.
    + right. now exists K_3.
    + right. now exists K_4.
    + right. now exists K_5.
    + now left.
  - auto.
Qed.

(** One pass of the loop of [main], from a state the window can be in:
    the update returns normally, the state after it is again one the
    window can be in, and the loop flag is cleared exactly when a [QUIT]
    was among the events, the other events of the pass and its update
    being carried out all the same. *)
Theorem main_iteration_safe {RNG : Type}
        (randint : Z -> Z -> RNG -> Z * RNG)
        (events : list PgEvent) (dt_real : float) (w : World RNG) :
  ui_reachable randint w ->
  exists w',
    main_iteration randint events dt_real (true, w) =
    Ok (forallb (fun ev => match ev with QUIT => false | _ => true end) events,
        w') /\
    ui_reachable randint w' /\
    update randint dt_real
           (snd (fold_left (fun st ev => main_handle randint ev st) events
                           (true, w))) = Ok w'.
Proof.
  intros R. unfold main_iteration.
  assert (G : forall loop, exists w1,
             fold_left (fun st ev => main_handle randint ev st) events (loop, w)
             = (loop && forallb (fun ev => match ev with QUIT => false | _ => true end)
                               events, w1) /\
             ui_reachable randint w1).
  { revert w R. induction events as [|ev evs IH]; intros w R loop;
      cbn [fold_left forallb].
    - exists w. rewrite andb_true_r. auto.
    - destruct (main_handle_cases randint ev loop w) as (Hf & Hs).
      destruct (main_handle randint ev (loop, w)) as [loop1 w1] eqn:E.
      cbn [fst snd] in Hf, Hs.
      assert (R1 : ui_reachable randint w1).
      { destruct Hs as [->|(e & ->)]; [exact R|].
        now apply ui_reachable_event. }
      destruct (IH w1 R1 loop1) as (w2 & E2 & R2).
      exists w2. split; [|exact R2]. rewrite E2. f_equal.
      subst loop1. destruct ev; simpl; rewrite ?andb_false_r; reflexivity. }
  destruct (G true) as (w1 & E & R1). rewrite E. cbn [fst snd andb].
  pose proof (reachable_Inv randint w1 (ui_reachable_reachable randint w1 R1))
    as I.
  destruct w1 as [g1 s1].
  destruct (update_Inv randint dt_real g1 s1 I) as (w' & H & _).
  exists w'. rewrite H. cbn [bind]. split; [reflexivity|].
  split; [|reflexivity].
  eapply ui_reachable_tick; eauto.
Qed.

Lemma main_iteration_safe_witness :
  exists w',
    main_iteration lcg_randint
      [KEYDOWN 32; QUIT; MOUSEBUTTONDOWN 1 (1050, 85)] 1
      (true, reset lcg_randint 7) = Ok (false, w') /\
    ui_reachable lcg_randint w'.
Proof.
  destruct (main_iteration_safe lcg_randint
              [KEYDOWN 32; QUIT; MOUSEBUTTONDOWN 1 (1050, 85)] 1
              (reset lcg_randint 7) (ui_reachable_reset lcg_randint 7))
    as (w' & H & R & _).
  exists w'. split; [exact H | exact R].
Defined.

(** ** The workshop panel *)

Lemma track_int_ok (k : nat) :
  (k < 100)%nat ->
  exists ix iy,
    py_int (Some (fst (track k))) = Done ix /\
    py_int (Some (snd (track k))) = Done iy /\
    730 <= ix <= 1057 /\ 250 <= iy <= 254.
Proof.
  intros H.
  assert (A : forallb
                (fun k =>
                   match py_int (Some (fst (track k))),
                         py_int (Some (snd (track k))) with
                   | Done ix, Done iy =>
                       (730 <=? ix) && (ix <=? 1057) &&
                       (250 <=? iy) && (iy <=? 254)
                   | _, _ => false
                   end) (seq 0 100) = true) by (vm_compute; reflexivity).
  rewrite forallb_forall in A. specialize (A k).
  destruct (py_int (Some (fst (track k)))) as [ix|].
  2: { exfalso. assert (false = true) by (apply A, in_seq; lia). discriminate. }
  destruct (py_int (Some (snd (track k)))) as [iy|].
  - exists ix, iy. repeat (split; [reflexivity|]).
    assert (B : (730 <=? ix) && (ix <=? 1057) && (250 <=? iy) && (iy <=? 254)
                = true) by (apply A, in_seq; lia).
    rewrite !andb_true_iff, !Z.leb_le in B. lia.
  - exfalso. assert (false = true) by (apply A, in_seq; lia). discriminate.
Qed.

Lemma assigned_rows_no_circle x0 y0 l :
  filter is_circle (assigned_rows x0 y0 l) = [].
Proof.
  revert y0. induction l as [|[[[a b] c] d] l IH]; intros y0; simpl; auto.
Qed.

Lemma assigned_rows_length x0 y0 l :
  length (assigned_rows x0 y0 l) = length l.
Proof.
  revert y0. induction l as [|[[[a b] c] d] l IH]; intros y0; simpl; auto.
Qed.

Lemma workshop_panel_marker {RNG : Type}
      (randint : Z -> Z -> RNG -> Z * RNG) (w : World RNG) :
  reachable randint w ->
  exists l marker,
    last_product (products (snd w)) = Some l /\
    workshop_marker l = Done marker.
Proof.
  intros R.
  pose proof (reachable_Inv randint w R) as I.
  pose proof (reachable_on_track randint w R) as T.
  destruct (reachable_ids randint w R) as (Hne & _).
  destruct (last_product (products (snd w))) as [l|] eqn:El.
  2: { destruct (snoc_cases (products (snd w))) as [E|(front & a & E)];
         [contradiction|]. rewrite E, last_product_snoc in El. discriminate. }
  pose proof (last_product_in _ _ El) as Hl.
  destruct (linked_in _ _ _ _ _ l I Hl) as (_ & _ & _ & _ & W).
  rewrite Forall_forall in T. destruct (T l Hl) as (_ & T1).
  exists l. unfold workshop_marker.
  destruct W as (_ & _ & _ & _ & [Es|[Es|(Es & _)]]).
  - rewrite Es. eexists. split; reflexivity.
  - apply settled_state in Es. destruct Es as [Es|[Es|Es]]; rewrite Es;
      eexists; split; reflexivity.
  - rewrite Es. destruct (T1 Es) as (_ & _ & k & Hk & Hx & Hy).
    destruct (track_int_ok k Hk) as (ix & iy & Ex & Ey & _).
    rewrite Hx, Hy, Ex, Ey. eexists. split; reflexivity.
Qed.

(** The workshop panel marks one product only, the last of the list (the
    tests on [p.state] stand after the loop): on a reachable state the
    drawing returns normally and the circles it draws are the blue one in
    WS1 when that product is in production, the red one in WS2 when it is
    in WS2, a pink one between the two workshops when it is in transfer,
    and none otherwise.  So the red marker of WS2 is drawn exactly when
    the product in WS2 is the newest product. *)
Theorem workshop_panel_marks_last {RNG : Type}
        (randint : Z -> Z -> RNG -> Z * RNG) (w : World RNG) :
  reachable randint w ->
  exists l cmds,
    last_product (products (snd w)) = Some l /\
    draw_workshops_and_assign (snd w) = Done cmds /\
    match state l with
    | producing_ws1 =>
        filter is_circle cmds = [DrawCircle BLUE (730, 250) 14]
    | transferring =>
        exists ix iy,
          filter is_circle cmds = [DrawCircle LIGHT_PINK (ix, iy) 12] /\
          730 <= ix <= 1057 /\ 250 <= iy <= 254
    | processing_ws2 =>
        filter is_circle cmds = [DrawCircle RED (1060, 255) 14]
    | _ => filter is_circle cmds = []
    end /\
    (ws2_current_id (snd w) = Some (pid l) <->
     In (DrawCircle RED (1060, 255) 14) cmds).
Proof.
  intros R.
  pose proof (reachable_Inv randint w R) as I.
  pose proof (reachable_on_track randint w R) as T.
  destruct (reachable_ids randint w R) as (Hne & _).
  destruct (last_product (products (snd w))) as [l|] eqn:El.
  2: { destruct (snoc_cases (products (snd w))) as [E|(front & a & E)];
         [contradiction|]. rewrite E, last_product_snoc in El. discriminate. }
  pose proof (last_product_in _ _ El) as Hl.
  destruct (linked_in _ _ _ _ _ l I Hl) as (L1 & _ & _ & _ & W).
  rewrite Forall_forall in T. destruct (T l Hl) as (_ & T1).
  assert (M : exists marker,
             workshop_marker l = Done marker /\
             match state l with
             | producing_ws1 => marker = [DrawCircle BLUE (730, 250) 14;
                 Blit ("Consolas"%string, 14) (label_of l) BLACK (718, 242)]
             | transferring =>
                 exists ix iy,
                   marker = [DrawCircle LIGHT_PINK (ix, iy) 12;
                     Blit ("Consolas"%string, 14) (label_of l) BLACK
                          (ix - 12, iy - 8)] /\
                   730 <= ix <= 1057 /\ 250 <= iy <= 254
             | processing_ws2 => marker = [DrawCircle RED (1060, 255) 14;
                 Blit ("Consolas"%string, 14) (label_of l) BLACK (1048, 247)]
             | _ => marker = []
             end).
  { unfold workshop_marker.
    destruct W as (_ & _ & _ & _ & [Es|[Es|(Es & _)]]).
    - rewrite Es. eexists. split; reflexivity.
    - apply settled_state in Es. destruct Es as [Es|[Es|Es]]; rewrite Es;
        eexists; split; reflexivity.
    - rewrite Es. destruct (T1 Es) as (_ & _ & k & Hk & Hx & Hy).
      destruct (track_int_ok k Hk) as (ix & iy & Ex & Ey & Bx & By).
      rewrite Hx, Hy, Ex, Ey. eexists. split; [reflexivity|].
      exists ix, iy. auto. }
  destruct M as (marker & EM & HM).
  assert (D : exists cmds,
             draw_workshops_and_assign (snd w) = Done cmds /\
             filter is_circle cmds = filter is_circle marker).
  { unfold draw_workshops_and_assign. rewrite El, EM.
    eexists. split; [reflexivity|].
    rewrite !filter_app, assigned_rows_no_circle, app_nil_r.
    cbn [filter is_circle app]. now rewrite ?app_nil_r. }
  destruct D as (cmds & ED & EF).
  exists l, cmds. split; [reflexivity|]. split; [exact ED|].
  assert (RED_in : In (DrawCircle RED (1060, 255) 14) cmds <->
                   In (DrawCircle RED (1060, 255) 14) marker).
  { split; intros Hin.
    - assert (X : In (DrawCircle RED (1060, 255) 14) (filter is_circle cmds))
        by (apply filter_In; auto).
      rewrite EF in X. now apply filter_In in X.
    - assert (X : In (DrawCircle RED (1060, 255) 14)
                     (filter is_circle marker)) by (apply filter_In; auto).
      rewrite <- EF in X. now apply filter_In in X. }
  rewrite RED_in, <- L1, EF. clear RED_in EF ED EM T1 L1.
  destruct (state l).
  all: try (rewrite HM; split; [reflexivity|]; split;
            [discriminate|intros Hin; simpl in Hin; tauto]).
  all: try (rewrite HM; split; [reflexivity|]; split;
            [discriminate|
             intros [Hin|[Hin|[]]]; discriminate]).
  - destruct HM as (ix & iy & -> & B). split.
    + exists ix, iy. split; [reflexivity|exact B].
    + split; [discriminate|intros [Hin|[Hin|[]]]; discriminate].
  - rewrite HM. split; [reflexivity|]. split; [intros _; now left|reflexivity].
Qed.

Lemma workshop_panel_marks_last_witness :
  exists l cmds,
    last_product (products (snd demo_world)) = Some l /\
    draw_workshops_and_assign (snd demo_world) = Done cmds /\
    (ws2_current_id (snd demo_world) = Some (pid l) <->
     In (DrawCircle RED (1060, 255) 14) cmds).
Proof.
  destruct (workshop_panel_marks_last lcg_randint demo_world
              demo_world_reachable) as (l & cmds & H1 & H2 & _ & H3).
  exists l, cmds. auto.
Defined.

Lemma slice_last (n : Z) {A : Type} (l : list A) :
  0 < n ->
  slice_from (- n) l = skipn (length l - Z.to_nat n) l.
Proof.
  intros H. unfold slice_from.
  destruct (- n <? 0) eqn:E; [|apply Z.ltb_ge in E; lia].
  cbv zeta.
  replace (Z.to_nat (Z.max 0 (Z.of_nat (length l) + - n)))
    with (length l - Z.to_nat n)%nat by lia.
  reflexivity.
Qed.

Lemma assigned_rows_pos x0 y0 l f t c px py :
  In (Blit f t c (px, py)) (assigned_rows x0 y0 l) ->
  px = x0 /\ y0 <= py <= y0 + 18 * (Z.of_nat (length l) - 1).
Proof.
  revert y0. induction l as [|[[[a b] c0] d] l IH]; intros y0;
    [simpl; contradiction|].
  cbn [assigned_rows In length]. rewrite Nat2Z.inj_succ. intros [H|H].
  - inversion H; subst. lia.
  - apply IH in H. lia.
Qed.

(** The list under [Assigned times] shows the log lines of the newest
    products, 21 at most, oldest first, and every line lies inside the
    panel: when more than 21 products have been scheduled the older ones
    are no longer listed. *)
Theorem assigned_panel_shows_newest {RNG : Type}
        (randint : Z -> Z -> RNG -> Z * RNG) (w : World RNG) :
  reachable randint w ->
  let ps := products (snd w) in
  let rows :=
    assigned_rows 614 396 (map log_entry (skipn (length ps - 21) ps)) in
  (exists front, draw_workshops_and_assign (snd w) = Done (front ++ rows)) /\
  length rows = Nat.min (length ps) 21 /\
  forall f t c px py,
    In (Blit f t c (px, py)) rows ->
    px = 614 /\ 396 <= py /\ py + 18 <= bottom SECTION4_RECT.
Proof.
  intros R ps rows.
  destruct (workshop_panel_marker randint w R) as (l & marker & El & EM).
  destruct (reachable_ids randint w R) as (_ & _ & _ & Elog).
  assert (Hlen : length rows = Nat.min (length ps) 21).
  { unfold rows. rewrite assigned_rows_length, length_map, length_skipn. lia. }
  split; [|split; [exact Hlen|]].
  - unfold draw_workshops_and_assign. rewrite El, EM. cbv zeta.
    change (- ((bottom SECTION4_RECT - (top SECTION4_RECT + 276) - 16) / 18))
      with (Z.opp 21).
    rewrite slice_last by lia. rewrite Elog, length_map, skipn_map.
    match goal with
    | |- exists _, Done (?a ++ ?b ++ ?c ++ _) = _ => exists (a ++ b ++ c)
    end.
    rewrite <- !app_assoc. reflexivity.
  - intros f t c px py Hin. unfold rows in *.
    apply assigned_rows_pos in Hin.
    rewrite assigned_rows_length in Hlen. rewrite Hlen in Hin.
    change (bottom SECTION4_RECT) with 800. lia.
Qed.

Lemma assigned_panel_shows_newest_witness :
  exists front,
    draw_workshops_and_assign (snd demo_world) =
    Done (front ++
          assigned_rows 614 396
            (map log_entry
               (skipn (length (products (snd demo_world)) - 21)
                      (products (snd demo_world))))).
Proof.
  exact (proj1 (assigned_panel_shows_newest lcg_randint demo_world
                  demo_world_reachable)).
Defined.

(** ** The rows of produced and finished products *)

Lemma insert_by_pid_least p l :
  Forall (fun z => pid p < z) (map pid l) -> insert_by_pid p l = p :: l.
Proof.
  destruct l as [|q l]; simpl; intros H; [reflexivity|].
  inversion H; subst. destruct (pid p <=? pid q) eqn:E; [reflexivity|].
  apply Z.leb_gt in E. lia.
Qed.

Lemma sort_by_pid_sorted l :
  StronglySorted Z.lt (map pid l) -> sort_by_pid l = l.
Proof.
  unfold sort_by_pid. induction l as [|a l IH]; simpl; intros H;
    [reflexivity|].
  inversion H; subst. rewrite IH by assumption.
  now apply insert_by_pid_least.
Qed.

Lemma flat_map_enumerate_ext {A B : Type} (f g : Z * A -> list B) l i :
  (forall idx a, In a l -> f (idx, a) = g (idx, a)) ->
  flat_map f (enumerate_from i l) = flat_map g (enumerate_from i l).
Proof.
  revert i. induction l as [|a l IH]; intros i H; simpl; [reflexivity|].
  rewrite (H i a (or_introl eq_refl)). f_equal. apply IH.
  intros idx b Hb. apply H. now right.
Qed.

(** On a reachable state the row of produced products shows the products
    that have left production at WS1, in the order of their ids, each as a
    blue circle: the pink colour of a product waiting for its transfer is
    never drawn.  The row of finished products shows a green circle under
    those of them whose state is [finished], and nothing under the
    others. *)
Theorem produced_row_is_blue {RNG : Type}
        (randint : Z -> Z -> RNG -> Z * RNG) (w : World RNG) :
  reachable randint w ->
  let shown :=
    filter (fun p => negb (is_state producing_ws1 p)) (products (snd w)) in
  draw_produced_finished (snd w) =
  [Blit ("Segoe UI"%string, 18) "Produced & finished"%string BLACK (14, 132)]
  ++
  flat_map
    (fun ip : Z * Product =>
       let '(idx, p) := ip in
       let '(cx, cy) := cell 20 170 idx in
       [DrawCircle BLUE (cx, cy) 10;
        Blit ("Consolas"%string, 14) (label_of p) BLACK (cx - 12, cy - 8)])
    (enumerate_from 0 shown) ++
  flat_map
    (fun ip : Z * Product =>
       let '(idx, p) := ip in
       if is_state finished p then
         let '(cx, cy) := cell 20 330 idx in
         [DrawCircle GREEN (cx, cy) 10;
          Blit ("Consolas"%string, 14) (label_of p) BLACK (cx - 12, cy - 8)]
       else [])
    (enumerate_from 0 shown).
Proof.
  intros R shown.
  pose proof (reachable_Inv randint w R) as I.
  pose proof (reachable_stamped randint w R) as S.
  destruct (reachable_lined_up randint w R) as (_ & _ & Efin).
  destruct (reachable_ids randint w R) as (_ & Eids & _).
  unfold all_stamped in S. rewrite Forall_forall in S.
  assert (Wf : forall p, In p (products (snd w)) ->
                         wf_product p /\
                         (In (pid p) (finished_ids (snd w)) ->
                          state p = finished)).
  { intros p Hp. destruct (linked_in _ _ _ _ _ p I Hp) as (_ & _ & F & _ & W).
    auto. }
  assert (E1 : sort_by_pid
                 (filter (fun p => negb (is_None (t_prod_done p)))
                         (products (snd w))) = shown).
  { unfold shown.
    rewrite (filter_ext_in
               (fun p => negb (is_None (t_prod_done p)))
               (fun p => negb (is_state producing_ws1 p))).
    - apply sort_by_pid_sorted, sorted_filter_pids. rewrite Eids.
      apply sorted_seq.
    - intros p Hp. destruct (S p Hp) as ((_ & t0 & _ & St) & _).
      destruct (Wf p Hp) as ((_ & _ & _ & _ & [Es|[Es|(Es & _)]]) & _).
      + rewrite (proj2 (is_state_true producing_ws1 p) Es).
        rewrite Es in St. destruct St as (-> & _). reflexivity.
      + rewrite is_state_false
          by (apply settled_state in Es; intros C; rewrite C in Es;
              destruct Es as [Es|[Es|Es]]; discriminate).
        apply settled_state in Es.
        destruct Es as [Es|[Es|Es]]; rewrite Es in St;
          destruct St as (-> & _); reflexivity.
      + rewrite is_state_false by (rewrite Es; discriminate).
        rewrite Es in St. destruct St as (-> & _). reflexivity. }
  assert (Hshown : forall p, In p shown -> In p (products (snd w))).
  { intros p Hp. unfold shown in Hp. now apply filter_In in Hp. }
  unfold draw_produced_finished. cbv zeta. rewrite E1.
  f_equal. f_equal.
  - apply flat_map_enumerate_ext. intros idx p Hp.
    destruct (Wf p (Hshown p Hp)) as ((_ & _ & _ & _ & St) & _).
    assert (Ep : state_eqb (state p) produced = false).
    { destruct St as [Es|[Es|(Es & _)]].
      - now rewrite Es.
      - apply settled_state in Es. destruct Es as [Es|[Es|Es]]; now rewrite Es.
      - now rewrite Es. }
    rewrite Ep. reflexivity.
  - apply flat_map_enumerate_ext. intros idx p Hp.
    destruct (Wf p (Hshown p Hp)) as (_ & F).
    assert (Ef : existsb (Z.eqb (pid p)) (finished_ids (snd w))
                 = is_state finished p).
    { destruct (is_state finished p) eqn:Es.
      - apply existsb_exists. exists (pid p). split; [|apply Z.eqb_refl].
        rewrite Efin. apply in_map. apply filter_In. split; [|exact Es].
        now apply Hshown.
      - destruct (existsb (Z.eqb (pid p)) (finished_ids (snd w))) eqn:Ee;
          [|reflexivity].
        apply existsb_exists in Ee as (z & Hz & Ez). apply Z.eqb_eq in Ez.
        subst z. apply F in Hz. apply is_state_true in Hz. congruence. }
    rewrite Ef. reflexivity.
Qed.

Lemma produced_row_is_blue_witness :
  draw_produced_finished (snd demo_world) =
  [Blit ("Segoe UI"%string, 18) "Produced & finished"%string BLACK (14, 132);
   DrawCircle BLUE (20, 170) 10;
   Blit ("Consolas"%string, 14) "P1"%string BLACK (8, 162)].
Proof.
  exact (produced_row_is_blue lcg_randint demo_world demo_world_reachable).
Defined.

(** ** One product at a time before the queue *)

(** In every reachable state every product but the newest is queued, in
    WS2 or finished: WS1 is given its next product only after the previous
    one has arrived in the queue of WS2, so at most one product is in
    production or in transfer. *)
Theorem one_product_before_queue {RNG : Type}
        (randint : Z -> Z -> RNG -> Z * RNG) (w : World RNG) :
  reachable randint w ->
  forall A p B,
    products (snd w) = A ++ p :: B -> B <> [] ->
    state p = in_queue_ws2 \/ state p = processing_ws2 \/ state p = finished.
Proof.
  intros R A p B E HB.
  pose proof (inv_settled _ _ _ _ _ (reachable_Inv randint w R)) as S.
  rewrite E in S. rewrite removelast_app in S by discriminate.
  apply Forall_app in S as (_ & S).
  destruct B as [|b B]; [contradiction|].
  change (removelast (p :: b :: B)) with (p :: removelast (b :: B)) in S.
  apply Forall_inv in S. now apply settled_state.
Qed.

Lemma one_product_before_queue_witness :
  exists p q,
    products (snd demo_world) = [p; q] /\
    (state p = in_queue_ws2 \/ state p = processing_ws2 \/ state p = finished).
Proof.
  pose proof (one_product_before_queue lcg_randint demo_world
                demo_world_reachable) as H.
  remember (products (snd demo_world)) as ps eqn:E.
  vm_compute in E. subst ps.
  eexists. eexists. split; [reflexivity|].
  eapply (H []); [reflexivity|discriminate].
Defined.
